(** * The gateway WebSocket client (ether-portal-web/js/gateway.js)

    A shallow embedding of the [GatewayClient] class: the connection
    life cycle, the hello handshake, the request/response correlator, the
    heartbeat, the reconnection back-off and the event dispatcher.

    The client is single-threaded and callback driven.  Every method and every
    callback (socket handlers, timer closures, promise reactions) is a
    computation in a state-and-exception monad over a [World]: the fields of
    the client object, together with the browser objects the client holds on
    to (sockets, promises, timers, the local storage) and a log of the
    observable effects in the order they happen.  One [step] of the model is
    one browser task: a call from the application, a socket event, or a timer
    firing at a given time of the clock. *)

From stdpp Require Import base option list gmap strings pretty.
From Stdlib Require Import ZArith Lia Ascii.

Open Scope Z_scope.

(** ** Data *)

(** [WebSocket.readyState]. *)
Inductive ReadyState := CONNECTING | OPEN | CLOSING | CLOSED.

Global Instance ReadyState_eq_dec : EqDecision ReadyState.
Proof. solve_decision. Defined.

(** Browser objects are named by their allocation index. *)
Abbreviation SockId := nat.
Abbreviation PromiseId := nat.
Abbreviation TimerId := nat.
(** An event handler is a JavaScript function; it is compared by identity. *)
Abbreviation Handler := nat.

(** The fields of a response or event payload that the client reads; the rest
    of the JSON value is carried along uninterpreted. *)
Record Payload := {
  p_type : option string;            (* payload.type *)
  p_protocol : option Z;             (* payload.protocol *)
  p_deviceToken : option string;     (* payload.auth?.deviceToken *)
  p_nonce : option string;           (* payload.nonce *)
  p_rest : string
}.

(** [data.error] of a response frame. *)
Record ErrorField := {
  err_code : option string;
  err_message : option string
}.

(** An inbound frame after [JSON.parse], by its [type] discriminator. *)
Inductive Frame :=
| FEvent (event : string) (payload : option Payload)
| FRes (id : option string) (ok : bool) (payload : option Payload)
       (error : option ErrorField)
| FPong
| FOther (type : string).

(** A JavaScript [Error]: its message and, when one was assigned, its [code]
    property. *)
Record JsError := {
  e_message : string;
  e_code : option string
}.

Definition Error (msg : string) : JsError := {| e_message := msg; e_code := None |}.

(** The [auth] block of the connect request. *)
Inductive Auth := AuthEmpty | AuthToken (t : string) | AuthDeviceToken (t : string).

(** Frames written to the socket. *)
Inductive OutFrame :=
| OutConnect (id : string) (deviceId : string) (auth : Auth)
| OutReq (id : string) (method params : string)
| OutPing.

(** What [emit] is called with. *)
Inductive EventData :=
| DUndefined
| DConnecting (attempt : nat) (url : string)
| DDisconnected (code : Z) (reason : string)
| DError (error : string)
| DChallenge (nonce : option string)
| DConnected (protocol : option Z)
| DPayload (payload : option Payload).

(** What a handler receives: the data itself, or the [{event, data}] object
    handed to wildcard handlers. *)
Inductive EmitArg :=
| Plain (data : EventData)
| Wild (event : string) (data : EventData).

(** Observable effects, logged in the order they happen. *)
Inductive Effect :=
| EHandlerCall (h : Handler) (arg : EmitArg)
| EConsoleError (msg : string)
| EWsNew (k : SockId) (url : string)
| EWsSend (k : SockId) (f : OutFrame)
| EWsClose (k : SockId) (code : option Z) (reason : option string)
| ESetTimeout (t : TimerId) (delay : Z)
| ESetInterval (t : TimerId) (delay : Z)
| EClearTimer (t : TimerId)
| EResolve (p : PromiseId) (v : option Payload)
| EReject (p : PromiseId) (e : JsError)
| EStorageSet (key value : string).

(** The callbacks stored in [pendingRequests]: the no-op pair registered for
    the connect request, or the [resolve]/[reject] pair of a [send] promise. *)
Inductive Callbacks := NoopCallbacks | PromiseCallbacks (p : PromiseId).

Record Config := {
  host : string;
  port : Z;
  token : string;
  useTls : bool
}.

(** The fields of [this]. *)
Record GatewayClient := {
  ws : option SockId;
  config : Config;
  connected : bool;
  requestId : nat;
  pendingRequests : gmap string Callbacks;
  eventHandlers : gmap string (list Handler);
  reconnectTimer : option TimerId;
  pingInterval : option TimerId;
  lastPong : option Z;
  connectionAttempts : nat;
  maxReconnectAttempts : nat;
  challengeNonce : option string;
  deviceId : option string;
  connectPromise : option PromiseId
}.

(** A socket with the closures [connect] installed on it: the connection
    timeout they clear and the promise they settle. *)
Record Socket := {
  readyState : ReadyState;
  s_closures : option (TimerId * PromiseId)
}.

Inductive PromiseState :=
| Pending
| Fulfilled (v : option Payload)
| Rejected (e : JsError).

(** [reactions] counts the rejection handlers attached by the reconnect timer
    ([connect().catch(...)]). *)
Record Promise := {
  state : PromiseState;
  reactions : nat
}.

(** The closure a timer runs. *)
Inductive Timer :=
| ConnectionTimeout (p : PromiseId)
| RequestTimeout (id : string) (p : PromiseId)
| PingTick
| ReconnectTimeout.

(** What the client cannot see into: whether a handler throws on an argument,
    whether [new WebSocket(url)] accepts the URL, and the identifier derived
    from the browser fingerprint on first use
    (['ether-portal-' + hashCode(fingerprint).toString(36)]). *)
Record Browser := {
  handler_throws : Handler → EmitArg → bool;
  url_valid : string → bool;
  fingerprint_id : string
}.

Record World := {
  browser : Browser;
  this : GatewayClient;
  sockets : list Socket;
  promises : list Promise;
  timers : gmap nat Timer;
  nextTimer : nat;
  localStorage : gmap string string;
  microtasks : nat;      (* queued reactions of the reconnect [.catch] *)
  clock : Z;             (* [Date.now()] during the current task *)
  log : list Effect
}.

(** Field updates. *)
Definition set_ws v (c : GatewayClient) : GatewayClient :=
  {| ws := v; config := config c; connected := connected c; requestId := requestId c;
     pendingRequests := pendingRequests c; eventHandlers := eventHandlers c;
     reconnectTimer := reconnectTimer c; pingInterval := pingInterval c; lastPong :=
     lastPong c; connectionAttempts := connectionAttempts c; maxReconnectAttempts :=
     maxReconnectAttempts c; challengeNonce := challengeNonce c; deviceId := deviceId c;
     connectPromise := connectPromise c |}.
Definition set_config v (c : GatewayClient) : GatewayClient :=
  {| ws := ws c; config := v; connected := connected c; requestId := requestId c;
     pendingRequests := pendingRequests c; eventHandlers := eventHandlers c;
     reconnectTimer := reconnectTimer c; pingInterval := pingInterval c; lastPong :=
     lastPong c; connectionAttempts := connectionAttempts c; maxReconnectAttempts :=
     maxReconnectAttempts c; challengeNonce := challengeNonce c; deviceId := deviceId c;
     connectPromise := connectPromise c |}.
Definition set_connected v (c : GatewayClient) : GatewayClient :=
  {| ws := ws c; config := config c; connected := v; requestId := requestId c;
     pendingRequests := pendingRequests c; eventHandlers := eventHandlers c;
     reconnectTimer := reconnectTimer c; pingInterval := pingInterval c; lastPong :=
     lastPong c; connectionAttempts := connectionAttempts c; maxReconnectAttempts :=
     maxReconnectAttempts c; challengeNonce := challengeNonce c; deviceId := deviceId c;
     connectPromise := connectPromise c |}.
Definition set_requestId v (c : GatewayClient) : GatewayClient :=
  {| ws := ws c; config := config c; connected := connected c; requestId := v;
     pendingRequests := pendingRequests c; eventHandlers := eventHandlers c;
     reconnectTimer := reconnectTimer c; pingInterval := pingInterval c; lastPong :=
     lastPong c; connectionAttempts := connectionAttempts c; maxReconnectAttempts :=
     maxReconnectAttempts c; challengeNonce := challengeNonce c; deviceId := deviceId c;
     connectPromise := connectPromise c |}.
Definition set_pendingRequests v (c : GatewayClient) : GatewayClient :=
  {| ws := ws c; config := config c; connected := connected c; requestId := requestId c;
     pendingRequests := v; eventHandlers := eventHandlers c; reconnectTimer :=
     reconnectTimer c; pingInterval := pingInterval c; lastPong := lastPong c;
     connectionAttempts := connectionAttempts c; maxReconnectAttempts :=
     maxReconnectAttempts c; challengeNonce := challengeNonce c; deviceId := deviceId c;
     connectPromise := connectPromise c |}.
Definition set_eventHandlers v (c : GatewayClient) : GatewayClient :=
  {| ws := ws c; config := config c; connected := connected c; requestId := requestId c;
     pendingRequests := pendingRequests c; eventHandlers := v; reconnectTimer :=
     reconnectTimer c; pingInterval := pingInterval c; lastPong := lastPong c;
     connectionAttempts := connectionAttempts c; maxReconnectAttempts :=
     maxReconnectAttempts c; challengeNonce := challengeNonce c; deviceId := deviceId c;
     connectPromise := connectPromise c |}.
Definition set_reconnectTimer v (c : GatewayClient) : GatewayClient :=
  {| ws := ws c; config := config c; connected := connected c; requestId := requestId c;
     pendingRequests := pendingRequests c; eventHandlers := eventHandlers c;
     reconnectTimer := v; pingInterval := pingInterval c; lastPong := lastPong c;
     connectionAttempts := connectionAttempts c; maxReconnectAttempts :=
     maxReconnectAttempts c; challengeNonce := challengeNonce c; deviceId := deviceId c;
     connectPromise := connectPromise c |}.
Definition set_pingInterval v (c : GatewayClient) : GatewayClient :=
  {| ws := ws c; config := config c; connected := connected c; requestId := requestId c;
     pendingRequests := pendingRequests c; eventHandlers := eventHandlers c;
     reconnectTimer := reconnectTimer c; pingInterval := v; lastPong := lastPong c;
     connectionAttempts := connectionAttempts c; maxReconnectAttempts :=
     maxReconnectAttempts c; challengeNonce := challengeNonce c; deviceId := deviceId c;
     connectPromise := connectPromise c |}.
Definition set_lastPong v (c : GatewayClient) : GatewayClient :=
  {| ws := ws c; config := config c; connected := connected c; requestId := requestId c;
     pendingRequests := pendingRequests c; eventHandlers := eventHandlers c;
     reconnectTimer := reconnectTimer c; pingInterval := pingInterval c; lastPong := v;
     connectionAttempts := connectionAttempts c; maxReconnectAttempts :=
     maxReconnectAttempts c; challengeNonce := challengeNonce c; deviceId := deviceId c;
     connectPromise := connectPromise c |}.
Definition set_connectionAttempts v (c : GatewayClient) : GatewayClient :=
  {| ws := ws c; config := config c; connected := connected c; requestId := requestId c;
     pendingRequests := pendingRequests c; eventHandlers := eventHandlers c;
     reconnectTimer := reconnectTimer c; pingInterval := pingInterval c; lastPong :=
     lastPong c; connectionAttempts := v; maxReconnectAttempts := maxReconnectAttempts
     c; challengeNonce := challengeNonce c; deviceId := deviceId c; connectPromise :=
     connectPromise c |}.
Definition set_maxReconnectAttempts v (c : GatewayClient) : GatewayClient :=
  {| ws := ws c; config := config c; connected := connected c; requestId := requestId c;
     pendingRequests := pendingRequests c; eventHandlers := eventHandlers c;
     reconnectTimer := reconnectTimer c; pingInterval := pingInterval c; lastPong :=
     lastPong c; connectionAttempts := connectionAttempts c; maxReconnectAttempts := v;
     challengeNonce := challengeNonce c; deviceId := deviceId c; connectPromise :=
     connectPromise c |}.
Definition set_challengeNonce v (c : GatewayClient) : GatewayClient :=
  {| ws := ws c; config := config c; connected := connected c; requestId := requestId c;
     pendingRequests := pendingRequests c; eventHandlers := eventHandlers c;
     reconnectTimer := reconnectTimer c; pingInterval := pingInterval c; lastPong :=
     lastPong c; connectionAttempts := connectionAttempts c; maxReconnectAttempts :=
     maxReconnectAttempts c; challengeNonce := v; deviceId := deviceId c; connectPromise
     := connectPromise c |}.
Definition set_deviceId v (c : GatewayClient) : GatewayClient :=
  {| ws := ws c; config := config c; connected := connected c; requestId := requestId c;
     pendingRequests := pendingRequests c; eventHandlers := eventHandlers c;
     reconnectTimer := reconnectTimer c; pingInterval := pingInterval c; lastPong :=
     lastPong c; connectionAttempts := connectionAttempts c; maxReconnectAttempts :=
     maxReconnectAttempts c; challengeNonce := challengeNonce c; deviceId := v;
     connectPromise := connectPromise c |}.
Definition set_connectPromise v (c : GatewayClient) : GatewayClient :=
  {| ws := ws c; config := config c; connected := connected c; requestId := requestId c;
     pendingRequests := pendingRequests c; eventHandlers := eventHandlers c;
     reconnectTimer := reconnectTimer c; pingInterval := pingInterval c; lastPong :=
     lastPong c; connectionAttempts := connectionAttempts c; maxReconnectAttempts :=
     maxReconnectAttempts c; challengeNonce := challengeNonce c; deviceId := deviceId c;
     connectPromise := v |}.
Definition set_this v (w : World) : World :=
  {| browser := browser w; this := v; sockets := sockets w; promises := promises w;
     timers := timers w; nextTimer := nextTimer w; localStorage := localStorage w;
     microtasks := microtasks w; clock := clock w; log := log w |}.
Definition set_sockets v (w : World) : World :=
  {| browser := browser w; this := this w; sockets := v; promises := promises w; timers
     := timers w; nextTimer := nextTimer w; localStorage := localStorage w; microtasks
     := microtasks w; clock := clock w; log := log w |}.
Definition set_promises v (w : World) : World :=
  {| browser := browser w; this := this w; sockets := sockets w; promises := v; timers
     := timers w; nextTimer := nextTimer w; localStorage := localStorage w; microtasks
     := microtasks w; clock := clock w; log := log w |}.
Definition set_timers v (w : World) : World :=
  {| browser := browser w; this := this w; sockets := sockets w; promises := promises w;
     timers := v; nextTimer := nextTimer w; localStorage := localStorage w; microtasks
     := microtasks w; clock := clock w; log := log w |}.
Definition set_nextTimer v (w : World) : World :=
  {| browser := browser w; this := this w; sockets := sockets w; promises := promises w;
     timers := timers w; nextTimer := v; localStorage := localStorage w; microtasks :=
     microtasks w; clock := clock w; log := log w |}.
Definition set_localStorage v (w : World) : World :=
  {| browser := browser w; this := this w; sockets := sockets w; promises := promises w;
     timers := timers w; nextTimer := nextTimer w; localStorage := v; microtasks :=
     microtasks w; clock := clock w; log := log w |}.
Definition set_microtasks v (w : World) : World :=
  {| browser := browser w; this := this w; sockets := sockets w; promises := promises w;
     timers := timers w; nextTimer := nextTimer w; localStorage := localStorage w;
     microtasks := v; clock := clock w; log := log w |}.
Definition set_clock v (w : World) : World :=
  {| browser := browser w; this := this w; sockets := sockets w; promises := promises w;
     timers := timers w; nextTimer := nextTimer w; localStorage := localStorage w;
     microtasks := microtasks w; clock := v; log := log w |}.
Definition set_log v (w : World) : World :=
  {| browser := browser w; this := this w; sockets := sockets w; promises := promises w;
     timers := timers w; nextTimer := nextTimer w; localStorage := localStorage w;
     microtasks := microtasks w; clock := clock w; log := v |}.

(** ** The monad: state and JavaScript exceptions *)

Inductive Exn :=
| SyntaxError            (* [new WebSocket] on a malformed URL *)
| InvalidStateError      (* [send] on a socket that is still connecting *)
| TypeError              (* a method call on [null] *)
| HandlerError (h : Handler).

Definition M (A : Type) : Type := World → (Exn + A) * World.

Global Instance M_ret : MRet M := λ A a w, (inr a, w).
Global Instance M_bind : MBind M := λ A B k m w,
  match m w with
  | (inr a, w') => k a w'
  | (inl e, w') => (inl e, w')
  end.

Definition throw {A} (e : Exn) : M A := λ w, (inl e, w).

(** [try { m } catch (e) { h e }] *)
Definition try_catch {A} (m : M A) (h : Exn → M A) : M A := λ w,
  match m w with
  | (inl e, w') => h e w'
  | r => r
  end.

Definition gets {A} (f : World → A) : M A := λ w, (inr (f w), w).
Definition modify (f : World → World) : M unit := λ w, (inr (), f w).
Definition getThis {A} (f : GatewayClient → A) : M A := gets (λ w, f (this w)).
Definition setThis (f : GatewayClient → GatewayClient) : M unit :=
  modify (λ w, set_this (f (this w)) w).
Definition tell (e : Effect) : M unit := modify (λ w, set_log (log w ++ [e]) w).

(** The world after running [m], whatever it returned or threw. *)
Definition exec {A} (m : M A) (w : World) : World := (m w).2.

Fixpoint forEach {A} (l : list A) (f : A → M unit) : M unit :=
  match l with
  | [] => mret ()
  | x :: l' => f x;; forEach l' f
  end.

Definition when (b : bool) (m : M unit) : M unit := if b then m else mret ().

(** JavaScript truthiness of a possibly absent string or number. *)
Definition truthy_string (s : option string) : bool :=
  match s with Some s => negb (String.eqb s "") | None => false end.
Definition truthy_number (n : option Z) : bool :=
  match n with Some n => negb (Z.eqb n 0) | None => false end.
Definition is_some {A} (o : option A) : bool :=
  match o with Some _ => true | None => false end.

(** ** Browser primitives *)

Definition console_error (msg : string) : M unit := tell (EConsoleError msg).
Definition Date_now : M Z := gets clock.

(** *** Promises *)

Definition allocPromise : M PromiseId :=
  p ← gets (λ w, length (promises w));
  modify (λ w, set_promises (promises w ++ [{| state := Pending; reactions := 0 |}]) w);;
  mret p.

Definition settle (st : PromiseState) (pr : Promise) : Promise :=
  {| state := st; reactions := reactions pr |}.

(** Calling the [resolve] function of promise [p]: only the first settlement
    has an effect. *)
Definition resolve (p : PromiseId) (v : option Payload) : M unit :=
  tell (EResolve p v);;
  pr ← gets (λ w, promises w !! p);
  match pr with
  | Some pr =>
      match state pr with
      | Pending => modify (λ w, set_promises (<[p := settle (Fulfilled v) pr]> (promises w)) w)
      | _ => mret ()
      end
  | None => mret ()
  end.

(** Calling the [reject] function of promise [p]; a first settlement queues
    the rejection handlers attached so far. *)
Definition reject (p : PromiseId) (e : JsError) : M unit :=
  tell (EReject p e);;
  pr ← gets (λ w, promises w !! p);
  match pr with
  | Some pr =>
      match state pr with
      | Pending =>
          modify (λ w, set_promises (<[p := settle (Rejected e) pr]> (promises w)) w);;
          modify (λ w, set_microtasks (microtasks w + reactions pr)%nat w)
      | _ => mret ()
      end
  | None => mret ()
  end.

(** [p.catch(handler)] as the reconnect timer uses it: the handler is queued
    at once when [p] is already rejected. *)
Definition catch_reconnect (p : PromiseId) : M unit :=
  pr ← gets (λ w, promises w !! p);
  match pr with
  | Some pr =>
      match state pr with
      | Pending =>
          modify (λ w, set_promises
            (<[p := {| state := Pending; reactions := S (reactions pr) |}]> (promises w)) w)
      | Rejected _ => modify (λ w, set_microtasks (S (microtasks w)) w)
      | Fulfilled _ => mret ()
      end
  | None => mret ()
  end.

(** *** Timers *)

Definition armTimer (c : Timer) : M TimerId :=
  t ← gets nextTimer;
  modify (λ w, set_nextTimer (S t) (set_timers (<[t := c]> (timers w)) w));;
  mret t.

Definition setTimeout (c : Timer) (delay : Z) : M TimerId :=
  t ← armTimer c; tell (ESetTimeout t delay);; mret t.
Definition setInterval (c : Timer) (delay : Z) : M TimerId :=
  t ← armTimer c; tell (ESetInterval t delay);; mret t.
(** [clearTimeout] and [clearInterval]. *)
Definition clearTimer (t : TimerId) : M unit :=
  tell (EClearTimer t);;
  modify (λ w, set_timers (delete t (timers w)) w).

(** *** WebSocket *)

Definition wsReadyState (k : SockId) : M (option ReadyState) :=
  gets (λ w, readyState <$> sockets w !! k).

Definition setReadyState (k : SockId) (r : ReadyState) : M unit :=
  modify (λ w, set_sockets
    (alter (λ s, {| readyState := r; s_closures := s_closures s |}) k (sockets w)) w).

(** [ws.close(code, reason)]: starts the closing handshake of a socket that is
    connecting or open, does nothing otherwise. *)
Definition wsClose (k : SockId) (code : option Z) (reason : option string) : M unit :=
  tell (EWsClose k code reason);;
  r ← wsReadyState k;
  match r with
  | Some CONNECTING | Some OPEN => setReadyState k CLOSING
  | _ => mret ()
  end.

(** [ws.send(frame)]: throws while the socket is still connecting; data sent
    on a closing or closed socket is discarded. *)
Definition wsSend (k : SockId) (f : OutFrame) : M unit :=
  r ← wsReadyState k;
  match r with
  | Some CONNECTING => throw InvalidStateError
  | _ => tell (EWsSend k f)
  end.

(** *** Local storage *)

Definition getItem (key : string) : M (option string) :=
  gets (λ w, localStorage w !! key).
Definition setItem (key value : string) : M unit :=
  tell (EStorageSet key value);;
  modify (λ w, set_localStorage (<[key := value]> (localStorage w)) w).


(** ** The client *)

Definition error_of (e : Exn) : JsError :=
  Error match e with
        | SyntaxError => "SyntaxError"
        | InvalidStateError => "InvalidStateError"
        | TypeError => "TypeError"
        | HandlerError _ => "Error"
        end.

(** [new Promise(executor)]: the executor runs at once; what it throws rejects
    the promise. *)
Definition newPromise (executor : PromiseId → M unit) : M PromiseId :=
  p ← allocPromise;
  try_catch (executor p) (λ e, reject p (error_of e));;
  mret p.

(** [new WebSocket(url)] *)
Definition newWebSocket (url : string) : M SockId :=
  valid ← gets (λ w, url_valid (browser w) url);
  if valid : bool then
    k ← gets (λ w, length (sockets w));
    modify (λ w, set_sockets
      (sockets w ++ [{| readyState := CONNECTING; s_closures := None |}]) w);;
    tell (EWsNew k url);;
    mret k
  else throw SyntaxError.

(** Assigning [onopen], [onmessage], [onclose] and [onerror]. *)
Definition installHandlers (k : SockId) (t : TimerId) (p : PromiseId) : M unit :=
  modify (λ w, set_sockets
    (alter (λ s, {| readyState := readyState s; s_closures := Some (t, p) |}) k
       (sockets w)) w).

(** [handler(arg)] *)
Definition callHandler (h : Handler) (arg : EmitArg) : M unit :=
  tell (EHandlerCall h arg);;
  throws ← gets (λ w, handler_throws (browser w) h arg);
  if throws : bool then throw (HandlerError h) else mret ().

(** *** Event handling *)

(** The handlers of a topic are a [Set]: a handler is registered once, and
    [forEach] visits them in insertion order. *)
Definition on (event : string) (handler : Handler) : M unit :=
  setThis (λ c,
    let handlers : list Handler := default [] (eventHandlers c !! event) in
    set_eventHandlers
      (<[event := if bool_decide (handler ∈ handlers) then handlers
                  else (handlers ++ [handler])%list]> (eventHandlers c)) c).

Definition off (event : string) (handler : Handler) : M unit :=
  setThis (λ c,
    match eventHandlers c !! event with
    | Some handlers =>
        set_eventHandlers
          (<[event := filter (λ h, h ≠ handler) handlers]> (eventHandlers c)) c
    | None => c
    end).

Definition emit (event : string) (data : EventData) : M unit :=
  handlers ← getThis (λ c, eventHandlers c !! event);
  match handlers with
  | Some handlers =>
      forEach handlers (λ handler,
        try_catch (callHandler handler (Plain data))
          (λ e, console_error "[Gateway] Event handler error:"))
  | None => mret ()
  end;;
  (* Also emit to wildcard handlers *)
  wildcardHandlers ← getThis (λ c, eventHandlers c !! "*");
  match wildcardHandlers with
  | Some handlers =>
      forEach handlers (λ handler,
        try_catch (callHandler handler (Wild event data))
          (λ e, console_error "[Gateway] Wildcard handler error:"))
  | None => mret ()
  end.

(** *** Configuration and identity *)

Record ConfigPatch := {
  c_host : option string;
  c_port : option Z;
  c_token : option string;
  c_useTls : option bool
}.

(** [this.config = { ...this.config, ...config }] *)
Definition configure (patch : ConfigPatch) : M unit :=
  setThis (λ c, set_config
    {| host := default (host (config c)) (c_host patch);
       port := default (port (config c)) (c_port patch);
       token := default (token (config c)) (c_token patch);
       useTls := default (useTls (config c)) (c_useTls patch) |} c).

Definition getWsUrl : M string :=
  cfg ← getThis config;
  let protocol := if useTls cfg then "wss" else "ws" in
  mret (protocol +:+ "://" +:+ host cfg +:+ ":" +:+ pretty (port cfg) +:+ "/ws").

Definition getDeviceId : M string :=
  cached ← getThis deviceId;
  if truthy_string cached then mret (default "" cached) else
  stored ← getItem "ether-portal-device-id";
  stored ← (if truthy_string stored then mret (default "" stored)
            else
              generated ← gets (λ w, fingerprint_id (browser w));
              setItem "ether-portal-device-id" generated;;
              mret generated);
  setThis (set_deviceId (Some stored));;
  mret stored.

(** *** Requests *)

(** [`req_${++this.requestId}_${Date.now()}`] *)
Definition request_id (n : nat) (now : Z) : string :=
  "req_" +:+ pretty n +:+ "_" +:+ pretty now.

Definition nextId : M string :=
  setThis (λ c, set_requestId (S (requestId c)) c);;
  n ← getThis requestId;
  now ← Date_now;
  mret (request_id n now).

Definition callResolve (cb : Callbacks) (v : option Payload) : M unit :=
  match cb with
  | NoopCallbacks => mret ()
  | PromiseCallbacks p => resolve p v
  end.

Definition callReject (cb : Callbacks) (e : JsError) : M unit :=
  match cb with
  | NoopCallbacks => mret ()
  | PromiseCallbacks p => reject p e
  end.

Definition pendingGet (id : option string) : M (option Callbacks) :=
  getThis (λ c, id ≫= λ id, pendingRequests c !! id).

Definition pendingDelete (id : option string) : M unit :=
  match id with
  | Some id => setThis (λ c, set_pendingRequests (delete id (pendingRequests c)) c)
  | None => mret ()
  end.

Definition sendConnectRequest : M unit :=
  deviceId ← getDeviceId;
  storedToken ← getItem "ether-portal-device-token";
  cfg ← getThis config;
  let auth :=
    if negb (String.eqb (token cfg) "") then AuthToken (token cfg)
    else if truthy_string storedToken then AuthDeviceToken (default "" storedToken)
    else AuthEmpty in
  requestId ← nextId;
  (* Create a pending request entry for the connect *)
  setThis (λ c, set_pendingRequests (<[requestId := NoopCallbacks]> (pendingRequests c)) c);;
  k ← getThis ws;
  match k with
  | Some k => wsSend k (OutConnect requestId deviceId auth)
  | None => throw TypeError
  end.

(** The closure of the 30 s timer armed by [send]. *)
Definition requestTimeout (id : string) (p : PromiseId) : M unit :=
  has ← getThis (λ c, is_some (pendingRequests c !! id));
  when has (
    setThis (λ c, set_pendingRequests (delete id (pendingRequests c)) c);;
    reject p (Error "Request timeout")).

Definition send (method params : string) : M PromiseId :=
  newPromise (λ p,
    c ← getThis (λ c, c);
    r ← match ws c with Some k => wsReadyState k | None => mret None end;
    if negb (connected c) || negb (is_some (ws c)) || negb (bool_decide (r = Some OPEN))
    then reject p (Error "Not connected to gateway")
    else
      id ← nextId;
      setThis (λ c, set_pendingRequests
        (<[id := PromiseCallbacks p]> (pendingRequests c)) c);;
      k ← getThis ws;
      match k with
      | Some k => wsSend k (OutReq id method params)
      | None => throw TypeError
      end;;
      (* Timeout after 30s *)
      _ ← setTimeout (RequestTimeout id p) 30000;
      mret ()).

(** *** Heartbeat *)

Definition stopPing : M unit :=
  t ← getThis pingInterval;
  match t with
  | Some t => clearTimer t;; setThis (set_pingInterval None)
  | None => mret ()
  end.

(** The closure of the 25 s interval. *)
Definition pingTick : M unit :=
  k ← getThis ws;
  r ← match k with Some k => wsReadyState k | None => mret None end;
  match k, r with
  | Some k, Some OPEN =>
      (* Check if we haven't received a pong in a while *)
      lastPong ← getThis lastPong;
      now ← Date_now;
      if truthy_number lastPong && (now - default 0 lastPong >? 60000)
      then wsClose k (Some 4000) (Some "Ping timeout")
      else wsSend k OutPing
  | _, _ => mret ()
  end.

Definition startPing : M unit :=
  stopPing;;
  now ← Date_now;
  setThis (set_lastPong (Some now));;
  t ← setInterval PingTick 25000;
  setThis (set_pingInterval (Some t)).


(** *** Inbound frames *)

(** The [res] branch of [handleMessage].  A response that matches none of
    the three cases falls through to the end of the function, where it is
    only logged. *)
Definition handleResponse (id : option string) (ok : bool) (payload : option Payload)
    (error : option ErrorField) (connect : option PromiseId) : M unit :=
  (* Check if this is a response to our connect request *)
  pending ← pendingGet id;
  if bool_decide (payload ≫= p_type = Some "hello-ok") then
    setThis (set_connected true);;
    setThis (set_connectionAttempts 0%nat);;
    (* Store device token if provided *)
    (let deviceToken := payload ≫= p_deviceToken in
     when (truthy_string deviceToken)
       (setItem "ether-portal-device-token" (default "" deviceToken)));;
    startPing;;
    emit "connected" (DConnected (payload ≫= p_protocol));;
    match pending with
    | Some pending => pendingDelete id;; callResolve pending payload
    | None => mret ()
    end;;
    match connect with
    | Some p => resolve p payload
    | None => mret ()
    end
  else if negb ok && is_some error then
    (* Handle connect error *)
    let errorMsg :=
      if truthy_string (error ≫= err_message) then default "" (error ≫= err_message)
      else if truthy_string (error ≫= err_code) then default "" (error ≫= err_code)
      else "Authentication failed" in
    console_error "[Gateway] Connect error:";;
    match pending with
    | Some pending => pendingDelete id;; callReject pending (Error errorMsg)
    | None => mret ()
    end;;
    match connect with
    | Some p => reject p (Error errorMsg)
    | None => mret ()
    end
  else if truthy_string id && is_some pending then
    (* Handle regular response *)
    pendingDelete id;;
    match pending with
    | Some pending =>
        if ok then callResolve pending payload
        else
          let message :=
            if truthy_string (error ≫= err_message) then default "" (error ≫= err_message)
            else "Request failed" in
          callReject pending {| e_message := message; e_code := error ≫= err_code |}
    | None => mret ()
    end
  else mret ().

Definition handleMessage (data : Frame) (connect : option PromiseId) : M unit :=
  match data with
  | FEvent event payload =>
      if String.eqb event "connect.challenge" then
        (* Handle connect challenge (sent by gateway before connect request) *)
        setThis (set_challengeNonce (payload ≫= p_nonce));;
        emit "challenge_received" (DChallenge (payload ≫= p_nonce));;
        sendConnectRequest
      else
        (* Handle events *)
        emit event (DPayload payload);;
        (* Special handling for specific events *)
        if String.eqb event "cron.job.started" then emit "job_started" (DPayload payload)
        else if String.eqb event "cron.job.completed"
        then emit "job_completed" (DPayload payload)
        else if String.eqb event "session.message"
        then emit "session_message" (DPayload payload)
        else mret ()
  | FRes id ok payload error => handleResponse id ok payload error connect
  | FPong =>
      (* Handle pong *)
      now ← Date_now;
      setThis (set_lastPong (Some now))
  | FOther _ => mret ()
  end.

(** *** Connection *)

(** The closure of the 10 s connection timer. *)
Definition connectionTimeout (p : PromiseId) : M unit :=
  k ← getThis ws;
  match k with
  | Some k =>
      r ← wsReadyState k;
      if bool_decide (r = Some OPEN) then mret ()
      else
        console_error "[Gateway] Connection timeout";;
        wsClose k None None;;
        setThis (set_connectPromise None);;
        reject p (Error "Connection timeout")
  | None => mret ()
  end.

Definition onopen (timeout : TimerId) : M unit :=
  clearTimer timeout;;
  emit "socket_open" DUndefined.

(** [data] is [None] when [JSON.parse] throws. *)
Definition onmessage (p : PromiseId) (data : option Frame) : M unit :=
  try_catch
    match data with
    | Some data => handleMessage data (Some p)
    | None => throw SyntaxError
    end
    (λ e, console_error "[Gateway] Failed to parse message:").

Definition onclose (timeout : TimerId) (p : PromiseId) (code : Z) (reason : string)
    : M unit :=
  clearTimer timeout;;
  setThis (set_connected false);;
  setThis (set_connectPromise None);;
  setThis (set_challengeNonce None);;
  emit "disconnected" (DDisconnected code reason);;
  stopPing;;
  (* Only reject if we haven't resolved yet *)
  connected ← getThis connected;
  when (negb connected)
    (reject p (Error (if String.eqb reason ""
                      then "Connection closed (" +:+ pretty code +:+ ")"
                      else reason))).

Definition onerror (timeout : TimerId) : M unit :=
  clearTimer timeout;;
  console_error "[Gateway] WebSocket error:";;
  emit "error" (DError "WebSocket connection failed").

Definition connect : M PromiseId :=
  (* Return existing promise if already connecting *)
  existing ← getThis connectPromise;
  match existing with
  | Some p => mret p
  | None =>
      p ← newPromise (λ p,
        setThis (λ c, set_connectionAttempts (S (connectionAttempts c)) c);;
        try_catch
          (url ← getWsUrl;
           attempt ← getThis connectionAttempts;
           emit "connecting" (DConnecting attempt url);;
           k ← newWebSocket url;
           setThis (set_ws (Some k));;
           (* Connection timeout *)
           timeout ← setTimeout (ConnectionTimeout p) 10000;
           installHandlers k timeout p)
          (λ error,
            setThis (set_connectPromise None);;
            reject p (error_of error)));
      setThis (set_connectPromise (Some p));;
      mret p
  end.

Definition disconnect : M unit :=
  stopPing;;
  setThis (set_connectionAttempts 0%nat);;
  t ← getThis reconnectTimer;
  match t with
  | Some t => clearTimer t;; setThis (set_reconnectTimer None)
  | None => mret ()
  end;;
  k ← getThis ws;
  match k with
  | Some k => wsClose k (Some 1000) (Some "User disconnect");; setThis (set_ws None)
  | None => mret ()
  end;;
  setThis (set_connected false);;
  setThis (set_connectPromise None);;
  setThis (set_pendingRequests ∅).

(** *** Reconnection *)

(** [Math.min(1000 * Math.pow(2, attempts), 30000)] *)
Definition reconnectDelay (attempts : nat) : Z :=
  Z.min (1000 * 2 ^ Z.of_nat attempts) 30000.

Definition scheduleReconnect : M unit :=
  t ← getThis reconnectTimer;
  if is_some t then mret () else
  c ← getThis (λ c, c);
  if (maxReconnectAttempts c <=? connectionAttempts c)%nat then
    console_error "[Gateway] Max reconnection attempts reached";;
    emit "max_reconnects" DUndefined
  else
    let delay := reconnectDelay (connectionAttempts c) in
    t ← setTimeout ReconnectTimeout delay;
    setThis (set_reconnectTimer (Some t)).

(** The closure of the reconnect timer; the [.catch] handler runs as a
    microtask once the promise is rejected. *)
Definition reconnectTimeout : M unit :=
  setThis (set_reconnectTimer None);;
  p ← connect;
  catch_reconnect p.

Definition reconnectFailed : M unit :=
  console_error "[Gateway] Reconnect failed:";;
  scheduleReconnect.

(** *** Connection state *)

Definition isConnected (w : World) : bool :=
  connected (this w) &&
  bool_decide ((ws (this w) ≫= λ k, readyState <$> sockets w !! k) = Some OPEN).

Definition getConnectionState (w : World) : string :=
  match ws (this w) with
  | None => "disconnected"
  | Some k =>
      match readyState <$> sockets w !! k with
      | Some CONNECTING => "connecting"
      | Some OPEN => if connected (this w) then "connected" else "authenticating"
      | Some CLOSING => "closing"
      | Some CLOSED => "disconnected"
      | None => "unknown"
      end
  end.

(** ** Tasks *)

(** What can happen to the client: a call of its public interface, an event
    of one of its sockets, or one of its timers firing. *)
Inductive Event :=
| CallConfigure (patch : ConfigPatch)
| CallConnect
| CallDisconnect
| CallSend (method params : string)
| CallScheduleReconnect
| CallOn (event : string) (h : Handler)
| CallOff (event : string) (h : Handler)
| CallEmit (event : string) (data : EventData)
| SocketOpen (k : SockId)
| SocketMessage (k : SockId) (data : option Frame)
| SocketError (k : SockId)
| SocketClose (k : SockId) (code : Z) (reason : string)
| TimerFires (t : TimerId).

Definition runTimer (t : TimerId) : M unit :=
  c ← gets (λ w, timers w !! t);
  match c with
  | Some (ConnectionTimeout p) =>
      modify (λ w, set_timers (delete t (timers w)) w);; connectionTimeout p
  | Some (RequestTimeout id p) =>
      modify (λ w, set_timers (delete t (timers w)) w);; requestTimeout id p
  | Some ReconnectTimeout =>
      modify (λ w, set_timers (delete t (timers w)) w);; reconnectTimeout
  | Some PingTick => pingTick
  | None => mret ()
  end.

(** A socket event is delivered to the closures installed on the socket, in
    the ready state the browser allows it in: [open] while connecting,
    [message] while open, [close] once. *)
Definition socketEvent (k : SockId) (ev : Event) : M unit :=
  s ← gets (λ w, sockets w !! k);
  match s with
  | Some {| readyState := r; s_closures := Some (timeout, p) |} =>
      match ev, r with
      | SocketOpen _, CONNECTING => setReadyState k OPEN;; onopen timeout
      | SocketMessage _ data, OPEN => onmessage p data
      | SocketError _, _ => onerror timeout
      | SocketClose _ code reason, (CONNECTING | OPEN | CLOSING) =>
          setReadyState k CLOSED;; onclose timeout p code reason
      | _, _ => mret ()
      end
  | _ => mret ()
  end.

Definition task (ev : Event) : M unit :=
  match ev with
  | CallConfigure patch => configure patch
  | CallConnect => _ ← connect; mret ()
  | CallDisconnect => disconnect
  | CallSend method params => _ ← send method params; mret ()
  | CallScheduleReconnect => scheduleReconnect
  | CallOn event h => on event h
  | CallOff event h => off event h
  | CallEmit event data => emit event data
  | SocketOpen k | SocketMessage k _ | SocketError k | SocketClose k _ _ => socketEvent k ev
  | TimerFires t => runTimer t
  end.

(** After the task the queued rejection handlers run. *)
Definition microtaskCheckpoint : M unit :=
  n ← gets microtasks;
  modify (set_microtasks 0%nat);;
  forEach (replicate n ()) (λ _, reconnectFailed).

(** One task at time [now]. *)
Definition step (now : Z) (ev : Event) (w : World) : World :=
  exec microtaskCheckpoint (exec (task ev) (set_clock now w)).

Fixpoint run (evs : list (Z * Event)) (w : World) : World :=
  match evs with
  | [] => w
  | (now, ev) :: evs => run evs (step now ev w)
  end.

(** [new GatewayClient()] in a page whose local storage holds [stored]. *)
Definition init (b : Browser) (stored : gmap string string) : World :=
  {| browser := b;
     this :=
       {| ws := None;
          config := {| host := ""; port := 18789; token := ""; useTls := false |};
          connected := false;
          requestId := 0;
          pendingRequests := ∅;
          eventHandlers := ∅;
          reconnectTimer := None;
          pingInterval := None;
          lastPong := None;
          connectionAttempts := 0;
          maxReconnectAttempts := 5;
          challengeNonce := None;
          deviceId := None;
          connectPromise := None |};
     sockets := [];
     promises := [];
     timers := ∅;
     nextTimer := 1;
     localStorage := stored;
     microtasks := 0;
     clock := 0;
     log := [] |}.


(** ** The device fingerprint hash *)

(** A JavaScript string is a sequence of UTF-16 code units; [charCodeAt]
    returns the unit, a number from 0 to 65535. *)
Abbreviation CodeUnit := Z.

(** [ToInt32]: the value modulo 2^32, read as a signed 32-bit integer. *)
Definition toInt32 (x : Z) : Z := (x + 2 ^ 31) mod 2 ^ 32 - 2 ^ 31.

(** [x << n] and [x & y] on numbers: both operands are converted by
    [ToInt32], and so is the result. *)
Definition shl32 (x n : Z) : Z := toInt32 (Z.shiftl (toInt32 x) (n mod 32)).
Definition and32 (x y : Z) : Z := toInt32 (Z.land (toInt32 x) (toInt32 y)).

(** The loop of [hashCode], from the value [hash] has on entry. *)
Fixpoint hashCode_loop (hash : Z) (str : list CodeUnit) : Z :=
  match str with
  | [] => hash
  | char :: str =>
      let hash := (shl32 hash 5 - hash) + char in
      let hash := and32 hash hash in
      hashCode_loop hash str
  end.

Definition hashCode (str : list CodeUnit) : Z := Z.abs (hashCode_loop 0 str).

(** The code units of a string of ASCII characters. *)
Fixpoint ascii_units (s : string) : list CodeUnit :=
  match s with
  | EmptyString => []
  | String a s => Z.of_nat (nat_of_ascii a) :: ascii_units s
  end.

(** ** Vocabulary of the statements *)

(** The handler invocations in a log, in order. *)
Definition invocations (l : list Effect) : list (Handler * EmitArg) :=
  omap (λ e, match e with EHandlerCall h a => Some (h, a) | _ => None end) l.

(** What calling one handler inside [try { } catch { console.error }] logs. *)
Definition handler_log (b : Browser) (msg : string) (arg : EmitArg) (h : Handler)
    : list Effect :=
  EHandlerCall h arg :: (if handler_throws b h arg then [EConsoleError msg] else []).

Definition dispatch_log (b : Browser) (msg : string) (arg : EmitArg) (hs : list Handler)
    : list Effect :=
  hs ≫= handler_log b msg arg.

(** What [emit] logs, given the handler table. *)
Definition emit_log (b : Browser) (table : gmap string (list Handler))
    (event : string) (data : EventData) : list Effect :=
  dispatch_log b "[Gateway] Event handler error:" (Plain data)
    (default [] (table !! event)) ++
  dispatch_log b "[Gateway] Wildcard handler error:" (Wild event data)
    (default [] (table !! "*")).


(** Calls of the [resolve] or [reject] function of promise [p]. *)
Definition settles (p : PromiseId) (e : Effect) : bool :=
  match e with
  | EResolve q _ | EReject q _ => bool_decide (q = p)
  | _ => false
  end.

Definition settlements (p : PromiseId) (l : list Effect) : nat :=
  length (filter (λ e, settles p e = true) l).



(** Sockets opened. *)
Definition opened (l : list Effect) : list SockId :=
  omap (λ e, match e with EWsNew k _ => Some k | _ => None end) l.

(** Timers armed. *)
Definition armed (l : list Effect) : list TimerId :=
  omap (λ e, match e with
             | ESetTimeout t _ | ESetInterval t _ => Some t
             | _ => None
             end) l.

Definition cleared (t : option TimerId) : list Effect :=
  match t with Some t => [EClearTimer t] | None => [] end.

(** The worlds a fresh client can get into. *)
Definition reachable (w : World) : Prop :=
  ∃ b stored evs, w = run evs (init b stored).

(** [hoare P m Q E]: from a world in [P], [m] returns [a] in a world in [Q a]
    or throws in a world in [E]. *)
Definition hoare {A} (P : World → Prop) (m : M A) (Q : A → World → Prop)
    (E : World → Prop) : Prop :=
  ∀ w, P w → match m w with (inr a, w') => Q a w' | (inl _, w') => E w' end.

(** [m] keeps [P], whether it returns or throws. *)
Definition preserves {A} (P : World → Prop) (m : M A) : Prop :=
  hoare P m (λ _, P) P.

(** The handle the client holds names a socket that exists. *)
Definition handle_valid (w : World) : Prop :=
  ∀ k, ws (this w) = Some k → (k < length (sockets w))%nat.

(** ** Scenarios *)

(** A browser in which no handler throws and every URL is accepted. *)
Definition plain_browser : Browser :=
  {| handler_throws := λ _ _, false;
     url_valid := λ _, true;
     fingerprint_id := "ether-portal-1x2y3z" |}.

Definition gateway_config : ConfigPatch :=
  {| c_host := Some "gateway.local"; c_port := None; c_token := Some "secret";
     c_useTls := None |}.

Definition challenge_frame : Frame :=
  FEvent "connect.challenge"
    (Some {| p_type := None; p_protocol := None; p_deviceToken := None;
             p_nonce := Some "abc123"; p_rest := "" |}).

Definition hello_payload : Payload :=
  {| p_type := Some "hello-ok"; p_protocol := Some 3; p_deviceToken := Some "device-token-1";
     p_nonce := None; p_rest := "" |}.

Definition hello_frame (id : string) : Frame :=
  FRes (Some id) true (Some hello_payload) None.

(** The client connects and the handshake succeeds on socket 0. *)
Definition handshake : list (Z * Event) :=
  [(0, CallConfigure gateway_config);
   (1000, CallConnect);
   (1100, SocketOpen 0%nat);
   (1200, SocketMessage 0%nat (Some challenge_frame));
   (1300, SocketMessage 0%nat (Some (hello_frame "req_1_1200")))].

(** Five connection attempts in a row fail: each socket closes before it
    opens. *)
Definition five_failures : list (Z * Event) :=
  [(0, CallConfigure gateway_config);
   (1000, CallConnect); (1100, SocketClose 0%nat 1006 "");
   (2000, CallConnect); (2100, SocketClose 1%nat 1006 "");
   (3000, CallConnect); (3100, SocketClose 2%nat 1006 "");
   (4000, CallConnect); (4100, SocketClose 3%nat 1006 "");
   (5000, CallConnect); (5100, SocketClose 4%nat 1006 "")].

Definition exhausted_world : World := run five_failures (init plain_browser ∅).

(** The promises after a call of [resolve] or [reject] on promise [p]: only
    a pending promise changes. *)
Definition settled (p : PromiseId) (st : PromiseState) (proms : list Promise)
    : list Promise :=
  match proms !! p with
  | Some pr =>
      match state pr with
      | Pending => <[p := settle st pr]> proms
      | _ => proms
      end
  | None => proms
  end.

(** The rejection handlers a rejection of [p] queues. *)
Definition queued (p : PromiseId) (proms : list Promise) : nat :=
  match proms !! p with
  | Some pr =>
      match state pr with
      | Pending => reactions pr
      | _ => 0
      end
  | None => 0
  end.

(** The world after [resolve p v] and after [reject p e]. *)
Definition resolved (p : PromiseId) (v : option Payload) (w : World) : World :=
  set_promises (settled p (Fulfilled v) (promises w))
    (set_log (log w ++ [EResolve p v]) w).

Definition rejected (p : PromiseId) (e : JsError) (w : World) : World :=
  set_microtasks (microtasks w + queued p (promises w))
    (set_promises (settled p (Rejected e) (promises w))
       (set_log (log w ++ [EReject p e]) w)).

(** The world after calling the [resolve] or the [reject] of a pending
    entry. *)
Definition resolved_via (cb : Callbacks) (v : option Payload) (w : World) : World :=
  match cb with
  | NoopCallbacks => w
  | PromiseCallbacks p => resolved p v w
  end.

Definition rejected_via (cb : Callbacks) (e : JsError) (w : World) : World :=
  match cb with
  | NoopCallbacks => w
  | PromiseCallbacks p => rejected p e w
  end.

Definition forget (id : option string) (w : World) : World :=
  match id with
  | Some id => set_this (set_pendingRequests (delete id (pendingRequests (this w))) (this w)) w
  | None => w
  end.

Definition tracked (id : option string) (w : World) : option Callbacks :=
  id ≫= λ id, pendingRequests (this w) !! id.


(** [data.error.message || data.error.code || 'Authentication failed'] *)
Definition connect_error_message (error : option ErrorField) : string :=
  if truthy_string (error ≫= err_message) then default "" (error ≫= err_message)
  else if truthy_string (error ≫= err_code) then default "" (error ≫= err_code)
  else "Authentication failed".

(** What [ws.close()] does to the sockets, and [clearTimeout] to the timers. *)
Definition closing (k : SockId) (socks : list Socket) : list Socket :=
  match readyState <$> socks !! k with
  | Some CONNECTING | Some OPEN =>
      alter (λ s, {| readyState := CLOSING; s_closures := s_closures s |}) k socks
  | _ => socks
  end.

Definition cancel (t : option TimerId) (tms : gmap nat Timer) : gmap nat Timer :=
  match t with Some t => delete t tms | None => tms end.

(** The world [disconnect] leaves behind. *)
Definition disconnected (w : World) : World :=
  {| browser := browser w;
     this :=
       set_pendingRequests ∅ (set_connectPromise None (set_connected false (set_ws None
         (set_reconnectTimer None (set_connectionAttempts 0%nat
           (set_pingInterval None (this w)))))));
     sockets := match ws (this w) with Some k => closing k (sockets w) | None => sockets w end;
     promises := promises w;
     timers := cancel (reconnectTimer (this w)) (cancel (pingInterval (this w)) (timers w));
     nextTimer := nextTimer w;
     localStorage := localStorage w;
     microtasks := microtasks w;
     clock := clock w;
     log := log w ++ cleared (pingInterval (this w)) ++ cleared (reconnectTimer (this w)) ++
            match ws (this w) with
            | Some k => [EWsClose k (Some 1000) (Some "User disconnect")]
            | None => []
            end |}.





(** A request is pending in an authenticated session. *)
Definition request_pending : list (Z * Event) :=
  handshake ++ [(2000, CallSend "cron.run" "{jobId: 7}")].

(** The server answers it with an error that has a code and a message. *)
Definition not_found : Frame :=
  FRes (Some "req_2_2000") false None
    (Some {| err_code := Some "NOT_FOUND"; err_message := Some "no such job" |}).

(** The client connects, disconnects and connects again; then the close
    event of the first socket arrives. *)
Definition reconnected : list (Z * Event) :=
  [(0, CallConfigure gateway_config);
   (1000, CallConnect);
   (1500, CallDisconnect);
   (1600, CallConnect)].

Definition stale_close : list (Z * Event) :=
  reconnected ++ [(1700, SocketClose 0%nat 1000 "User disconnect")].

(** ** The correlator invariant *)

(** A string without the separator of request identifiers. *)
Fixpoint no_separator (s : string) : bool :=
  match s with
  | EmptyString => true
  | String c s => negb (Ascii.eqb c "_"%char) && no_separator s
  end.

(** The identifiers [nextId] has produced while the counter went up to [n]. *)
Definition issued (n : nat) (id : string) : Prop :=
  ∃ k t, id = request_id k t ∧ (k ≤ n)%nat.

(** [C] holds of the promises made by [connect], and [R id p] of the requests
    that [send] has registered: identifier and promise.  Every request is
    either tracked and unsettled, or untracked and settled at most once. *)
Record correlator_inv (C : PromiseId → Prop) (R : string → PromiseId → Prop)
    (w : World) : Prop := {
  inv_connect : ∀ p, C p → (p < length (promises w))%nat;
  inv_request : ∀ id p, R id p →
    (p < length (promises w))%nat ∧ ¬ C p ∧ issued (requestId (this w)) id;
  inv_fresh : ∀ p, (length (promises w) ≤ p)%nat → settlements p (log w) = 0%nat;
  inv_closures : ∀ k s t p,
    sockets w !! k = Some s → s_closures s = Some (t, p) → C p;
  inv_connection_timers : ∀ t p, timers w !! t = Some (ConnectionTimeout p) → C p;
  inv_keys : ∀ id cb,
    pendingRequests (this w) !! id = Some cb → issued (requestId (this w)) id;
  inv_entries : ∀ id p,
    pendingRequests (this w) !! id = Some (PromiseCallbacks p) → R id p;
  inv_request_timers : ∀ t id p, timers w !! t = Some (RequestTimeout id p) → R id p;
  inv_outcome : ∀ id p, R id p →
    (pendingRequests (this w) !! id = Some (PromiseCallbacks p) ∧
     settlements p (log w) = 0%nat) ∨
    (pendingRequests (this w) !! id = None ∧ (settlements p (log w) ≤ 1)%nat);
  inv_functional : ∀ id id' p, R id p → R id' p → id = id'
}.

(** The closures of timers refer to promises the invariant knows. *)
Definition timer_ok (C : PromiseId → Prop) (R : string → PromiseId → Prop)
    (c : Timer) : Prop :=
  match c with
  | ConnectionTimeout p => C p
  | RequestTimeout id p => R id p
  | _ => True
  end.

(** A request that is no longer tracked, with its number of settlements. *)
Definition frozen (R : string → PromiseId → Prop) (fr : option (string * PromiseId * nat))
    (w : World) : Prop :=
  match fr with
  | Some (id, p, n) =>
      R id p ∧ pendingRequests (this w) !! id = None ∧ settlements p (log w) = n
  | None => True
  end.

(** What was read from [pendingRequests] is still there. *)
Definition pinned (pin : option (option string * option Callbacks)) (w : World) : Prop :=
  match pin with
  | Some (id, cb) => tracked id w = cb
  | None => True
  end.

Definition cinv (C : PromiseId → Prop) (R : string → PromiseId → Prop)
    (fr : option (string * PromiseId * nat))
    (pin : option (option string * option Callbacks)) (w : World) : Prop :=
  correlator_inv C R w ∧ frozen R fr w ∧ pinned pin w.

(** Some invariant that extends [C] and [R] holds. *)
Definition cinv_ex (C : PromiseId → Prop) (R : string → PromiseId → Prop)
    (fr : option (string * PromiseId * nat)) (w : World) : Prop :=
  ∃ C' R' : _ → _, (∀ p, C p → C' p) ∧ (∀ id p, R id p → R' id p) ∧ cinv C' R' fr None w.

(** [nextId] has just produced [id]. *)
Definition bumped (C : PromiseId → Prop) (R : string → PromiseId → Prop)
    (fr : option (string * PromiseId * nat)) (id : string) (w : World) : Prop :=
  ∃ w0, cinv C R fr None w0 ∧
        w = set_this (set_requestId (S (requestId (this w0))) (this w0)) w0 ∧
        id = request_id (S (requestId (this w0))) (clock w0).

(** The socket [send] may write to: the client is connected and its socket is
    open. *)
Definition send_allowed (w : World) : option SockId :=
  match ws (this w) with
  | Some k =>
      if connected (this w) && bool_decide (readyState <$> sockets w !! k = Some OPEN)
      then Some k else None
  | None => None
  end.

(** The world after [new Promise], and after [send] has registered and
    written a request. *)
Definition allocated (w : World) : World :=
  set_promises (promises w ++ [{| state := Pending; reactions := 0 |}]) w.

Definition registered (cb : Callbacks) (w : World) : World :=
  set_this
    (set_pendingRequests
       (<[request_id (S (requestId (this w))) (clock w) := cb]> (pendingRequests (this w)))
       (set_requestId (S (requestId (this w))) (this w))) w.

Definition accepted (method params : string) (k : SockId) (w : World) : World :=
  let p := length (promises w) in
  let id := request_id (S (requestId (this w))) (clock w) in
  set_log (log w ++ [EWsSend k (OutReq id method params); ESetTimeout (nextTimer w) 30000])
    (set_nextTimer (S (nextTimer w))
       (set_timers (<[nextTimer w := RequestTimeout id p]> (timers w))
          (registered (PromiseCallbacks p) (allocated w)))).




(** The polynomial [s[0]*31^(n-1) + ... + s[n-1]] over the integers, from the
    value [h]. *)
Definition poly31 (h : Z) (str : list CodeUnit) : Z :=
  fold_left (λ a c, 31 * a + c) str h.

(** The handlers registered for a topic, in the order [forEach] visits
    them. *)
Definition handlers_of (event : string) (w : World) : list Handler :=
  default [] (eventHandlers (this w) !! event).

(** The invocations one [emit] would make in world [w]. *)
Definition emitted (event : string) (data : EventData) (w : World)
    : list (Handler * EmitArg) :=
  invocations (emit_log (browser w) (eventHandlers (this w)) event data).

(** The argument of a wildcard handler, [{event, data}]. *)
Definition is_wild (a : EmitArg) : bool :=
  match a with Wild _ _ => true | Plain _ => false end.

(** The address [getWsUrl] builds from a configuration. *)
Definition ws_url (cfg : Config) : string :=
  (if useTls cfg then "wss" else "ws") +:+ "://" +:+ host cfg +:+ ":" +:+
  pretty (port cfg) +:+ "/ws".

(** What [connect] logs before it creates the socket. *)
Definition connecting_log (w : World) : list Effect :=
  emit_log (browser w) (eventHandlers (this w)) "connecting"
    (DConnecting (S (connectionAttempts (this w))) (ws_url (config (this w)))).

(** A browser whose [WebSocket] constructor rejects the address of an
    unconfigured client, which has no host. *)
Definition hostless_browser : Browser :=
  {| handler_throws := λ _ _, false;
     url_valid := λ url, negb (String.eqb url "ws://:18789/ws");
     fingerprint_id := "ether-portal-1x2y3z" |}.

(** The second name under which [handleMessage] emits a server event. *)
Definition event_alias (event : string) : option string :=
  if String.eqb event "cron.job.started" then Some "job_started"
  else if String.eqb event "cron.job.completed" then Some "job_completed"
  else if String.eqb event "session.message" then Some "session_message"
  else None.


(** [m] ends without an exception, in every world. *)
Definition returns {A} (m : M A) : Prop :=
  ∀ w, ∃ a w', m w = (inr a, w').

(** The world after [stopPing] and after [startPing]. *)
Definition stopped (w : World) : World :=
  match pingInterval (this w) with
  | Some t =>
      set_this (set_pingInterval None (this w))
        (set_timers (delete t (timers w)) (set_log (log w ++ [EClearTimer t]) w))
  | None => w
  end.

Definition heartbeat_started (w : World) : World :=
  set_this (set_pingInterval (Some (nextTimer w))
              (set_lastPong (Some (clock w)) (this (stopped w))))
    (set_log (log (stopped w) ++ [ESetInterval (nextTimer w) 25000])
       (set_nextTimer (S (nextTimer w))
          (set_timers (<[nextTimer w := PingTick]> (timers (stopped w))) (stopped w)))).

(** The closures installed on socket [k] hold timer [t] and promise [p]. *)
Definition closure_of (k : SockId) (t : TimerId) (p : PromiseId) (w : World) : Prop :=
  ∃ s, sockets w !! k = Some s ∧ s_closures s = Some (t, p).

(** The timers and the client's references to them agree. *)
Record timers_inv (w : World) : Prop := {
  ti_bound : ∀ t c, timers w !! t = Some c → (t < nextTimer w)%nat;
  ti_ping : ∀ t, timers w !! t = Some PingTick ↔ pingInterval (this w) = Some t;
  ti_reconnect : ∀ t,
    timers w !! t = Some ReconnectTimeout ↔ reconnectTimer (this w) = Some t;
  ti_closure : ∀ k t p, closure_of k t p w →
    (t < nextTimer w)%nat ∧
    (timers w !! t = None ∨ timers w !! t = Some (ConnectionTimeout p));
  ti_request : ∀ id p,
    pendingRequests (this w) !! id = Some (PromiseCallbacks p) →
    ∃ t, timers w !! t = Some (RequestTimeout id p)
}.

(** A configured client on which [scheduleReconnect] was called once. *)
Definition reconnect_scheduled : World :=
  run [(0, CallConfigure gateway_config); (1000, CallScheduleReconnect)]
    (init plain_browser ∅).

(** The client connects, disconnects and connects again within a second;
    the close event of the first socket is still outstanding when the
    connection timer of the first attempt is due. *)
Definition second_attempt : World :=
  run [(0, CallConfigure gateway_config); (0, CallConnect); (500, CallDisconnect);
       (900, CallConnect)]
    (init plain_browser ∅).

(** ** Tactics *)

(** Unfolds the monad and its primitive operations in the goal. *)
Ltac mred :=
  repeat (progress (
    unfold mbind, M_bind, mret, M_ret, throw, try_catch, gets, modify, getThis,
      setThis, tell, console_error, when, exec, Date_now;
    cbn)).

Ltac unfold_ops :=
  unfold task, socketEvent, runTimer, microtaskCheckpoint, reconnectFailed, newPromise,
    allocPromise,
    reconnectTimeout, scheduleReconnect, disconnect, onerror, onclose, onmessage,
    onopen, connectionTimeout, handleMessage, handleResponse, startPing, pingTick,
    stopPing, requestTimeout, sendConnectRequest, pendingDelete, pendingGet, callReject,
    callResolve, nextId, getDeviceId, getWsUrl, configure, off, on,
    callHandler, installHandlers, getItem, setItem, wsSend, wsClose, wsReadyState,
    setReadyState, clearTimer, setInterval, setTimeout, armTimer, catch_reconnect,
    reject, resolve.

(** Normalises worlds built by field updates. *)
Ltac unfold_setters :=
  lazy beta iota delta [set_ws set_config set_connected set_requestId
    set_pendingRequests set_eventHandlers set_reconnectTimer set_pingInterval
    set_lastPong set_connectionAttempts set_maxReconnectAttempts set_challengeNonce
    set_deviceId set_connectPromise set_this set_sockets set_promises set_timers
    set_nextTimer set_localStorage set_microtasks set_clock set_log ws config connected
    requestId pendingRequests eventHandlers reconnectTimer pingInterval lastPong
    connectionAttempts maxReconnectAttempts challengeNonce deviceId connectPromise
    browser this sockets promises timers nextTimer localStorage microtasks clock log].

Ltac unfold_setters_all :=
  lazy beta iota delta [set_ws set_config set_connected set_requestId
    set_pendingRequests set_eventHandlers set_reconnectTimer set_pingInterval
    set_lastPong set_connectionAttempts set_maxReconnectAttempts set_challengeNonce
    set_deviceId set_connectPromise set_this set_sockets set_promises set_timers
    set_nextTimer set_localStorage set_microtasks set_clock set_log ws config connected
    requestId pendingRequests eventHandlers reconnectTimer pingInterval lastPong
    connectionAttempts maxReconnectAttempts challengeNonce deviceId connectPromise
    browser this sockets promises timers nextTimer localStorage microtasks clock log] in *.

(** Runs a task on an explicit world, as far as the world is known. *)
Ltac mexec :=
  repeat (progress (
    lazy beta iota zeta delta [mbind M_bind mret M_ret throw try_catch gets modify
      getThis setThis tell console_error when exec Date_now fst snd task socketEvent
      runTimer microtaskCheckpoint reconnectFailed newPromise allocPromise
      reconnectTimeout scheduleReconnect disconnect onerror onclose onmessage onopen
      connectionTimeout handleMessage handleResponse startPing pingTick stopPing
      requestTimeout sendConnectRequest send connect pendingDelete pendingGet callReject
      callResolve nextId getDeviceId getWsUrl configure off on callHandler
      installHandlers getItem setItem wsSend wsClose wsReadyState setReadyState
      clearTimer setInterval setTimeout armTimer catch_reconnect settle
      newWebSocket readyState s_closures state reactions set_ws set_config set_connected
      set_requestId set_pendingRequests set_eventHandlers set_reconnectTimer
      set_pingInterval set_lastPong set_connectionAttempts set_maxReconnectAttempts
      set_challengeNonce set_deviceId set_connectPromise set_this set_sockets
      set_promises set_timers set_nextTimer set_localStorage set_microtasks set_clock
      set_log ws config connected requestId pendingRequests eventHandlers reconnectTimer
      pingInterval lastPong connectionAttempts maxReconnectAttempts challengeNonce
      deviceId connectPromise browser this sockets promises timers nextTimer
      localStorage microtasks clock log];
    cbn [is_some truthy_string truthy_number negb andb orb fmap option_fmap option_map
      mbind option_bind default from_option id])).

(** Names the fields of a world, so that tasks can run on it. *)
Ltac destruct_world w :=
  destruct w as [? [] ? ? ? ? ? ? ? ?];
  cbn [ws config connected requestId pendingRequests eventHandlers reconnectTimer
    pingInterval lastPong connectionAttempts maxReconnectAttempts challengeNonce
    deviceId connectPromise browser this sockets promises timers nextTimer localStorage
    microtasks clock log] in *.

(** Reads the fields of updated worlds. *)
Ltac wsimpl :=
  cbn [set_ws set_config set_connected set_requestId set_pendingRequests
    set_eventHandlers set_reconnectTimer set_pingInterval set_lastPong
    set_connectionAttempts set_maxReconnectAttempts set_challengeNonce set_deviceId
    set_connectPromise set_this set_sockets set_promises set_timers set_nextTimer
    set_localStorage set_microtasks set_clock set_log ws config connected requestId
    pendingRequests eventHandlers reconnectTimer pingInterval lastPong
    connectionAttempts maxReconnectAttempts challengeNonce deviceId connectPromise
    browser this sockets promises timers nextTimer localStorage microtasks clock log].

Ltac wsimpl_all :=
  cbn [set_ws set_config set_connected set_requestId set_pendingRequests
    set_eventHandlers set_reconnectTimer set_pingInterval set_lastPong
    set_connectionAttempts set_maxReconnectAttempts set_challengeNonce set_deviceId
    set_connectPromise set_this set_sockets set_promises set_timers set_nextTimer
    set_localStorage set_microtasks set_clock set_log ws config connected requestId
    pendingRequests eventHandlers reconnectTimer pingInterval lastPong
    connectionAttempts maxReconnectAttempts challengeNonce deviceId connectPromise
    browser this sockets promises timers nextTimer localStorage microtasks clock log] in
    *.

(** ** The event dispatcher *)

Lemma set_log_id w : set_log (log w) w = w.
Proof. by destruct w. Qed.

Lemma forEach_logs {A} (f : A → M unit) (lg : A → list Effect) l w :
  (∀ x w', browser w' = browser w →
     f x w' = (inr (), set_log (log w' ++ lg x) w')) →
  forEach l f w = (inr (), set_log (log w ++ l ≫= lg) w).
Proof.
  intros Hf. revert w Hf. induction l as [|x l IH]; intros w Hf.
  - cbn. by rewrite app_nil_r, set_log_id.
  - cbn [forEach]. unfold mbind at 1, M_bind at 1. rewrite Hf by done.
    rewrite IH by (intros; apply Hf; cbn in *; congruence). cbn.
    by rewrite <- app_assoc.
Qed.

Lemma guarded_call msg arg h w :
  try_catch (callHandler h arg) (λ e, console_error msg) w
  = (inr (), set_log (log w ++ handler_log (browser w) msg arg h) w).
Proof.
  unfold callHandler, handler_log. mred.
  destruct (handler_throws (browser w) h arg); mred; by rewrite <- ?app_assoc.
Qed.

Lemma forEach_handlers msg arg hs w :
  forEach hs (λ handler,
    try_catch (callHandler handler arg) (λ e, console_error msg)) w
  = (inr (), set_log (log w ++ dispatch_log (browser w) msg arg hs) w).
Proof. apply forEach_logs. intros x w' <-. apply guarded_call. Qed.

Lemma emit_spec event data w :
  emit event data w =
    (inr (), set_log (log w ++ emit_log (browser w) (eventHandlers (this w)) event data) w).
Proof.
  unfold emit, emit_log, mbind, M_bind, getThis, gets.
  destruct (eventHandlers (this w) !! event) as [hs|] eqn:Hhs;
    destruct (eventHandlers (this w) !! "*") as [ws|] eqn:Hws; cbn;
    rewrite ?forEach_handlers; cbn; rewrite ?Hws; rewrite ?forEach_handlers; cbn;
    rewrite ?app_nil_r, <- ?app_assoc, ?set_log_id; done.
Qed.

Lemma invocations_app l1 l2 : invocations (l1 ++ l2) = invocations l1 ++ invocations l2.
Proof. apply omap_app. Qed.

Lemma invocations_dispatch b msg arg hs :
  invocations (dispatch_log b msg arg hs) = (λ h, (h, arg)) <$> hs.
Proof.
  induction hs as [|h hs IH]; [done|].
  unfold dispatch_log in *. cbn. rewrite invocations_app, IH.
  unfold handler_log. by destruct (handler_throws b h arg).
Qed.

Lemma invocations_emit b table event data :
  invocations (emit_log b table event data) =
    ((λ h, (h, Plain data)) <$> default [] (table !! event)) ++
    ((λ h, (h, Wild event data)) <$> default [] (table !! "*")).
Proof. unfold emit_log. by rewrite invocations_app, !invocations_dispatch. Qed.

Lemma armed_dispatch b msg arg hs : armed (dispatch_log b msg arg hs) = [].
Proof.
  unfold dispatch_log, armed. induction hs as [|h hs IH]; [done|].
  cbn. rewrite omap_app, IH. unfold handler_log. by destruct (handler_throws b h arg).
Qed.

Lemma armed_app l1 l2 : armed (l1 ++ l2) = armed l1 ++ armed l2.
Proof. apply omap_app. Qed.

Lemma armed_emit b table event data : armed (emit_log b table event data) = [].
Proof. unfold emit_log. by rewrite armed_app, !armed_dispatch. Qed.

Lemma opened_app l1 l2 : opened (l1 ++ l2) = opened l1 ++ opened l2.
Proof. apply omap_app. Qed.

Lemma opened_dispatch b msg arg hs : opened (dispatch_log b msg arg hs) = [].
Proof.
  unfold dispatch_log, opened. induction hs as [|h hs IH]; [done|].
  cbn. rewrite omap_app, IH. unfold handler_log. by destruct (handler_throws b h arg).
Qed.

Lemma opened_emit b table event data : opened (emit_log b table event data) = [].
Proof. unfold emit_log. by rewrite opened_app, !opened_dispatch. Qed.

(** C9.  [emit] never throws and changes nothing but the log, to which it adds
    one invocation of every handler of the topic, in the order of the topic's
    handler set, followed by one invocation of every wildcard handler with
    the [{event, data}] object, whichever of the handlers throw; and the
    order of a topic's handler set is the order of registration: [on] puts a
    handler that is not yet registered behind all registered ones and leaves
    the set as it is otherwise. *)
Theorem emit_invokes_every_handler :
  (∀ event data w, ∃ l,
     emit event data w = (inr (), set_log (log w ++ l) w) ∧
     invocations l =
       ((λ h, (h, Plain data)) <$> default [] (eventHandlers (this w) !! event)) ++
       ((λ h, (h, Wild event data)) <$> default [] (eventHandlers (this w) !! "*"))) ∧
  (∀ event h w,
     let before := default [] (eventHandlers (this w) !! event) in
     on event h w = (inr (), exec (on event h) w) ∧
     eventHandlers (this (exec (on event h) w)) !! event
     = Some (if bool_decide (h ∈ before) then before else before ++ [h])).
Proof.
  split.
  - intros event data w. exists (emit_log (browser w) (eventHandlers (this w)) event data).
    split; [apply emit_spec|apply invocations_emit].
  - intros event h w. cbn. by rewrite lookup_insert_eq.
Qed.

(** ** Counting settlements *)

Lemma settlements_app p l1 l2 :
  settlements p (l1 ++ l2) = (settlements p l1 + settlements p l2)%nat.
Proof. unfold settlements. by rewrite filter_app, length_app. Qed.

Lemma settlements_snoc p l e :
  settlements p (l ++ [e]) = (settlements p l + if settles p e then 1 else 0)%nat.
Proof.
  rewrite settlements_app. f_equal. unfold settlements.
  rewrite filter_cons, filter_nil. destruct (settles p e); by case_decide.
Qed.

Lemma settlements_elem_of p l e :
  e ∈ l → settles p e = true → (0 < settlements p l)%nat.
Proof.
  intros He Hp. unfold settlements.
  assert (e ∈ filter (λ e, settles p e = true) l) as Hin by (by apply list_elem_of_filter).
  destruct (filter _ l); [by apply elem_of_nil in Hin|cbn; lia].
Qed.

Lemma settlements_dispatch p b msg arg hs : settlements p (dispatch_log b msg arg hs) = 0%nat.
Proof.
  unfold dispatch_log. induction hs as [|h hs IH]; [done|].
  cbn [mbind list_bind]. rewrite settlements_app, IH. unfold handler_log.
  by destruct (handler_throws b h arg).
Qed.

Lemma settlements_emit p b table event data :
  settlements p (emit_log b table event data) = 0%nat.
Proof. unfold emit_log. by rewrite settlements_app, !settlements_dispatch. Qed.


(** ** Promises *)

Lemma resolve_spec p v w : resolve p v w = (inr (), resolved p v w).
Proof.
  destruct_world w. unfold resolve, resolved, settled. mexec.
  destruct (promises0 !! p) as [[[] ?]|]; reflexivity.
Qed.

Lemma reject_spec p e w : reject p e w = (inr (), rejected p e w).
Proof.
  destruct_world w. unfold reject, rejected, settled, queued. mexec.
  destruct (promises0 !! p) as [[[] ?]|]; mexec; by rewrite ?Nat.add_0_r.
Qed.

Lemma settled_length p st proms : length (settled p st proms) = length proms.
Proof.
  unfold settled. destruct (proms !! p) as [[[] ?]|]; cbn; by rewrite ?length_insert.
Qed.

Lemma settled_lookup_ne p q st proms : p ≠ q → settled p st proms !! q = proms !! q.
Proof.
  intros. unfold settled.
  destruct (proms !! p) as [[[] ?]|]; cbn; by rewrite ?list_lookup_insert_ne.
Qed.



(** Runs a task on an explicit world, through the handlers it calls and the
    promises it settles. *)
Ltac mrun :=
  repeat (mexec; rewrite ?emit_spec, ?resolve_spec, ?reject_spec); mexec.

(** ** Rules for tasks *)

Lemma hoare_ret {A} P (a : A) (Q : A → World → Prop) E :
  (∀ w, P w → Q a w) → hoare P (mret a) Q E.
Proof. intros H w Hw. by apply H. Qed.

Lemma hoare_throw {A} P e (Q : A → World → Prop) (E : World → Prop) :
  (∀ w, P w → E w) → hoare P (throw e) Q E.
Proof. intros H w Hw. by apply H. Qed.

Lemma hoare_gets {A} P (f : World → A) (Q : A → World → Prop) E :
  (∀ w, P w → Q (f w) w) → hoare P (gets f) Q E.
Proof. intros H w Hw. by apply H. Qed.

Lemma hoare_modify P f (Q : unit → World → Prop) E :
  (∀ w, P w → Q () (f w)) → hoare P (modify f) Q E.
Proof. intros H w Hw. by apply H. Qed.

Lemma hoare_bind {A B} P (m : M A) (k : A → M B) Q' Q E :
  hoare P m Q' E → (∀ a, hoare (Q' a) (k a) Q E) → hoare P (m ≫= k) Q E.
Proof.
  intros Hm Hk w Hw. specialize (Hm w Hw). unfold mbind, M_bind.
  destruct (m w) as [[e|a] w']; [done|]. by apply Hk.
Qed.

Lemma hoare_try_catch {A} P (m : M A) h Q E' E :
  hoare P m Q E' → (∀ e, hoare E' (h e) Q E) → hoare P (try_catch m h) Q E.
Proof.
  intros Hm Hh w Hw. specialize (Hm w Hw). unfold try_catch.
  destruct (m w) as [[e|a] w']; [by apply Hh|done].
Qed.

Lemma hoare_conseq {A} (P P' : World → Prop) (m : M A) (Q Q' : A → World → Prop)
    (E E' : World → Prop) :
  hoare P' m Q' E' → (∀ w, P w → P' w) → (∀ a w, Q' a w → Q a w) →
  (∀ w, E' w → E w) → hoare P m Q E.
Proof.
  intros Hm HP HQ HE w Hw. specialize (Hm w (HP w Hw)).
  destruct (m w) as [[e|a] w']; auto.
Qed.

Lemma hoare_exec {A} P (m : M A) Q w : hoare P m (λ _, Q) Q → P w → Q (exec m w).
Proof. intros Hm Hw. specialize (Hm w Hw). unfold exec. by destruct (m w) as [[?|?] ?]. Qed.

Lemma preserves_ret {A} P (a : A) : preserves P (mret a).
Proof. by intros w Hw. Qed.

Lemma preserves_throw {A} P e : preserves P (throw (A:=A) e).
Proof. by intros w Hw. Qed.

Lemma preserves_gets {A} P (f : World → A) : preserves P (gets f).
Proof. by intros w Hw. Qed.

Lemma preserves_bind {A B} P (m : M A) (k : A → M B) :
  preserves P m → (∀ a, preserves P (k a)) → preserves P (m ≫= k).
Proof. intros. by eapply hoare_bind. Qed.

(** What [P] says of the world a value is read in may be used for what runs
    next. *)
Lemma preserves_bind_read {A B} P (f : World → A) (k : A → M B) :
  (∀ a, (∃ w, P w ∧ a = f w) → preserves P (k a)) → preserves P (gets f ≫= k).
Proof.
  intros H w Hw. unfold mbind, M_bind, gets. apply (H (f w)); eauto.
Qed.

Lemma preserves_try_catch {A} P (m : M A) h :
  preserves P m → (∀ e, preserves P (h e)) → preserves P (try_catch m h).
Proof. intros. by eapply hoare_try_catch. Qed.

Lemma preserves_modify P f : (∀ w, P w → P (f w)) → preserves P (modify f).
Proof. intros H w Hw. by apply H. Qed.

Lemma preserves_forEach {A} P (l : list A) f :
  (∀ x, preserves P (f x)) → preserves P (forEach l f).
Proof.
  intros Hf. induction l as [|x l IH]; [apply preserves_ret|].
  cbn [forEach]. apply preserves_bind; auto.
Qed.

Lemma preserves_exec {A} P (m : M A) w : preserves P m → P w → P (exec m w).
Proof. apply hoare_exec. Qed.

(** [emit] keeps every property that does not depend on the log. *)
Lemma preserves_emit P event data :
  (∀ w, P w →
     P (set_log (log w ++ emit_log (browser w) (eventHandlers (this w)) event data) w)) →
  preserves P (emit event data).
Proof. intros H w Hw. rewrite emit_spec. by apply H. Qed.

Create HintDb pres.

(** What a property lets one conclude from the values that were read. *)
Ltac pres_hook := idtac.

(** Splits a [preserves] goal along the structure of the task, down to the
    primitive updates of the world. *)
Ltac pres_step :=
  lazymatch goal with
  | |- preserves _ (mret _) => apply preserves_ret
  | |- preserves _ (throw _) => apply preserves_throw
  | |- preserves _ (gets _) => apply preserves_gets
  | |- preserves _ (getThis _) => apply preserves_gets
  | |- preserves _ Date_now => apply preserves_gets
  | |- preserves _ (gets _ ≫= _) => apply preserves_bind_read; intros ? ?
  | |- preserves _ (getThis _ ≫= _) => apply preserves_bind_read; intros ? ?
  | |- preserves _ (_ ≫= _) => apply preserves_bind; [|intros ?]
  | |- preserves _ (try_catch _ _) => apply preserves_try_catch; [|intros ?]
  | |- preserves _ (forEach _ _) => apply preserves_forEach; intros ?
  | |- preserves _ (modify _) => apply preserves_modify; intros ? ?
  | |- preserves _ (setThis _) => apply preserves_modify; intros ? ?
  | |- preserves _ (tell _) => apply preserves_modify; intros ? ?
  | |- preserves _ (console_error _) => apply preserves_modify; intros ? ?
  | |- preserves _ (emit _ _) => apply preserves_emit; intros ? ?
  | |- preserves _ (when ?b _) => destruct b; cbn [when]
  | |- preserves _ (match ?x with _ => _ end) => destruct x; pres_hook
  | |- preserves _ (let _ := _ in _) => cbv zeta
  end.

Ltac pres := repeat first [ solve [eauto with pres] | pres_step ].

(** ** Reachable worlds *)

Lemma step_preserves P now ev w :
  (∀ w, P w → P (set_clock now w)) →
  preserves P (task ev) → preserves P microtaskCheckpoint →
  P w → P (step now ev w).
Proof.
  intros Hclock Htask Hmicro Hw. unfold step.
  apply preserves_exec; [done|]. apply preserves_exec; [done|]. by apply Hclock.
Qed.

Lemma run_preserves P evs w :
  (∀ now ev w, P w → P (step now ev w)) → P w → P (run evs w).
Proof.
  intros Hstep. revert w.
  induction evs as [|[now ev] evs IH]; intros w Hw; cbn; auto.
Qed.


Lemma reachable_ind (P : World → Prop) :
  (∀ b stored, P (init b stored)) →
  (∀ now ev w, P w → P (step now ev w)) →
  ∀ w, reachable w → P w.
Proof. intros Hinit Hstep w (b & stored & evs & ->). by apply run_preserves. Qed.


(** ** The transport handle *)

Ltac handle_valid_leaf :=
  repeat match goal with
         | |- handle_valid (set_this (match ?x with _ => _ end) _) => destruct x
         end;
  match goal with
  | H : handle_valid _ |- handle_valid _ =>
      let k := fresh "k" in let Hk := fresh "Hk" in
      intros k Hk; cbn in Hk |- *;
      rewrite ?length_alter, ?length_app, ?length_insert;
      (discriminate || (apply H in Hk; cbn; lia))
  end.

Lemma handle_valid_open url p :
  preserves handle_valid
    (k ← newWebSocket url;
     setThis (set_ws (Some k));;
     timeout ← setTimeout (ConnectionTimeout p) 10000;
     installHandlers k timeout p).
Proof.
  (* the socket just created becomes the handle *)
  eapply hoare_bind with (Q' := λ k w, handle_valid w ∧ (k < length (sockets w))%nat).
  { unfold newWebSocket. eapply hoare_bind with (Q' := λ _, handle_valid).
    { by apply hoare_gets. }
    intros [|]; [|by apply hoare_throw].
    eapply hoare_bind with (Q' := λ k w, handle_valid w ∧ k = length (sockets w)).
    { by apply hoare_gets. }
    intros k.
    eapply hoare_bind with (Q' := λ _ w, handle_valid w ∧ (k < length (sockets w))%nat).
    { apply hoare_modify. intros w [Hw ->]. split.
      - intros k Hk. cbn in *. rewrite length_app. apply Hw in Hk. lia.
      - cbn. rewrite length_app. cbn. lia. }
    intros _.
    eapply hoare_bind with (Q' := λ _ w, handle_valid w ∧ (k < length (sockets w))%nat).
    { apply hoare_modify. by intros w [Hw ?]. }
    intros _. apply hoare_ret. tauto. }
  intros k. eapply hoare_bind with (Q' := λ _, handle_valid).
  { apply hoare_modify. intros w [Hw Hk] k' [= <-]. done. }
  intros _. change (preserves handle_valid
    (timeout ← setTimeout (ConnectionTimeout p) 10000; installHandlers k timeout p)).
  unfold_ops. pres; handle_valid_leaf.
Qed.

Lemma handle_valid_connect : preserves handle_valid connect.
Proof.
  pose proof handle_valid_open.
  unfold connect, newPromise, allocPromise, getWsUrl. pres;
    try handle_valid_leaf; unfold reject; pres; handle_valid_leaf.
Qed.

Lemma handle_valid_send method params : preserves handle_valid (send method params).
Proof. unfold send. unfold_ops. pres; handle_valid_leaf. Qed.

Lemma handle_valid_step now ev w : handle_valid w → handle_valid (step now ev w).
Proof.
  pose proof handle_valid_connect. pose proof handle_valid_send.
  apply step_preserves; [done|..].
  - destruct ev; unfold_ops; pres; handle_valid_leaf.
  - unfold_ops. pres; handle_valid_leaf.
Qed.

Lemma reachable_handle_valid w : reachable w → handle_valid w.
Proof.
  revert w. apply reachable_ind; [by intros b stored k|]. apply handle_valid_step.
Qed.

(** C8, as amended.  In every reachable world the handle the client holds, if
    any, names one of its sockets; [getConnectionState] reports
    ['disconnected'] exactly when the client holds no handle or the socket it
    holds is closed, and one of ['connecting'], ['authenticating'],
    ['connected'] and ['closing'] otherwise.  So a client without a handle is
    always reported disconnected, while a handle may be held in the
    disconnected state: that of a socket that has closed. *)
Theorem disconnected_iff_no_open_handle w :
  reachable w →
  (ws (this w) = None → getConnectionState w = "disconnected") ∧
  (getConnectionState w = "disconnected" ↔
     ws (this w) = None ∨
     ∃ k s, ws (this w) = Some k ∧ sockets w !! k = Some s ∧ readyState s = CLOSED) ∧
  (getConnectionState w ≠ "disconnected" →
     (∃ k s, ws (this w) = Some k ∧ sockets w !! k = Some s ∧ readyState s ≠ CLOSED) ∧
     getConnectionState w ∈ ["connecting"; "authenticating"; "connected"; "closing"]).
Proof.
  intros Hw%reachable_handle_valid. unfold getConnectionState.
  destruct (ws (this w)) as [k|] eqn:Hk.
  - destruct (lookup_lt_is_Some_2 (sockets w) k (Hw k Hk)) as [s Hs]. rewrite Hs. cbn.
    split; [done|]. split.
    + split.
      * intros Hst. right. exists k, s. split_and!; [done..|].
        by destruct (readyState s), (connected (this w)).
      * intros [?|(k' & s' & [= <-] & ? & Hc)]; [done|]. simplify_eq. by rewrite Hc.
    + intros Hst. split.
      * exists k, s. split_and!; [done..|]. intros Hc. by rewrite Hc in Hst.
      * destruct (readyState s), (connected (this w)); set_solver.
  - split; [done|]. split; [|done]. split; [by left|done].
Qed.

(** C8, counterexample.  After the socket of a connection attempt has closed
    on its own, the client is reported disconnected and still holds the
    handle of that socket. *)
Lemma closed_socket_handle_is_kept :
  ¬ (∀ w, reachable w →
       (is_Some (ws (this w)) ↔ getConnectionState w ≠ "disconnected")).
Proof.
  intros Hclaim.
  pose (w := run [(0, CallConfigure gateway_config); (1000, CallConnect);
                  (1500, SocketClose 0%nat 1006 "")] (init plain_browser ∅)).
  destruct (Hclaim w) as [Hstate _].
  { by exists plain_browser, ∅, [(0, CallConfigure gateway_config); (1000, CallConnect);
                  (1500, SocketClose 0%nat 1006 "")]. }
  apply Hstate; [|by vm_compute]. by exists 0%nat.
Qed.

(** C8, instance: the authenticated session of [handshake] holds socket 0,
    which is open, and is reported connected. *)
Lemma disconnected_iff_no_open_handle_witness :
  reachable (run handshake (init plain_browser ∅)) ∧
  getConnectionState (run handshake (init plain_browser ∅))
    ∈ ["connecting"; "authenticating"; "connected"; "closing"].
Proof.
  assert (Hreach : reachable (run handshake (init plain_browser ∅)))
    by (by exists plain_browser, ∅, handshake).
  split; [exact Hreach|].
  destruct (disconnected_iff_no_open_handle _ Hreach) as (_ & _ & Hstate).
  apply Hstate. by vm_compute.
Defined.

(** ** Disconnecting *)

Lemma disconnect_spec w : disconnect w = (inr (), disconnected w).
Proof.
  destruct w as [b [k cfg conn rid pend hs rt pt lp att mx nonce dev cp]
                   socks proms tms nt st mt clk lg].
  unfold disconnected, closing, cancel, cleared.
  destruct pt as [pt|], rt as [rt|], k as [k|];
    try (destruct (socks !! k) as [[[] ?]|] eqn:Hk);
    mexec; rewrite ?Hk; mexec;
    rewrite <- ?app_assoc, ?app_nil_r; reflexivity.
Qed.

Lemma disconnected_idempotent w : disconnected (disconnected w) = disconnected w.
Proof.
  destruct w as [b c socks proms tms nt st mt clk lg].
  unfold disconnected. unfold_setters. cbn [cancel cleared]. by rewrite !app_nil_r.
Qed.

(** C3, as amended.  [disconnect] never throws, in any world.  It clears the
    heartbeat interval and the reconnect timer, closes the socket it holds
    with code 1000 and drops the handle, resets the attempt counter, forgets
    the connect promise and empties [pendingRequests]; nothing else happens:
    no handler is invoked and no promise is settled, so the requests that
    were pending are dropped without being rejected.  The client is then
    reported disconnected, and a second [disconnect] changes nothing and has
    no effect at all. *)
Theorem disconnect_always_succeeds w :
  ∃ w',
    disconnect w = (inr (), w') ∧
    log w' = log w ++ cleared (pingInterval (this w)) ++ cleared (reconnectTimer (this w)) ++
             match ws (this w) with
             | Some k => [EWsClose k (Some 1000) (Some "User disconnect")]
             | None => []
             end ∧
    timers w' = cancel (reconnectTimer (this w)) (cancel (pingInterval (this w)) (timers w)) ∧
    this w' =
      set_pendingRequests ∅ (set_connectPromise None (set_connected false (set_ws None
        (set_reconnectTimer None (set_connectionAttempts 0%nat
          (set_pingInterval None (this w))))))) ∧
    promises w' = promises w ∧
    microtasks w' = microtasks w ∧
    getConnectionState w' = "disconnected" ∧
    isConnected w' = false ∧
    disconnect w' = (inr (), w').
Proof.
  exists (disconnected w). split; [apply disconnect_spec|].
  do 7 (split; [reflexivity|]).
  by rewrite disconnect_spec, disconnected_idempotent.
Qed.

(** C3, counterexample.  A request is pending in an authenticated session;
    [disconnect] removes its entry and never calls its [reject]: the promise
    stays pending. *)
Lemma disconnect_rejects_no_request :
  ¬ (∀ w id p, reachable w →
       pendingRequests (this w) !! id = Some (PromiseCallbacks p) →
       ∃ e, EReject p e ∈ log (exec disconnect w)).
Proof.
  intros Hclaim.
  pose (evs := handshake ++ [(2000, CallSend "cron.list" "{}")]).
  destruct (Hclaim (run evs (init plain_browser ∅)) "req_2_2000" 1%nat) as [e He].
  { by exists plain_browser, ∅, evs. }
  { by vm_compute. }
  apply settlements_elem_of with (p := 1%nat) in He; [|cbn; by case_bool_decide].
  revert He. assert (settlements 1 (log (exec disconnect (run evs (init plain_browser ∅))))
                     = 0%nat) as -> by (by vm_compute). lia.
Qed.

(** ** Reconnection *)

Lemma scheduleReconnect_armed w t :
  reconnectTimer (this w) = Some t → scheduleReconnect w = (inr (), w).
Proof. intros H. unfold scheduleReconnect. mred. by rewrite H. Qed.

Lemma scheduleReconnect_exhausted w :
  reconnectTimer (this w) = None →
  (maxReconnectAttempts (this w) ≤ connectionAttempts (this w))%nat →
  scheduleReconnect w =
    (inr (),
     set_log ((log w ++ [EConsoleError "[Gateway] Max reconnection attempts reached"]) ++
              emit_log (browser w) (eventHandlers (this w)) "max_reconnects" DUndefined) w).
Proof.
  intros H Hmax. unfold scheduleReconnect. mred. rewrite H. cbn.
  apply Nat.leb_le in Hmax. rewrite Hmax. by rewrite emit_spec.
Qed.

Lemma scheduleReconnect_arms w :
  reconnectTimer (this w) = None →
  (connectionAttempts (this w) < maxReconnectAttempts (this w))%nat →
  scheduleReconnect w =
    (inr (),
     set_this (set_reconnectTimer (Some (nextTimer w)) (this w))
       (set_log (log w ++ [ESetTimeout (nextTimer w)
                             (reconnectDelay (connectionAttempts (this w)))])
          (set_nextTimer (S (nextTimer w))
             (set_timers (<[nextTimer w := ReconnectTimeout]> (timers w)) w)))).
Proof.
  intros H Hlt. unfold scheduleReconnect, setTimeout, armTimer. mred. rewrite H. cbn.
  apply Nat.leb_gt in Hlt. by rewrite Hlt.
Qed.

(** C4.  The delay of the reconnect timer is [min(1000 * 2^n, 30000)] ms for
    attempt counter [n]: 1000, 2000, 4000, 8000 and 16000 ms for the counters
    0 to 4 and 30000 ms from 5 on; and it is with this delay that
    [scheduleReconnect] arms the timer when it arms one. *)
Theorem reconnect_delay_capped_backoff :
  (∀ n, reconnectDelay n = Z.min (1000 * 2 ^ Z.of_nat n) 30000) ∧
  (reconnectDelay 0 = 1000 ∧ reconnectDelay 1 = 2000 ∧ reconnectDelay 2 = 4000 ∧
   reconnectDelay 3 = 8000 ∧ reconnectDelay 4 = 16000) ∧
  (∀ n, (5 ≤ n)%nat → reconnectDelay n = 30000) ∧
  (∀ w, reconnectTimer (this w) = None →
     (connectionAttempts (this w) < maxReconnectAttempts (this w))%nat →
     let n := connectionAttempts (this w) in
     log (exec scheduleReconnect w)
       = log w ++ [ESetTimeout (nextTimer w) (Z.min (1000 * 2 ^ Z.of_nat n) 30000)] ∧
     timers (exec scheduleReconnect w) !! nextTimer w = Some ReconnectTimeout ∧
     reconnectTimer (this (exec scheduleReconnect w)) = Some (nextTimer w)).
Proof.
  split; [done|]. split; [done|]. split.
  - intros n Hn. unfold reconnectDelay.
    assert (2 ^ 5 ≤ 2 ^ Z.of_nat n) by (apply Z.pow_le_mono_r; lia).
    change (2 ^ 5) with 32 in *. lia.
  - intros w H Hlt n. unfold exec. rewrite scheduleReconnect_arms by done. cbn.
    by rewrite lookup_insert_eq.
Qed.

(** C4, instance: a client that has made six attempts out of a maximum of
    seven waits 30 s; a fresh one waits 1 s. *)
Lemma reconnect_delay_capped_backoff_witness :
  reconnectDelay 6 = 30000 ∧
  log (exec scheduleReconnect (init plain_browser ∅))
    = [ESetTimeout 1 (Z.min (1000 * 2 ^ Z.of_nat 0) 30000)].
Proof.
  destruct reconnect_delay_capped_backoff as (_ & _ & Hcap & Harm). split.
  - apply (Hcap 6%nat). lia.
  - apply (Harm (init plain_browser ∅)); [reflexivity|cbn; lia].
Defined.

(** ** Connecting *)

Lemma connect_inflight w p :
  connectPromise (this w) = Some p → connect w = (inr p, w).
Proof. intros H. unfold connect. mred. by rewrite H. Qed.

Lemma connect_fresh w :
  connectPromise (this w) = None →
  let p := length (promises w) in
  ∃ w', connect w = (inr p, w') ∧
    connectPromise (this w') = Some p ∧
    connectionAttempts (this w') = S (connectionAttempts (this w)) ∧
    maxReconnectAttempts (this w') = maxReconnectAttempts (this w) ∧
    reconnectTimer (this w') = reconnectTimer (this w).
Proof.
  intros H p. destruct_world w. subst. subst p. unfold connect. mrun.
  destruct (url_valid _ _); mrun; by eexists.
Qed.

(** C5, as amended.  Once the attempt counter has reached the maximum,
    [scheduleReconnect] arms no timer: with no reconnect timer pending it
    invokes every handler of ['max_reconnects'] exactly once and changes
    nothing else, and with one pending it does nothing at all.  An explicit
    [connect] does not reset the counter: a call that starts an attempt
    increments it, so that the maximum stays reached; the counter is reset
    by [disconnect] (and by a hello-ok response). *)
Theorem max_reconnects_is_terminal w :
  (maxReconnectAttempts (this w) ≤ connectionAttempts (this w))%nat →
  (reconnectTimer (this w) = None →
     ∃ l, scheduleReconnect w =
            (inr (), set_log (log w ++
               EConsoleError "[Gateway] Max reconnection attempts reached" :: l) w) ∧
          armed l = [] ∧
          invocations l =
            ((λ h, (h, Plain DUndefined)) <$>
               default [] (eventHandlers (this w) !! "max_reconnects")) ++
            ((λ h, (h, Wild "max_reconnects" DUndefined)) <$>
               default [] (eventHandlers (this w) !! "*"))) ∧
  (∀ t, reconnectTimer (this w) = Some t → scheduleReconnect w = (inr (), w)) ∧
  (connectPromise (this w) = None →
     connectionAttempts (this (exec connect w)) = S (connectionAttempts (this w))) ∧
  (maxReconnectAttempts (this (exec connect w))
     ≤ connectionAttempts (this (exec connect w)))%nat ∧
  connectionAttempts (this (exec disconnect w)) = 0%nat.
Proof.
  intros Hmax. split_and!.
  - intros Hnone.
    exists (emit_log (browser w) (eventHandlers (this w)) "max_reconnects" DUndefined).
    rewrite scheduleReconnect_exhausted by done. split_and!.
    + by rewrite <- app_assoc.
    + apply armed_emit.
    + apply invocations_emit.
  - apply scheduleReconnect_armed.
  - intros Hnone. destruct (connect_fresh w Hnone) as (w' & Hw' & _ & Hatt & _).
    unfold exec. by rewrite Hw'.
  - destruct (connectPromise (this w)) as [p|] eqn:Hp.
    + unfold exec. by rewrite (connect_inflight w p).
    + destruct (connect_fresh w Hp) as (w' & Hw' & _ & Hatt & Hm & _).
      unfold exec. rewrite Hw'. cbn. lia.
  - unfold exec. by rewrite disconnect_spec.
Qed.

(** C5, instance: after five failed attempts of a client whose maximum is
    five. *)
Lemma max_reconnects_is_terminal_witness :
  (maxReconnectAttempts (this exhausted_world)
     ≤ connectionAttempts (this exhausted_world))%nat ∧
  (maxReconnectAttempts (this (exec connect exhausted_world))
     ≤ connectionAttempts (this (exec connect exhausted_world)))%nat ∧
  connectionAttempts (this (exec disconnect exhausted_world)) = 0%nat.
Proof.
  assert (Hmax : (maxReconnectAttempts (this exhausted_world)
                    ≤ connectionAttempts (this exhausted_world))%nat)
    by (vm_compute; lia).
  split; [exact Hmax|].
  destruct (max_reconnects_is_terminal exhausted_world Hmax) as (_ & _ & _ & Hkeep & Hreset).
  split; [exact Hkeep|exact Hreset].
Defined.

(** C5, counterexample.  After five failed attempts the maximum is reached;
    an explicit [connect] then raises the counter to six instead of
    resetting it. *)
Lemma explicit_connect_does_not_reset_attempts :
  ¬ (∀ w, reachable w →
       (maxReconnectAttempts (this w) ≤ connectionAttempts (this w))%nat →
       connectionAttempts (this (exec connect w)) = 0%nat).
Proof.
  intros Hclaim. specialize (Hclaim exhausted_world).
  assert (connectionAttempts (this (exec connect exhausted_world)) = 6%nat) as Hsix
    by (by vm_compute).
  rewrite Hsix in Hclaim. discriminate Hclaim.
  - by exists plain_browser, ∅, five_failures.
  - vm_compute. lia.
Qed.

(** ** Heartbeat *)










(** ** Responses *)






Lemma handleMessage_error id payload error connect w :
  payload ≫= p_type ≠ Some "hello-ok" → is_some error = true →
  handleMessage (FRes id false payload error) connect w =
    (inr (),
     let e := Error (connect_error_message error) in
     let w1 := set_log (log w ++ [EConsoleError "[Gateway] Connect error:"]) w in
     let w2 := match tracked id w with
               | Some cb => rejected_via cb e (forget id w1)
               | None => w1
               end in
     match connect with
     | Some p => rejected p e w2
     | None => w2
     end).
Proof.
  intros Hhello Herr. destruct_world w.
  unfold handleMessage, handleResponse, tracked, forget, rejected_via.
  fold (connect_error_message error).
  rewrite (bool_decide_eq_false_2 _ Hhello), Herr.
  destruct id as [id|]; [destruct (pendingRequests0 !! id) as [[|q]|] eqn:Hid|];
    destruct connect as [p|];
    repeat (mrun; cbn [mbind option_bind]; rewrite ?Hid); reflexivity.
Qed.

Lemma handleMessage_response id ok payload error connect cb w :
  payload ≫= p_type ≠ Some "hello-ok" → negb ok && is_some error = false →
  truthy_string id = true → tracked id w = Some cb →
  handleMessage (FRes id ok payload error) connect w =
    (inr (),
     if ok then resolved_via cb payload (forget id w)
     else rejected_via cb {| e_message := "Request failed"; e_code := None |} (forget id w)).
Proof.
  intros Hhello Herr Hid Hcb. destruct_world w.
  unfold handleMessage, handleResponse, forget, rejected_via, resolved_via, tracked in *.
  rewrite (bool_decide_eq_false_2 _ Hhello).
  destruct id as [id|]; [|done]. cbn in Hcb, Hid.
  destruct ok, error as [err|], cb as [|q]; try done;
    repeat (mrun; cbn [mbind option_bind]; rewrite ?Hid, ?Hcb); reflexivity.
Qed.

(** C6, at the failing input.  The client tracks request ["req_2_2000"] for
    promise 1 and receives [{type: 'res', id: 'req_2_2000', ok: false,
    error: {code: 'NOT_FOUND', message: 'no such job'}}].  The frame is taken
    by the connect-error branch: the promise is rejected with an error made
    of the message alone, and the same error is passed to the [reject] of the
    connect promise; the code of the frame is lost. *)
Theorem error_response_rejects_without_code :
  let w := set_clock 2100 (run request_pending (init plain_browser ∅)) in
  let e := {| e_message := "no such job"; e_code := None |} in
  let w' := exec (handleMessage not_found (Some 0%nat)) w in
  tracked (Some "req_2_2000") w = Some (PromiseCallbacks 1) ∧
  log w' = log w ++ [EConsoleError "[Gateway] Connect error:"; EReject 1 e; EReject 0 e] ∧
  state <$> promises w' !! 1%nat = Some (Rejected e) ∧
  tracked (Some "req_2_2000") w' = None.
Proof. by vm_compute. Qed.

(** C2, at the failing input.  After [connect(); disconnect(); connect()] the
    second attempt is in flight and a further [connect()] returns its
    promise.  Then the close event of the first socket arrives: its handler
    forgets the connect promise, although the second attempt is still
    outstanding (promise 1 is pending on socket 1, which is connecting).  The
    next [connect()] opens a third socket and returns a new promise. *)
Theorem stale_close_defeats_connect_guard :
  let w1 := run reconnected (init plain_browser ∅) in
  let w2 := run stale_close (init plain_browser ∅) in
  connect w1 = (inr 1%nat, w1) ∧
  state <$> promises w2 !! 1%nat = Some Pending ∧
  ws (this w2) = Some 1%nat ∧
  readyState <$> sockets w2 !! 1%nat = Some CONNECTING ∧
  connectPromise (this w2) = None ∧
  (connect w2).1 = inr 2%nat ∧
  opened (log (exec connect w2)) = [0; 1; 2]%nat ∧
  state <$> promises (exec connect w2) !! 1%nat = Some Pending ∧
  readyState <$> sockets (exec connect w2) !! 1%nat = Some CONNECTING.
Proof.
  cbv zeta. split; [|by vm_compute].
  apply connect_inflight. by vm_compute.
Qed.

(** ** Request identifiers *)

Lemma pretty_N_go_no_separator x s :
  no_separator s = true → no_separator (pretty_N_go x s) = true.
Proof.
  revert s. induction (N.lt_wf_0 x) as [x _ IH]; intros s Hs.
  assert (x = 0 ∨ 0 < x)%N as [->|?] by lia.
  - by rewrite pretty_N_go_0.
  - rewrite pretty_N_go_step by done. apply IH; [by apply N.div_lt|].
    cbn. rewrite Hs, andb_true_r. unfold pretty_N_char. by repeat case_match.
Qed.

Lemma pretty_nat_no_separator (n : nat) : no_separator (pretty n) = true.
Proof.
  unfold pretty, pretty_nat, pretty, pretty_N. case_decide; [done|].
  by apply pretty_N_go_no_separator.
Qed.

Lemma separator_unique a a' b b' :
  no_separator a = true → no_separator a' = true →
  a +:+ "_" +:+ b = a' +:+ "_" +:+ b' → a = a'.
Proof.
  revert a'. induction a as [|c a IH]; intros [|c' a'] Ha Ha' Heq; cbn in *.
  - done.
  - injection Heq as <- _. by rewrite andb_false_l in Ha'.
  - injection Heq as -> _. by rewrite andb_false_l in Ha.
  - injection Heq as -> Heq. f_equal.
    apply andb_true_iff in Ha as [_ Ha], Ha' as [_ Ha']. by apply IH.
Qed.

Lemma request_id_counter k t k' t' : request_id k t = request_id k' t' → k = k'.
Proof.
  unfold request_id. intros Heq. cbn in Heq.
  injection Heq as Heq. apply separator_unique in Heq; auto using pretty_nat_no_separator.
  by apply (inj pretty).
Qed.

Lemma issued_mono n n' id : issued n id → (n ≤ n')%nat → issued n' id.
Proof. intros (k & t & -> & ?) ?. exists k, t. split; [done|lia]. Qed.

Lemma issued_fresh n t : ¬ issued n (request_id (S n) t).
Proof. intros (k & t' & Heq%request_id_counter & ?). lia. Qed.

(** ** The correlator invariant: frame rules *)

Section Frame.

Context (C : PromiseId → Prop) (R : string → PromiseId → Prop).
Context (fr : option (string * PromiseId * nat)).

Lemma cinv_log pin w l :
  (∀ p, settlements p l = 0%nat) →
  cinv C R fr pin w → cinv C R fr pin (set_log (log w ++ l) w).
Proof.
  intros Hl ([] & Hfr & Hpin). split_and!; [split; wsimpl; intros; rewrite ?settlements_app, ?Hl, ?Nat.add_0_r; eauto|..].
  - destruct fr as [[[] ?]|]; cbn [frozen pinned] in *; wsimpl_all; [|done]. by rewrite settlements_app, Hl, Nat.add_0_r.
  - by destruct pin as [[]|]; cbn [frozen pinned] in *; wsimpl_all.
Qed.

Lemma cinv_this pin w c :
  pendingRequests c = pendingRequests (this w) → requestId c = requestId (this w) →
  cinv C R fr pin w → cinv C R fr pin (set_this c w).
Proof.
  intros Hp Hn ([] & Hfr & Hpin).
  split_and!; [split; wsimpl; rewrite ?Hp, ?Hn; eauto|..].
  - destruct fr as [[[] ?]|]; cbn [frozen pinned] in *; wsimpl_all; [|done]. by rewrite Hp.
  - destruct pin as [[]|]; cbn [frozen pinned] in *; wsimpl_all; [|done]. unfold tracked in *. cbn [frozen pinned] in *; wsimpl_all. by rewrite Hp.
Qed.

Lemma cinv_timers pin w tms :
  (∀ t c, tms !! t = Some c → timers w !! t = Some c ∨ timer_ok C R c) →
  cinv C R fr pin w → cinv C R fr pin (set_timers tms w).
Proof.
  intros Ht ([] & Hfr & Hpin). split_and!; [split; wsimpl; eauto|..].
  - intros t p [?|?]%Ht; eauto.
  - intros t id p [?|?]%Ht; eauto.
  - by destruct fr as [[[] ?]|]; cbn [frozen pinned] in *; wsimpl_all.
  - by destruct pin as [[]|]; cbn [frozen pinned] in *; wsimpl_all.
Qed.

Lemma cinv_sockets pin w socks :
  (∀ k s t p, socks !! k = Some s → s_closures s = Some (t, p) → C p) →
  cinv C R fr pin w → cinv C R fr pin (set_sockets socks w).
Proof.
  intros Hs ([] & Hfr & Hpin). split_and!; [split; wsimpl; eauto|..].
  - by destruct fr as [[[] ?]|]; cbn [frozen pinned] in *; wsimpl_all.
  - by destruct pin as [[]|]; cbn [frozen pinned] in *; wsimpl_all.
Qed.

Lemma cinv_promises pin w proms :
  (length (promises w) ≤ length proms)%nat →
  cinv C R fr pin w → cinv C R fr pin (set_promises proms w).
Proof.
  intros Hlen ([Hc Hr Hf ? ? ? ? ? ? ?] & Hfr & Hpin).
  split_and!; [split; wsimpl; eauto|..].
  - intros p Hp. specialize (Hc p Hp). lia.
  - intros id p Hp. destruct (Hr id p Hp) as (?&?&?). split_and!; [lia|done..].
  - intros p Hp. apply Hf. lia.
  - by destruct fr as [[[] ?]|]; cbn [frozen pinned] in *; wsimpl_all.
  - by destruct pin as [[]|]; cbn [frozen pinned] in *; wsimpl_all.
Qed.

Lemma cinv_nextTimer pin w n : cinv C R fr pin w → cinv C R fr pin (set_nextTimer n w).
Proof.
  intros ([] & Hfr & Hpin). split_and!; [by split|by destruct fr as [[[] ?]|]; cbn [frozen pinned] in *; wsimpl_all|by destruct pin as [[]|]; cbn [frozen pinned] in *; wsimpl_all].
Qed.

Lemma cinv_localStorage pin w s : cinv C R fr pin w → cinv C R fr pin (set_localStorage s w).
Proof.
  intros ([] & Hfr & Hpin). split_and!; [by split|by destruct fr as [[[] ?]|]; cbn [frozen pinned] in *; wsimpl_all|by destruct pin as [[]|]; cbn [frozen pinned] in *; wsimpl_all].
Qed.

Lemma cinv_microtasks pin w n : cinv C R fr pin w → cinv C R fr pin (set_microtasks n w).
Proof.
  intros ([] & Hfr & Hpin). split_and!; [by split|by destruct fr as [[[] ?]|]; cbn [frozen pinned] in *; wsimpl_all|by destruct pin as [[]|]; cbn [frozen pinned] in *; wsimpl_all].
Qed.

Lemma cinv_clock pin w n : cinv C R fr pin w → cinv C R fr pin (set_clock n w).
Proof.
  intros ([] & Hfr & Hpin). split_and!; [by split|by destruct fr as [[[] ?]|]; cbn [frozen pinned] in *; wsimpl_all|by destruct pin as [[]|]; cbn [frozen pinned] in *; wsimpl_all].
Qed.

Lemma cinv_unpin pin w : cinv C R fr pin w → cinv C R fr None w.
Proof. by intros (? & ? & _). Qed.

(** Settling a promise that is allocated and is not the promise of a
    registered request. *)
Lemma cinv_settle pin w p e :
  (p < length (promises w))%nat → (∀ id, ¬ R id p) →
  (∀ q, settles q e = true → q = p) →
  cinv C R fr pin w → cinv C R fr pin (set_log (log w ++ [e]) w).
Proof.
  intros Hp HR He ([Hc Hr Hf ? ? ? ? ? Ho ?] & Hfr & Hpin).
  assert (∀ q, q ≠ p → settlements q (log w ++ [e]) = settlements q (log w)) as Hq.
  { intros q Hq. rewrite settlements_snoc. destruct (settles q e) eqn:Hs; [|lia].
    by apply He in Hs. }
  split_and!; [split; wsimpl; eauto|..].
  - intros q Hlen. rewrite Hq by lia. by apply Hf.
  - intros id q Hid. rewrite Hq; [by apply Ho|]. intros ->. by eapply HR.
  - destruct fr as [[[idf pf] n]|]; cbn [frozen] in *; wsimpl_all; [|done].
    destruct Hfr as (? & ? & ?). rewrite Hq; [done|]. intros ->. by eapply HR.
  - by destruct pin as [[]|].
Qed.

Lemma cinv_resolved pin w p v :
  (p < length (promises w))%nat → (∀ id, ¬ R id p) →
  cinv C R fr pin w → cinv C R fr pin (resolved p v w).
Proof.
  intros Hp HR Hw. unfold resolved. apply cinv_promises.
  { wsimpl. by rewrite settled_length. }
  apply cinv_settle with (p := p); try done. intros q Hq. cbn in Hq. by case_bool_decide.
Qed.

Lemma cinv_rejected pin w p e :
  (p < length (promises w))%nat → (∀ id, ¬ R id p) →
  cinv C R fr pin w → cinv C R fr pin (rejected p e w).
Proof.
  intros Hp HR Hw. unfold rejected. apply cinv_microtasks, cinv_promises.
  { wsimpl. by rewrite settled_length. }
  apply cinv_settle with (p := p); try done. intros q Hq. cbn in Hq. by case_bool_decide.
Qed.

Lemma cinv_connect_promise pin w p :
  C p → cinv C R fr pin w → (p < length (promises w))%nat ∧ ∀ id, ¬ R id p.
Proof.
  intros Hp ([Hc Hr ? ? ? ? ? ? ? ?] & _). split; [by apply Hc|].
  intros id Hid. by destruct (Hr id p Hid) as (_ & ? & _).
Qed.

Lemma resolve_cinv pin p v : C p → preserves (cinv C R fr pin) (resolve p v).
Proof.
  intros Hp w Hw. rewrite resolve_spec.
  destruct (cinv_connect_promise pin w p Hp Hw). by apply cinv_resolved.
Qed.

Lemma reject_cinv pin p e : C p → preserves (cinv C R fr pin) (reject p e).
Proof.
  intros Hp w Hw. rewrite reject_spec.
  destruct (cinv_connect_promise pin w p Hp Hw). by apply cinv_rejected.
Qed.

(** The outcome of a tracked request: its entry is deleted and its promise
    settled. *)
Lemma cinv_outcome pin w id p e :
  pendingRequests (this w) !! id = Some (PromiseCallbacks p) →
  settles p e = true → (∀ q, settles q e = true → q = p) →
  cinv C R fr pin w →
  cinv C R fr None
    (set_log (log (forget (Some id) w) ++ [e]) (forget (Some id) w)).
Proof.
  intros Hid Hpe He ([Hc Hr Hf ? ? Hk Hent ? Ho Hfun] & Hfr & Hpin).
  assert (R id p) as HR by auto.
  destruct (Hr id p HR) as (Hlen & _ & _).
  destruct (Ho id p HR) as [[_ Hzero]|[Hnone _]]; [|congruence].
  assert (∀ q, q ≠ p → settlements q (log w ++ [e]) = settlements q (log w)) as Hq.
  { intros q Hq. rewrite settlements_snoc. destruct (settles q e) eqn:Hs; [|lia].
    by apply He in Hs. }
  split_and!; [split; cbn [forget]; wsimpl; eauto|..].
  - intros q Hq'. rewrite Hq by lia. by apply Hf.
  - intros id' cb [_ ?]%lookup_delete_Some. eauto.
  - intros id' q [_ ?]%lookup_delete_Some. eauto.
  - intros id' q Hid'. destruct (decide (q = p)) as [->|Hne].
    + rewrite (Hfun id' id p Hid' HR). right.
      rewrite lookup_delete_eq, settlements_snoc, Hpe, Hzero. split; [done|lia].
    + rewrite Hq by done. destruct (decide (id' = id)) as [->|Hne'].
      * destruct (Ho id q Hid') as [[? _]|[? _]]; congruence.
      * rewrite lookup_delete_ne by done. by apply Ho.
  - destruct fr as [[[idf pf] n]|]; cbn [frozen forget] in *; wsimpl_all; [|done].
    destruct Hfr as (HRf & Hnf & Hsf). split_and!; [done|..].
    + rewrite lookup_delete_None. by right.
    + rewrite Hq; [done|]. intros ->.
      rewrite (Hfun idf id p HRf HR) in Hnf. congruence.
  - done.
Qed.

Lemma cinv_forget_noop pin w id :
  pendingRequests (this w) !! id = Some NoopCallbacks →
  cinv C R fr pin w → cinv C R fr None (forget (Some id) w).
Proof.
  intros Hid ([Hc Hr Hf ? ? Hk Hent ? Ho Hfun] & Hfr & Hpin).
  split_and!; [split; cbn [forget]; wsimpl; eauto|..].
  - intros id' cb [_ ?]%lookup_delete_Some. eauto.
  - intros id' q [_ ?]%lookup_delete_Some. eauto.
  - intros id' q Hid'. destruct (decide (id' = id)) as [->|Hne'].
    + destruct (Ho id q Hid') as [[? _]|[? _]]; congruence.
    + rewrite lookup_delete_ne by done. by apply Ho.
  - destruct fr as [[[idf pf] n]|]; cbn [frozen forget] in *; wsimpl_all; [|done].
    destruct Hfr as (HRf & Hnf & Hsf). split_and!; [done| |done].
    rewrite lookup_delete_None. by right.
  - done.
Qed.

Lemma cinv_resolved_via pin w id cb v :
  pendingRequests (this w) !! id = Some cb →
  cinv C R fr pin w → cinv C R fr None (resolved_via cb v (forget (Some id) w)).
Proof.
  intros Hid Hw. destruct cb as [|p]; [by eapply cinv_forget_noop|].
  unfold resolved_via, resolved. apply cinv_promises.
  { wsimpl. by rewrite settled_length. }
  eapply cinv_outcome with (p := p); try done; cbn; [by case_bool_decide|].
  intros q Hq. by case_bool_decide.
Qed.

Lemma cinv_rejected_via pin w id cb e :
  pendingRequests (this w) !! id = Some cb →
  cinv C R fr pin w → cinv C R fr None (rejected_via cb e (forget (Some id) w)).
Proof.
  intros Hid Hw. destruct cb as [|p]; [by eapply cinv_forget_noop|].
  unfold rejected_via, rejected. apply cinv_microtasks, cinv_promises.
  { wsimpl. by rewrite settled_length. }
  eapply cinv_outcome with (p := p); try done; cbn; [by case_bool_decide|].
  intros q Hq. by case_bool_decide.
Qed.

(** [disconnect] empties the map: every request becomes untracked. *)
Lemma cinv_clear w :
  cinv C R fr None w → cinv C R fr None (set_this (set_pendingRequests ∅ (this w)) w).
Proof.
  intros ([Hc Hr Hf ? ? Hk Hent ? Ho Hfun] & Hfr & Hpin).
  split_and!; [split; wsimpl; eauto|..]; try done.
  - intros id p Hid. right. split; [done|]. destruct (Ho id p Hid) as [[_ ->]|[_ ?]]; lia.
  - destruct fr as [[[idf pf] n]|]; cbn [frozen] in *; wsimpl_all; [|done].
    destruct Hfr as (HRf & Hnf & Hsf). done.
Qed.

End Frame.

(** ** The correlator invariant: operations *)

Lemma lookup_alter_socket (f : Socket → Socket) k0 (socks : list Socket) k s :
  alter f k0 socks !! k = Some s →
  ∃ s0, socks !! k = Some s0 ∧ (s = s0 ∨ s = f s0).
Proof.
  rewrite list_lookup_alter. case_decide; subst.
  - destruct (socks !! k) as [s0|]; [|done]. intros [= <-]. eauto.
  - eauto.
Qed.

Section Operations.

Context (C : PromiseId → Prop) (R : string → PromiseId → Prop).
Context (fr : option (string * PromiseId * nat)).

Lemma cinv_alter pin w f k :
  (∀ s, s_closures (f s) = s_closures s ∨ ∃ t p, s_closures (f s) = Some (t, p) ∧ C p) →
  cinv C R fr pin w → cinv C R fr pin (set_sockets (alter f k (sockets w)) w).
Proof.
  intros Hf Hw. apply cinv_sockets; [|done].
  intros k' s t p (s0 & Hk & [->| ->])%lookup_alter_socket Hs.
  - destruct Hw as [[] _]. eauto.
  - destruct (Hf s0) as [Heq|(t' & p' & Heq & Hp)]; rewrite Heq in Hs.
    + destruct Hw as [[] _]. eauto.
    + by injection Hs as <- <-.
Qed.

Lemma cinv_new_socket pin w r :
  cinv C R fr pin w →
  cinv C R fr pin
    (set_sockets (sockets w ++ [{| readyState := r; s_closures := None |}]) w).
Proof.
  intros Hw. apply cinv_sockets; [|done].
  intros k s t p [Hk|[_ Hk]]%lookup_app_Some Hs.
  - destruct Hw as [[] _]. eauto.
  - destruct (k - length (sockets w))%nat; [|done]. by injection Hk as <-.
Qed.

Lemma cinv_allocated pin w : cinv C R fr pin w → cinv C R fr pin (allocated w).
Proof. apply cinv_promises. rewrite length_app. lia. Qed.

(** A promise that was just allocated by [connect] joins [C]. *)
Lemma cinv_allocated_connect pin w :
  cinv C R fr pin w →
  cinv (λ q, C q ∨ q = length (promises w)) R fr pin (allocated w).
Proof.
  intros ([Hc Hr Hf ? ? ? ? ? ? ?] & Hfr & Hpin).
  split_and!; [split; unfold allocated; wsimpl; rewrite ?length_app; cbn [length]; eauto|..].
  - intros p [Hp%Hc| ->]; lia.
  - intros id p Hp. destruct (Hr id p Hp) as (?&?&?). split_and!; [lia| |done].
    intros [?| ->]; [done|lia].
  - intros p Hp. apply Hf. lia.
  - by destruct fr as [[[] ?]|].
  - by destruct pin as [[]|].
Qed.

(** A fresh identifier is entered for the connect request. *)
Lemma cinv_registered_noop w :
  cinv C R fr None w → cinv C R fr None (registered NoopCallbacks w).
Proof.
  intros ([Hc Hr Hf ? ? Hk Hent ? Ho Hfun] & Hfr & Hpin).
  assert (∀ id, issued (requestId (this w)) id →
                id ≠ request_id (S (requestId (this w))) (clock w)) as Hfresh.
  { intros id Hid ->. by eapply issued_fresh. }
  split_and!; [split; unfold registered; wsimpl; eauto|..]; try done.
  - intros id p Hp. destruct (Hr id p Hp) as (?&?&?).
    split_and!; [done..|]. eapply issued_mono; [done|lia].
  - intros id cb [[<- _]|[_ Hid]]%lookup_insert_Some.
    + exists (S (requestId (this w))), (clock w). split; [done|lia].
    + eapply issued_mono; [by eapply Hk|lia].
  - intros id p [[_ [=]]|[_ Hid]]%lookup_insert_Some. eauto.
  - intros id p Hp. destruct (Hr id p Hp) as (_ & _ & Hiss).
    rewrite lookup_insert_ne by (symmetry; by apply Hfresh). by apply Ho.
  - destruct fr as [[[idf pf] n]|]; cbn [frozen] in *; unfold registered; wsimpl_all; [|done].
    destruct Hfr as (HRf & Hnf & Hsf). split_and!; [done| |done].
    destruct (Hr idf pf HRf) as (_ & _ & Hiss).
    by rewrite lookup_insert_ne by (symmetry; by apply Hfresh).
Qed.

(** A fresh identifier is entered for a promise that is allocated, unsettled
    and not yet known: the request joins [R]. *)
Lemma cinv_registered w p :
  (p < length (promises w))%nat → settlements p (log w) = 0%nat →
  ¬ C p → (∀ id, ¬ R id p) →
  cinv C R fr None w →
  cinv C (λ id q, R id q ∨ (id = request_id (S (requestId (this w))) (clock w) ∧ q = p))
    fr None (registered (PromiseCallbacks p) w).
Proof.
  intros Hp Hzero HC HR ([Hc Hr Hf ? ? Hk Hent ? Ho Hfun] & Hfr & Hpin).
  assert (∀ id, issued (requestId (this w)) id →
                id ≠ request_id (S (requestId (this w))) (clock w)) as Hfresh.
  { intros id Hid ->. by eapply issued_fresh. }
  split_and!; [split; unfold registered; wsimpl; eauto|..]; try done.
  - intros id q [Hq|[-> ->]].
    + destruct (Hr id q Hq) as (?&?&?). split_and!; [done..|].
      eapply issued_mono; [done|lia].
    + split_and!; [done..|]. exists (S (requestId (this w))), (clock w). split; [done|lia].
  - intros id cb [[<- _]|[_ Hid]]%lookup_insert_Some.
    + exists (S (requestId (this w))), (clock w). split; [done|lia].
    + eapply issued_mono; [by eapply Hk|lia].
  - intros id q [[<- [= <-]]|[_ Hid]]%lookup_insert_Some; [by right|left; eauto].
  - intros id q [Hq|[-> ->]].
    + destruct (Hr id q Hq) as (_ & _ & Hiss).
      rewrite lookup_insert_ne by (symmetry; by apply Hfresh). by apply Ho.
    + left. by rewrite lookup_insert_eq.
  - intros id id' q [Hq|[-> Hqp]] [Hq'|[-> Hqp']]; subst; eauto; by edestruct HR.
  - destruct fr as [[[idf pf] n]|]; cbn [frozen] in *; unfold registered; wsimpl_all; [|done].
    destruct Hfr as (HRf & Hnf & Hsf). split_and!; [by left| |done].
    destruct (Hr idf pf HRf) as (_ & _ & Hiss).
    by rewrite lookup_insert_ne by (symmetry; by apply Hfresh).
Qed.

Lemma cinv_weaken (C' : PromiseId → Prop) (R' : string → PromiseId → Prop) w :
  (∀ p, C p → C' p) → (∀ id p, R id p → R' id p) →
  cinv C' R' fr None w → cinv_ex C R fr w.
Proof. intros. by exists C', R'. Qed.

Lemma cinv_read_socket pin k r t p :
  (∃ w, cinv C R fr pin w ∧
        Some {| readyState := r; s_closures := Some (t, p) |} = sockets w !! k) → C p.
Proof. intros (w & [[] _] & Hk). eauto. Qed.

Lemma cinv_read_connection_timer pin t p :
  (∃ w, cinv C R fr pin w ∧ Some (ConnectionTimeout p) = timers w !! t) → C p.
Proof. intros (w & [[] _] & Hk). eauto. Qed.

Lemma cinv_read_request_timer pin t id p :
  (∃ w, cinv C R fr pin w ∧ Some (RequestTimeout id p) = timers w !! t) → R id p.
Proof. intros (w & [[] _] & Hk). eauto. Qed.

End Operations.

Ltac cinv_hook :=
  repeat match goal with
    | H : ∃ w, cinv _ _ _ _ w ∧ Some {| readyState := _; s_closures := Some (_, _) |} = _
      |- _ => apply cinv_read_socket in H
    | H : ∃ w, cinv _ _ _ _ w ∧ Some (ConnectionTimeout _) = _ |- _ =>
        apply cinv_read_connection_timer in H
    | H : ∃ w, cinv _ _ _ _ w ∧ Some (RequestTimeout _ _) = _ |- _ =>
        apply cinv_read_request_timer in H
    end.

Ltac timers_side :=
  first
    [ intros ? ? [_ ?]%lookup_delete_Some; by left
    | intros ? ? [[_ <-]|[_ ?]]%lookup_insert_Some; [right; cbn; eauto|by left] ].

Ltac pres_hook ::= cinv_hook.

Ltac cinv_leaf :=
  repeat match goal with
         | |- cinv _ _ _ _ (set_this (match ?x with _ => _ end) _) => destruct x
         end;
  repeat first
    [ assumption
    | apply cinv_nextTimer
    | apply cinv_localStorage
    | apply cinv_microtasks
    | apply cinv_clock
    | apply cinv_clear
    | apply cinv_new_socket
    | apply cinv_log; [intros ?; first [apply settlements_emit|reflexivity]|]
    | apply cinv_this; [reflexivity|reflexivity|]
    | apply cinv_timers; [timers_side|]
    | apply cinv_alter; [intros ?; first [by left|right; cbn; eauto]|]
    | apply cinv_promises; [wsimpl; rewrite ?length_insert, ?length_app; lia|] ].

Ltac unfold_quiet_ops :=
  unfold task, socketEvent, runTimer, microtaskCheckpoint, reconnectFailed,
    scheduleReconnect, disconnect, onerror, onclose, onmessage,
    onopen, connectionTimeout, handleMessage, startPing, pingTick,
    stopPing, getDeviceId, getWsUrl, configure, off, on,
    callHandler, installHandlers, getItem, setItem, wsSend, wsClose, wsReadyState,
    setReadyState, clearTimer, setInterval, setTimeout, armTimer, catch_reconnect.

(** ** The correlator invariant: requests and responses *)

Lemma hoare_bind_read {A B} P (f : World → A) (k : A → M B) Q E :
  (∀ a, (∃ w, P w ∧ a = f w) → hoare P (k a) Q E) → hoare P (gets f ≫= k) Q E.
Proof.
  intros H w Hw. unfold mbind, M_bind, gets. apply (H (f w)); eauto.
Qed.

Lemma hoare_seq {A B} P (m : M A) (k : A → M B) Q E :
  preserves P m → (∀ w, P w → E w) → (∀ a, hoare P (k a) Q E) →
  hoare P (m ≫= k) Q E.
Proof.
  intros Hm HE Hk. eapply hoare_bind; [|exact Hk].
  eapply hoare_conseq; [exact Hm|..]; auto.
Qed.

Lemma pendingDelete_spec id w : pendingDelete id w = (inr (), forget id w).
Proof. by destruct id. Qed.

Lemma callResolve_spec cb v w : callResolve cb v w = (inr (), resolved_via cb v w).
Proof. destruct cb; [done|]. apply resolve_spec. Qed.

Lemma callReject_spec cb e w : callReject cb e w = (inr (), rejected_via cb e w).
Proof. destruct cb; [done|]. apply reject_spec. Qed.

Lemma requestTimeout_spec id p w :
  requestTimeout id p w =
  (inr (), if is_some (pendingRequests (this w) !! id)
           then rejected p (Error "Request timeout") (forget (Some id) w) else w).
Proof.
  destruct_world w. unfold requestTimeout, forget. mexec.
  match goal with |- context [?m !! id] => destruct (m !! id) end; mrun; reflexivity.
Qed.

Lemma nextId_spec w :
  nextId w = (inr (request_id (S (requestId (this w))) (clock w)),
              set_this (set_requestId (S (requestId (this w))) (this w)) w).
Proof. by destruct_world w. Qed.

Lemma send_spec method params w :
  send method params w =
  (inr (length (promises w)),
   match send_allowed w with
   | Some k => accepted method params k w
   | None => rejected (length (promises w)) (Error "Not connected to gateway") (allocated w)
   end).
Proof.
  destruct w as [b [[k|] cfg [] n reqs hs rt pi lp ca mx cn dev cp] socks proms tms nt st mt now l];
    unfold send, send_allowed, accepted, registered, allocated; wsimpl;
    cbn [andb]; try (by mrun).
  destruct (socks !! k) as [[[] ?]|] eqn:Hk;
    repeat (progress (mrun; rewrite ?Hk; cbn [fmap option_fmap option_map];
                      try rewrite (bool_decide_eq_true_2 (Some OPEN = Some OPEN)) by done;
                      try rewrite bool_decide_eq_false_2 by done));
    try reflexivity.
  by rewrite <- app_assoc.
Qed.

Ltac fold_preserves :=
  lazymatch goal with |- hoare ?P ?m _ _ => change (preserves P m) end.

Section Requests.

Context (C : PromiseId → Prop) (R : string → PromiseId → Prop).
Context (fr : option (string * PromiseId * nat)).

Lemma preserves_cinv_ex {A} (m : M A) :
  preserves (cinv C R fr None) m →
  hoare (cinv C R fr None) m (λ _, cinv_ex C R fr) (cinv_ex C R fr).
Proof.
  intros Hm. eapply hoare_conseq; [exact Hm|done|..]; intros; by exists C, R.
Qed.

Lemma resolve_entry_cinv id cb v :
  hoare (cinv C R fr (Some (id, Some cb))) (pendingDelete id;; callResolve cb v)
    (λ _, cinv C R fr None) (cinv C R fr None).
Proof.
  intros w Hw. unfold mbind, M_bind. rewrite pendingDelete_spec, callResolve_spec.
  destruct id as [id|]; [|by destruct Hw as (_ & _ & ?)].
  eapply cinv_resolved_via; [|exact Hw]. by destruct Hw as (_ & _ & ?).
Qed.

Lemma reject_entry_cinv id cb e :
  hoare (cinv C R fr (Some (id, Some cb))) (pendingDelete id;; callReject cb e)
    (λ _, cinv C R fr None) (cinv C R fr None).
Proof.
  intros w Hw. unfold mbind, M_bind. rewrite pendingDelete_spec, callReject_spec.
  destruct id as [id|]; [|by destruct Hw as (_ & _ & ?)].
  eapply cinv_rejected_via; [|exact Hw]. by destruct Hw as (_ & _ & ?).
Qed.

(** The 30 s timer of a request rejects it when it is still tracked. *)
Lemma requestTimeout_cinv id p :
  R id p → preserves (cinv C R fr None) (requestTimeout id p).
Proof.
  intros HR w Hw. rewrite requestTimeout_spec.
  destruct (pendingRequests (this w) !! id) as [cb|] eqn:Hid; cbn [is_some]; [|done].
  assert (cb = PromiseCallbacks p) as ->.
  { destruct Hw as ([_ _ _ _ _ _ _ _ Ho _] & _). destruct (Ho id p HR) as [[? _]|[? _]]; congruence. }
  by apply (cinv_rejected_via C R fr None w id (PromiseCallbacks p)).
Qed.

(** Tasks that leave the pending-request map and the promises alone. *)
Lemma quiet_cinv pin :
  (∀ deviceToken, preserves (cinv C R fr pin)
     (when (truthy_string deviceToken)
        (setItem "ether-portal-device-token" (default "" deviceToken)))) ∧
  preserves (cinv C R fr pin) startPing ∧
  preserves (cinv C R fr pin) getDeviceId ∧
  (∀ key, preserves (cinv C R fr pin) (getItem key)) ∧
  (∀ k frame, preserves (cinv C R fr pin) (wsSend k frame)).
Proof.
  split_and!; intros; unfold_quiet_ops; pres; cinv_leaf.
Qed.

(** A response settles the request it names, and the connect promise. *)
Lemma handleResponse_cinv id ok payload error p :
  C p → preserves (cinv C R fr None) (handleResponse id ok payload error (Some p)).
Proof.
  intros Hp. unfold handleResponse.
  eapply hoare_bind with (Q' := λ pending, cinv C R fr (Some (id, pending))).
  { intros w (Hw & Hfr & _). by split_and!. }
  intros pending. destruct (quiet_cinv (Some (id, pending))) as (Htoken & Hping & _).
  pose proof (cinv_unpin C R fr (Some (id, pending))) as Hunpin.
  destruct (bool_decide _); [|destruct (negb ok && is_some error)]; cbv zeta.
  - do 5 (apply hoare_seq; [pres; cinv_leaf|done|intros _]).
    eapply hoare_bind with (Q' := λ _, cinv C R fr None);
      [|intros _; by apply resolve_cinv].
    destruct pending; [apply resolve_entry_cinv|by apply hoare_ret].
  - apply hoare_seq; [pres; cinv_leaf|done|intros _].
    eapply hoare_bind with (Q' := λ _, cinv C R fr None);
      [|intros _; by apply reject_cinv].
    destruct pending; [apply reject_entry_cinv|by apply hoare_ret].
  - destruct pending as [cb|]; cbn [is_some]; rewrite ?andb_false_r;
      [|by apply hoare_ret].
    destruct (truthy_string id && true); [|by apply hoare_ret].
    destruct ok; [apply resolve_entry_cinv|apply reject_entry_cinv].
Qed.

(** The connect request takes a fresh identifier. *)
Lemma sendConnectRequest_cinv : preserves (cinv C R fr None) sendConnectRequest.
Proof.
  destruct (quiet_cinv None) as (_ & _ & Hdev & Hget & Hsend).
  unfold sendConnectRequest.
  apply preserves_bind; [pres|intros a]. apply preserves_bind; [pres|intros a0].
  apply preserves_bind; [pres|intros a1]. cbv zeta.
  eapply hoare_bind with (Q' := bumped C R fr).
  { intros w Hw. rewrite nextId_spec. by exists w. }
  intros id. eapply hoare_bind with (Q' := λ _, cinv C R fr None).
  { intros w' (w & Hw & -> & ->). exact (cinv_registered_noop C R fr w Hw). }
  intros _. fold_preserves. pres.
Qed.

(** An accepted request joins [R] with its promise. *)
Lemma accepted_cinv method params k w :
  cinv C R fr None w →
  cinv C (λ id q, R id q ∨
            (id = request_id (S (requestId (this w))) (clock w) ∧
             q = length (promises w)))
    fr None (accepted method params k w).
Proof.
  intros Hw.
  assert (length (promises w) < length (promises (allocated w)))%nat as Hlen.
  { unfold allocated. wsimpl. rewrite length_app. cbn. lia. }
  assert (∀ id, ¬ R id (length (promises w))) as Hnew.
  { intros id Hid. destruct Hw as ([_ Hr _ _ _ _ _ _ _ _] & _).
    destruct (Hr _ _ Hid) as (? & _). lia. }
  assert (¬ C (length (promises w))) as HnewC.
  { intros Hp. destruct Hw as ([Hc _ _ _ _ _ _ _ _ _] & _). specialize (Hc _ Hp). lia. }
  assert (settlements (length (promises w)) (log w) = 0%nat) as Hzero.
  { destruct Hw as ([_ _ Hf _ _ _ _ _ _ _] & _). by apply Hf. }
  pose (R' := λ id q, R id q ∨
      (id = request_id (S (requestId (this (allocated w)))) (clock (allocated w)) ∧
       q = length (promises w))).
  pose (w1 := registered (PromiseCallbacks (length (promises w))) (allocated w)).
  pose (c := RequestTimeout (request_id (S (requestId (this w))) (clock w))
               (length (promises w))).
  assert (cinv C R' fr None w1) as H1 by (by apply cinv_registered, cinv_allocated).
  assert (cinv C R' fr None (set_timers (<[nextTimer w := c]> (timers w)) w1)) as H2.
  { apply (cinv_timers C R' fr None w1); [|done].
    intros t c' [[_ <-]|[_ ?]]%lookup_insert_Some; [right; cbn; by right|by left]. }
  exact (cinv_log C R' fr None _
           [EWsSend k (OutReq (request_id (S (requestId (this w))) (clock w))
                         method params);
            ESetTimeout (nextTimer w) 30000]
           (λ _, eq_refl) (cinv_nextTimer C R' fr None _ (S (nextTimer w)) H2)).
Qed.

(** [send] rejects the promise at once, or registers the request. *)
Lemma send_cinv method params :
  hoare (cinv C R fr None) (send method params)
    (λ _, cinv_ex C R fr) (cinv_ex C R fr).
Proof.
  intros w Hw. rewrite send_spec. destruct (send_allowed w) as [k|].
  - eexists C, _. split_and!; [done| |by apply accepted_cinv]. intros id q Hq. by left.
  - exists C, R. split_and!; [done..|].
    apply cinv_rejected; [| |by apply cinv_allocated].
    + unfold allocated. wsimpl. rewrite length_app. cbn. lia.
    + intros id Hid. destruct Hw as ([_ Hr _ _ _ _ _ _ _ _] & _).
      destruct (Hr _ _ Hid) as (? & _). lia.
Qed.

End Requests.

Section Tasks.

Context (C : PromiseId → Prop) (R : string → PromiseId → Prop).
Context (fr : option (string * PromiseId * nat)).

(** A new connection attempt adds its promise to [C]. *)
Lemma connect_cinv :
  hoare (cinv C R fr None) connect (λ _, cinv_ex C R fr) (cinv_ex C R fr).
Proof.
  unfold connect. apply hoare_bind_read. intros [p|] _.
  { apply preserves_cinv_ex, preserves_ret. }
  assert (∀ p w, cinv (λ q, C q ∨ q = p) R fr None w → cinv_ex C R fr w) as Hex.
  { intros p w Hw. exists (λ q, C q ∨ q = p), R. split_and!; [by left|done..]. }
  eapply hoare_bind with (Q' := λ p, cinv (λ q, C q ∨ q = p) R fr None).
  - unfold newPromise.
    eapply hoare_bind with (Q' := λ p, cinv (λ q, C q ∨ q = p) R fr None).
    { intros w Hw. by apply cinv_allocated_connect. }
    intros p.
    eapply hoare_bind with (Q' := λ _, cinv (λ q, C q ∨ q = p) R fr None);
      [|intros _; by apply hoare_ret].
    eapply hoare_conseq
      with (Q' := λ _, cinv (λ q, C q ∨ q = p) R fr None)
           (E' := cinv (λ q, C q ∨ q = p) R fr None); [|done|done|apply Hex].
    assert ((λ q, C q ∨ q = p) p) as Hp by (by right).
    revert Hp. generalize (λ q : PromiseId, C q ∨ q = p). intros C' Hp.
    pose proof (reject_cinv C' R fr None p) as Hrej.
    fold_preserves. unfold_quiet_ops. unfold newWebSocket. pres; cinv_leaf.
  - intros p.
    eapply hoare_conseq
      with (Q' := λ _, cinv (λ q, C q ∨ q = p) R fr None)
           (E' := cinv (λ q, C q ∨ q = p) R fr None);
      [|done|intros _; apply Hex|apply Hex].
    fold_preserves. pres; cinv_leaf.
Qed.

Lemma reconnectTimeout_cinv :
  hoare (cinv C R fr None) reconnectTimeout (λ _, cinv_ex C R fr) (cinv_ex C R fr).
Proof.
  unfold reconnectTimeout. apply hoare_seq; [pres; cinv_leaf|by exists C, R|intros _].
  eapply hoare_bind; [apply connect_cinv|]. intros p w (C' & R' & HC & HR & Hw).
  assert (preserves (cinv C' R' fr None) (catch_reconnect p)) as Hcatch.
  { unfold catch_reconnect. pres; cinv_leaf. }
  specialize (Hcatch w Hw). destruct (catch_reconnect p w) as [[?|?] ?]; by exists C', R'.
Qed.

Lemma runTimer_cinv t :
  hoare (cinv C R fr None) (runTimer t) (λ _, cinv_ex C R fr) (cinv_ex C R fr).
Proof.
  pose proof (resolve_cinv C R fr None) as Hres.
  pose proof (reject_cinv C R fr None) as Hrej.
  pose proof (requestTimeout_cinv C R fr) as Htimeout.
  unfold runTimer. apply hoare_bind_read. intros [[p|id p| |]|] Ht; cinv_hook.
  - apply preserves_cinv_ex. unfold_quiet_ops. pres; cinv_leaf.
  - apply preserves_cinv_ex. unfold_quiet_ops. pres; cinv_leaf.
  - apply preserves_cinv_ex. unfold_quiet_ops. pres; cinv_leaf.
  - apply hoare_seq; [pres; cinv_leaf|by exists C, R|intros _].
    apply reconnectTimeout_cinv.
  - apply preserves_cinv_ex, preserves_ret.
Qed.

Lemma task_cinv ev :
  hoare (cinv C R fr None) (task ev) (λ _, cinv_ex C R fr) (cinv_ex C R fr).
Proof.
  pose proof (resolve_cinv C R fr None) as Hres.
  pose proof (reject_cinv C R fr None) as Hrej.
  pose proof (handleResponse_cinv C R fr) as Hresponse.
  pose proof (sendConnectRequest_cinv C R fr) as Hrequest.
  destruct ev; cbn [task];
    try (apply preserves_cinv_ex; unfold_quiet_ops; pres; cinv_leaf; fail).
  - eapply hoare_bind; [apply connect_cinv|]. by intros _ w Hw.
  - eapply hoare_bind; [apply send_cinv|]. by intros _ w Hw.
  - apply runTimer_cinv.
Qed.

Lemma microtaskCheckpoint_cinv : preserves (cinv C R fr None) microtaskCheckpoint.
Proof. unfold_quiet_ops. pres; cinv_leaf. Qed.

End Tasks.

(** One task, and any number of them, leave an invariant that extends the
    one they started from. *)
Lemma step_cinv C R fr now ev w : cinv_ex C R fr w → cinv_ex C R fr (step now ev w).
Proof.
  intros (C1 & R1 & HC1 & HR1 & Hw). unfold step.
  assert (cinv_ex C1 R1 fr (exec (task ev) (set_clock now w))) as (C2 & R2 & HC2 & HR2 & Hw').
  { eapply hoare_exec; [apply task_cinv|]. by apply cinv_clock. }
  exists C2, R2. split_and!; [auto..|].
  eapply preserves_exec; [apply microtaskCheckpoint_cinv|done].
Qed.

Lemma run_cinv C R fr evs w : cinv_ex C R fr w → cinv_ex C R fr (run evs w).
Proof. apply run_preserves. intros. by apply step_cinv. Qed.

Lemma init_cinv b stored : cinv (λ _, False) (λ _ _, False) None None (init b stored).
Proof.
  split_and!; [split|done..]; unfold init; wsimpl; done.
Qed.

Lemma reachable_cinv w : reachable w → ∃ C R, cinv C R None None w.
Proof.
  intros (b & stored & evs & ->).
  destruct (run_cinv (λ _, False) (λ _ _, False) None evs (init b stored))
    as (C & R & _ & _ & Hw); [|by exists C, R].
  eexists _, _. split_and!; [..|apply init_cinv]; done.
Qed.
(** ** The outcome of a request *)













(** ** The device fingerprint hash *)

Lemma toInt32_range x : - 2 ^ 31 ≤ toInt32 x < 2 ^ 31.
Proof.
  unfold toInt32. pose proof (Z.mod_pos_bound (x + 2 ^ 31) (2 ^ 32)). lia.
Qed.

Lemma toInt32_congr x y k : x = y + k * 2 ^ 32 → toInt32 x = toInt32 y.
Proof.
  intros ->. unfold toInt32.
  replace (y + k * 2 ^ 32 + 2 ^ 31) with (y + 2 ^ 31 + k * 2 ^ 32) by lia.
  by rewrite Z_mod_plus_full.
Qed.

Lemma toInt32_wrap x : ∃ k, toInt32 x = x + k * 2 ^ 32.
Proof.
  exists (- ((x + 2 ^ 31) / 2 ^ 32)). unfold toInt32.
  pose proof (Z.div_mod (x + 2 ^ 31) (2 ^ 32)). lia.
Qed.

Lemma toInt32_small x : - 2 ^ 31 ≤ x < 2 ^ 31 → toInt32 x = x.
Proof. intros Hx. unfold toInt32. rewrite Z.mod_small; lia. Qed.

Lemma toInt32_idemp x : toInt32 (toInt32 x) = toInt32 x.
Proof. apply toInt32_small, toInt32_range. Qed.

Lemma and32_diag x : and32 x x = toInt32 x.
Proof. unfold and32. by rewrite Z.land_diag, toInt32_idemp. Qed.

Lemma shl32_5 x : shl32 x 5 = toInt32 (32 * x).
Proof.
  unfold shl32. change (5 mod 32) with 5. rewrite Z.shiftl_mul_pow2 by lia.
  destruct (toInt32_wrap x) as [k ->]. apply toInt32_congr with (k := k * 32). lia.
Qed.

(** One round of the loop multiplies by 31 and adds the code unit, modulo
    2^32. *)
Lemma hashCode_loop_poly h str :
  hashCode_loop (toInt32 h) str = toInt32 (poly31 h str).
Proof.
  revert h. induction str as [|c str IH]; intros h; [done|].
  change (poly31 h (c :: str)) with (poly31 (31 * h + c) str).
  cbn [hashCode_loop]. cbv zeta. rewrite and32_diag, shl32_5.
  rewrite <- (IH (31 * h + c)). f_equal.
  destruct (toInt32_wrap h) as [k Hk]. rewrite Hk.
  destruct (toInt32_wrap (32 * (h + k * 2 ^ 32))) as [k' ->].
  apply toInt32_congr with (k := 31 * k + k'). lia.
Qed.

Lemma hashCode_poly str : hashCode str = Z.abs (toInt32 (poly31 0 str)).
Proof. unfold hashCode. by rewrite <- hashCode_loop_poly. Qed.

(** X1.  [hashCode] is the absolute value of the polynomial
    [s[0]*31^(n-1) + ... + s[n-1]] reduced to a signed 32-bit integer: the
    shift-and-subtract loop computes the 31-multiplier string hash.  The
    empty string hashes to 0. *)
Theorem hashCode_is_polynomial_hash str :
  hashCode str = Z.abs (toInt32 (poly31 0 str)) ∧ hashCode [] = 0.
Proof.
  split; [apply hashCode_poly|done].
Qed.

(** X2.  [hashCode] returns a number from 0 to 2^31 inclusive: the bound
    2^31, which is no 32-bit signed integer, is reached, because [Math.abs]
    of the least 32-bit integer is 2^31. *)
Theorem hashCode_range :
  (∀ str, 0 ≤ hashCode str ≤ 2 ^ 31) ∧
  hashCode (ascii_units "polygenelubricants") = 2 ^ 31.
Proof.
  split; [|by vm_compute]. intros str.
  rewrite hashCode_poly.
  pose proof (toInt32_range (poly31 0 str)). lia.
Qed.
(** ** The handler registry *)

Lemma emitted_handlers event data w :
  emitted event data w =
  ((λ h, (h, Plain data)) <$> handlers_of event w) ++
  ((λ h, (h, Wild event data)) <$> handlers_of "*" w).
Proof. apply invocations_emit. Qed.

Lemma off_spec event h w :
  off event h w = (inr (), exec (off event h) w) ∧
  ∀ event', handlers_of event' (exec (off event h) w) =
            if decide (event' = event) then filter (λ h', h' ≠ h) (handlers_of event w)
            else handlers_of event' w.
Proof.
  split; [done|]. intros event'. unfold handlers_of, off, exec, setThis, modify. cbn [snd].
  destruct (eventHandlers (this w) !! event) as [hs|] eqn:Hev; wsimpl.
  - case_decide as Heq; [subst; by rewrite lookup_insert_eq|].
    by rewrite lookup_insert_ne.
  - case_decide as Heq; [subst; by rewrite Hev|done].
Qed.

Lemma on_spec event h w :
  ∀ event', handlers_of event' (exec (on event h) w) =
            if decide (event' = event)
            then (if bool_decide (h ∈ handlers_of event w) then handlers_of event w
                  else handlers_of event w ++ [h])
            else handlers_of event' w.
Proof.
  intros event'. unfold handlers_of, on, exec, setThis, modify. cbn [snd]. wsimpl.
  case_decide as Heq; [subst; by rewrite lookup_insert_eq|by rewrite lookup_insert_ne].
Qed.

Lemma filter_all {A} (P : A → Prop) `{∀ x, Decision (P x)} (l : list A) :
  Forall P l → filter P l = l.
Proof.
  induction 1 as [|x l Hx Hl IH]; [done|]. rewrite filter_cons, decide_True by done.
  by rewrite IH.
Qed.

Lemma filter_plain_calls h data (l : list Handler) :
  (λ h', (h', Plain data)) <$> filter (λ h', h' ≠ h) l =
  filter (λ c : Handler * EmitArg, c.1 ≠ h ∨ is_wild c.2 = true)
    ((λ h', (h', Plain data)) <$> l).
Proof.
  induction l as [|x l IH]; [done|]. rewrite fmap_cons, !filter_cons, <- IH. cbn [fst snd].
  destruct (decide (x ≠ h)) as [Hne|Heq].
  - by rewrite decide_True by (by left).
  - by rewrite decide_False by (intros [?|?]; done).
Qed.

Lemma filter_wild_calls h event data (l : list Handler) :
  filter (λ c : Handler * EmitArg, c.1 ≠ h ∨ is_wild c.2 = true)
    ((λ h', (h', Wild event data)) <$> l) = (λ h', (h', Wild event data)) <$> l.
Proof.
  apply filter_all, Forall_forall.
  intros [h' a] (x & [= -> ->] & _)%list_elem_of_fmap. by right.
Qed.

(** X3.  [off(event, h)] never throws.  Afterwards [emit(event, data)] makes
    the invocations it made before, in the same order, without the call of
    [h] on the topic; the calls [h] gets as a wildcard handler remain, and
    the other topics are as they were.  For a topic that has no handler set,
    and for a handler that is not registered, [off] changes no
    invocation. *)
Theorem off_unsubscribes event h w :
  event ≠ "*" →
  let w' := exec (off event h) w in
  off event h w = (inr (), w') ∧
  (∀ data, emitted event data w' =
           filter (λ c, c.1 ≠ h ∨ is_wild c.2 = true) (emitted event data w)) ∧
  (∀ event' data, event' ≠ event → emitted event' data w' = emitted event' data w) ∧
  (h ∉ handlers_of event w → ∀ event' data, emitted event' data w' = emitted event' data w).
Proof.
  intros Hev w'. destruct (off_spec event h w) as [Hrun Hoff]. fold w' in Hoff.
  split; [done|]. split_and!.
  - intros data. rewrite !emitted_handlers, (Hoff event), (Hoff "*").
    rewrite decide_True by done. rewrite decide_False by done.
    by rewrite filter_app, filter_plain_calls, filter_wild_calls.
  - intros event' data Hne. rewrite !emitted_handlers, (Hoff event'), (Hoff "*").
    by rewrite !decide_False by done.
  - intros Hh event' data. rewrite !emitted_handlers, (Hoff event'), (Hoff "*").
    rewrite (decide_False (P := "*" = event)) by done.
    case_decide; [subst|done]. f_equal. f_equal. apply filter_all, Forall_forall.
    intros x Hx ->. done.
Qed.

(** X3, instance: handler 1 is registered for ['connected'] on a fresh
    client and removed again; ['connected'] then invokes nothing. *)
Lemma off_unsubscribes_witness :
  "connected" ≠ "*" ∧
  emitted "connected" DUndefined
    (exec (off "connected" 1%nat) (exec (on "connected" 1%nat) (init plain_browser ∅)))
  = [].
Proof.
  split; [done|].
  destruct (off_unsubscribes "connected" 1%nat
              (exec (on "connected" 1%nat) (init plain_browser ∅)))
    as (_ & -> & _); done.
Defined.

(** X4.  Registering a handler that was not registered for the topic and
    removing it again is unobservable: every [emit] invokes what it invoked
    before.  (The handler map itself may differ: [off] leaves the empty set
    that [on] created for a new topic.) *)
Theorem on_then_off_round_trip event h w :
  h ∉ handlers_of event w →
  let w' := exec (off event h) (exec (on event h) w) in
  (∀ event', handlers_of event' w' = handlers_of event' w) ∧
  (∀ event' data, emitted event' data w' = emitted event' data w) ∧
  (eventHandlers (this w) !! event = None → eventHandlers (this w') !! event = Some []).
Proof.
  intros Hh w'.
  assert (∀ event', handlers_of event' w' = handlers_of event' w) as Hsame.
  { intros event'. unfold w'. destruct (off_spec event h (exec (on event h) w)) as [_ ->].
    destruct (decide (event' = event)) as [->|Hne];
      [|rewrite on_spec; by rewrite decide_False by done].
    rewrite on_spec, decide_True by done.
    rewrite bool_decide_eq_false_2 by done. rewrite filter_app, filter_cons, filter_nil.
    rewrite decide_False by (intros ?; done). rewrite app_nil_r.
    apply filter_all, Forall_forall. by intros x Hx ->. }
  split_and!; [done| |].
  - intros event' data. by rewrite !emitted_handlers, !Hsame.
  - intros Hnone. unfold w', off, on, exec, setThis, modify. cbn [snd]. wsimpl.
    rewrite Hnone. cbn [default].
    rewrite bool_decide_eq_false_2 by apply not_elem_of_nil.
    rewrite lookup_insert_eq. wsimpl. rewrite lookup_insert_eq. cbn [app].
    by rewrite filter_cons, decide_False by (intros ?; done).
Qed.

(** X4, instance: a handler on a topic of a fresh client. *)
Lemma on_then_off_round_trip_witness :
(1%nat ∉ handlers_of "connected" (init plain_browser ∅)) ∧
  ∀ data,
    emitted "connected" data
      (exec (off "connected" 1%nat) (exec (on "connected" 1%nat) (init plain_browser ∅)))
    = emitted "connected" data (init plain_browser ∅).
Proof.
  assert ((1%nat ∉ handlers_of "connected" (init plain_browser ∅))) as Hh.
  { apply not_elem_of_nil. }
  split; [done|]. intros data.
  by destruct (on_then_off_round_trip "connected" 1%nat (init plain_browser ∅) Hh)
    as (_ & -> & _).
Defined.
(** ** What the tasks leave alone *)

Ltac unfold_all_ops :=
  unfold task, socketEvent, runTimer, microtaskCheckpoint, reconnectFailed,
    reconnectTimeout, scheduleReconnect, disconnect, onerror, onclose, onmessage,
    onopen, connectionTimeout, handleMessage, handleResponse, startPing, pingTick,
    stopPing, requestTimeout, sendConnectRequest, send, connect, newPromise,
    allocPromise, newWebSocket, pendingDelete, pendingGet, callReject,
    callResolve, nextId, getDeviceId, getWsUrl, configure, off, on,
    callHandler, installHandlers, getItem, setItem, wsSend, wsClose, wsReadyState,
    setReadyState, clearTimer, setInterval, setTimeout, armTimer, catch_reconnect,
    reject, resolve.

(** Closes the goals about a component of the client that an update does not
    write. *)
Ltac frame_leaf :=
  repeat match goal with
         | |- context [set_this (match ?x with _ => _ end) _] => destruct x
         end;
  wsimpl; first [assumption | congruence | done].

Lemma task_keeps_handlers hs ev :
  match ev with
  | CallOn _ _ | CallOff _ _ => True
  | _ => preserves (λ w, eventHandlers (this w) = hs) (task ev)
  end.
Proof. destruct ev; try done; unfold_all_ops; pres; frame_leaf. Qed.

Lemma microtaskCheckpoint_keeps_handlers hs :
  preserves (λ w, eventHandlers (this w) = hs) microtaskCheckpoint.
Proof. unfold_all_ops; pres; frame_leaf. Qed.

Lemma task_keeps_config cfg ev :
  match ev with
  | CallConfigure _ => True
  | _ => preserves (λ w, config (this w) = cfg) (task ev)
  end.
Proof. destruct ev; try done; unfold_all_ops; pres; frame_leaf. Qed.

Lemma microtaskCheckpoint_keeps_config cfg :
  preserves (λ w, config (this w) = cfg) microtaskCheckpoint.
Proof. unfold_all_ops; pres; frame_leaf. Qed.

Lemma task_keeps_limit n ev :
  preserves (λ w, maxReconnectAttempts (this w) = n) (task ev).
Proof. destruct ev; unfold_all_ops; pres; frame_leaf. Qed.

Lemma microtaskCheckpoint_keeps_limit n :
  preserves (λ w, maxReconnectAttempts (this w) = n) microtaskCheckpoint.
Proof. unfold_all_ops; pres; frame_leaf. Qed.

Lemma step_keeps_handlers now ev w :
  match ev with
  | CallOn _ _ | CallOff _ _ => True
  | _ => eventHandlers (this (step now ev w)) = eventHandlers (this w)
  end.
Proof.
  pose proof (task_keeps_handlers (eventHandlers (this w)) ev) as Htask.
  pose proof (microtaskCheckpoint_keeps_handlers (eventHandlers (this w))) as Hmicro.
  destruct ev; try done; unfold step;
    (apply (preserves_exec _ _ _ Hmicro), (preserves_exec _ _ _ Htask); done).
Qed.

Lemma step_keeps_limit now ev w :
  maxReconnectAttempts (this (step now ev w)) = maxReconnectAttempts (this w).
Proof.
  unfold step.
  apply (preserves_exec _ _ _ (microtaskCheckpoint_keeps_limit _)),
    (preserves_exec _ _ _ (task_keeps_limit _ ev)). done.
Qed.

(** X5.  Only [on] and [off] change the handler registry, and only
    [configure] changes the configuration: every other task, [disconnect]
    included, leaves them as they are.  No task changes the limit of
    reconnection attempts, which is 5 in every reachable state. *)
Theorem registry_and_config_are_kept now ev w :
  match ev with
  | CallOn _ _ | CallOff _ _ => True
  | _ => eventHandlers (this (step now ev w)) = eventHandlers (this w)
  end ∧
  match ev with
  | CallConfigure _ => True
  | _ => config (this (step now ev w)) = config (this w)
  end ∧
  maxReconnectAttempts (this (step now ev w)) = maxReconnectAttempts (this w) ∧
  (reachable w → maxReconnectAttempts (this w) = 5%nat).
Proof.
  split_and!.
  - apply step_keeps_handlers.
  - pose proof (task_keeps_config (config (this w)) ev) as Htask.
    pose proof (microtaskCheckpoint_keeps_config (config (this w))) as Hmicro.
    destruct ev; try done; unfold step;
      (apply (preserves_exec _ _ _ Hmicro), (preserves_exec _ _ _ Htask); done).
  - apply step_keeps_limit.
  - revert w. apply reachable_ind; [done|]. intros now' ev' w' Hw'.
    by rewrite step_keeps_limit.
Qed.
(** ** Handler sets *)

Lemma handlers_of_eq event w w' :
  eventHandlers (this w') = eventHandlers (this w) →
  handlers_of event w' = handlers_of event w.
Proof. unfold handlers_of. by intros ->. Qed.

Lemma step_handlers_nodup now ev w :
  (∀ event, NoDup (handlers_of event w)) →
  ∀ event, NoDup (handlers_of event (step now ev w)).
Proof.
  intros Hw event.
  assert (∀ w', handlers_of event (exec microtaskCheckpoint w') = handlers_of event w')
    as Hmicro.
  { intros w'. apply handlers_of_eq.
    by apply (preserves_exec _ _ _ (microtaskCheckpoint_keeps_handlers _)). }
  pose proof (step_keeps_handlers now ev w) as Hstep.
  destruct ev as [| | | | |event' h|event' h| | | | | |];
    try (rewrite (handlers_of_eq _ _ _ Hstep); apply Hw).
  - unfold step. rewrite Hmicro. cbn [task].
    rewrite (on_spec event' h (set_clock now w) event).
    change (handlers_of event' (set_clock now w)) with (handlers_of event' w).
    change (handlers_of event (set_clock now w)) with (handlers_of event w).
    case_decide; [|done]. case_bool_decide as Hin; [done|].
    apply NoDup_app. split_and!; [done| |apply NoDup_singleton].
    intros x Hx ->%list_elem_of_singleton. done.
  - unfold step. rewrite Hmicro. cbn [task].
    destruct (off_spec event' h (set_clock now w)) as [_ ->].
    change (handlers_of event' (set_clock now w)) with (handlers_of event' w).
    change (handlers_of event (set_clock now w)) with (handlers_of event w).
    case_decide; [|done]. by apply NoDup_filter.
Qed.

Lemma reachable_handlers_nodup w :
  reachable w → ∀ event, NoDup (handlers_of event w).
Proof.
  revert w. apply (reachable_ind (λ w, ∀ event, NoDup (handlers_of event w))).
  - intros b stored event. apply NoDup_nil_2.
  - intros now ev w. apply step_handlers_nodup.
Qed.

(** X6.  The handlers of a topic form a set: in every reachable state no
    handler occurs twice in the handlers of a topic, so an [emit] never makes
    the same call twice: a handler is called at most once for the topic and
    at most once as a wildcard handler, however often it was registered. *)
Theorem emit_calls_each_handler_once w event data :
  reachable w →
  NoDup (handlers_of event w) ∧ NoDup (emitted event data w).
Proof.
  intros Hw. pose proof (reachable_handlers_nodup w Hw) as Hnd.
  split; [done|]. rewrite emitted_handlers. apply NoDup_app. split_and!.
  - apply NoDup_fmap_2; [|done]. by intros h h' [= ->].
  - intros [h a] (x & [= -> ->] & _)%list_elem_of_fmap (y & [= _] & _)%list_elem_of_fmap.
  - apply NoDup_fmap_2; [|done]. by intros h h' [= ->].
Qed.

(** X6, instance: handler 1 is registered twice for ['connected'], as a
    wildcard handler too, and handler 2 once. *)
Lemma emit_calls_each_handler_once_witness :
  let w := run [(0, CallOn "connected" 1%nat); (1, CallOn "connected" 2%nat);
                (2, CallOn "connected" 1%nat); (3, CallOn "*" 1%nat)]
             (init plain_browser ∅) in
  reachable w ∧ NoDup (emitted "connected" DUndefined w) ∧
  emitted "connected" DUndefined w
  = [(1%nat, Plain DUndefined); (2%nat, Plain DUndefined);
     (1%nat, Wild "connected" DUndefined)].
Proof.
  intros w. assert (reachable w) as Hw by (by eexists _, _, _).
  split_and!; [done| |by vm_compute].
  by destruct (emit_calls_each_handler_once w "connected" DUndefined Hw).
Defined.
(** ** Starting a connection attempt *)

Lemma getWsUrl_spec w : getWsUrl w = (inr (ws_url (config (this w))), w).
Proof. done. Qed.

Lemma lookup_allocated {A} (l : list A) x : (l ++ [x]) !! length l = Some x.
Proof. by rewrite lookup_app_r, Nat.sub_diag by lia. Qed.

(** The attempt [connect] starts when [new WebSocket] accepts the address. *)
Lemma connect_dials w :
  connectPromise (this w) = None →
  url_valid (browser w) (ws_url (config (this w))) = true →
  connect w =
  (inr (length (promises w)),
   {| browser := browser w;
      this := set_connectPromise (Some (length (promises w)))
                (set_ws (Some (length (sockets w)))
                   (set_connectionAttempts (S (connectionAttempts (this w))) (this w)));
      sockets := sockets w ++
                 [{| readyState := CONNECTING;
                     s_closures := Some (nextTimer w, length (promises w)) |}];
      promises := promises w ++ [{| state := Pending; reactions := 0 |}];
      timers := <[nextTimer w := ConnectionTimeout (length (promises w))]> (timers w);
      nextTimer := S (nextTimer w);
      localStorage := localStorage w;
      microtasks := microtasks w;
      clock := clock w;
      log := log w ++ connecting_log w ++
             [EWsNew (length (sockets w)) (ws_url (config (this w)));
              ESetTimeout (nextTimer w) 10000] |}).
Proof.
  intros Hnone Hvalid.
  destruct w as [b [k cfg conn n reqs hs rt pi lp ca mx cn dev cp] socks proms tms nt st mt
                   now l].
  cbn in Hnone, Hvalid. subst cp. unfold connect, connecting_log, ws_url in *. mrun.
  rewrite Hvalid. mrun. rewrite <- !app_assoc. cbn [app].
  rewrite alter_app_r_alt, Nat.sub_diag by lia. reflexivity.
Qed.

(** The attempt [connect] makes when [new WebSocket] throws. *)
Lemma connect_refused w :
  connectPromise (this w) = None →
  url_valid (browser w) (ws_url (config (this w))) = false →
  connect w =
  (inr (length (promises w)),
   {| browser := browser w;
      this := set_connectPromise (Some (length (promises w)))
                (set_connectionAttempts (S (connectionAttempts (this w))) (this w));
      sockets := sockets w;
      promises := promises w ++
                  [{| state := Rejected (Error "SyntaxError"); reactions := 0 |}];
      timers := timers w;
      nextTimer := nextTimer w;
      localStorage := localStorage w;
      microtasks := microtasks w;
      clock := clock w;
      log := log w ++ connecting_log w ++
             [EReject (length (promises w)) (Error "SyntaxError")] |}).
Proof.
  intros Hnone Hvalid.
  destruct w as [b [k cfg conn n reqs hs rt pi lp ca mx cn dev cp] socks proms tms nt st mt
                   now l].
  cbn in Hnone, Hvalid. subst cp. unfold connect, connecting_log, ws_url in *. mrun.
  rewrite Hvalid. mrun. unfold rejected, settled, queued. wsimpl.
  rewrite lookup_allocated. cbn [state reactions]. rewrite <- !app_assoc. cbn [app].
  rewrite Nat.add_0_r.
  rewrite insert_app_r_alt, Nat.sub_diag by lia. reflexivity.
Qed.

(** X7.  A call of [connect] that finds no attempt in flight, with an
    address the [WebSocket] constructor accepts, returns a new pending
    promise and starts one attempt: it counts the attempt, invokes the
    ['connecting'] handlers with the attempt number and the address, then
    opens one socket to the address built from the configuration and arms the
    10 s connection timer; the socket becomes the client's handle and
    [getConnectionState] is ['connecting']. *)
Theorem connect_dials_configured_address w :
  connectPromise (this w) = None →
  url_valid (browser w) (ws_url (config (this w))) = true →
  let p := length (promises w) in
  let k := length (sockets w) in
  let w' := exec connect w in
  connect w = (inr p, w') ∧
  log w' = log w ++ connecting_log w ++
           [EWsNew k (ws_url (config (this w))); ESetTimeout (nextTimer w) 10000] ∧
  invocations (connecting_log w) =
    emitted "connecting"
      (DConnecting (S (connectionAttempts (this w))) (ws_url (config (this w)))) w ∧
  connectionAttempts (this w') = S (connectionAttempts (this w)) ∧
  connectPromise (this w') = Some p ∧
  state <$> promises w' !! p = Some Pending ∧
  ws (this w') = Some k ∧
  sockets w' !! k = Some {| readyState := CONNECTING;
                            s_closures := Some (nextTimer w, p) |} ∧
  timers w' !! nextTimer w = Some (ConnectionTimeout p) ∧
  getConnectionState w' = "connecting".
Proof.
  intros Hnone Hvalid p k w'. unfold w', exec. rewrite (connect_dials w Hnone Hvalid).
  subst p k. cbn [snd]. unfold getConnectionState. wsimpl.
  rewrite !lookup_allocated, lookup_insert_eq. done.
Qed.

(** X7, instance: a fresh client that was given a host. *)
Lemma connect_dials_configured_address_witness :
  let w := exec (configure gateway_config) (init plain_browser ∅) in
  connectPromise (this w) = None ∧
  url_valid (browser w) (ws_url (config (this w))) = true ∧
  log (exec connect w) =
    [EWsNew 0%nat "ws://gateway.local:18789/ws"; ESetTimeout 1%nat 10000].
Proof.
  intros w.
  destruct (connect_dials_configured_address w eq_refl eq_refl) as (_ & -> & _).
  by vm_compute.
Defined.

(** X8.  When the [WebSocket] constructor throws, [connect] returns a
    promise that is already rejected, without a socket or a timer, and
    records this promise as the attempt in flight.  Every later [connect]
    then returns that rejected promise and does nothing, also after
    [configure] has changed the address; only [disconnect] (or the close
    event of an older socket) clears it. *)
Theorem failed_connect_is_sticky w :
  connectPromise (this w) = None →
  url_valid (browser w) (ws_url (config (this w))) = false →
  let p := length (promises w) in
  let w' := exec connect w in
  connect w = (inr p, w') ∧
  state <$> promises w' !! p = Some (Rejected (Error "SyntaxError")) ∧
  opened (log w') = opened (log w) ∧ armed (log w') = armed (log w) ∧
  ws (this w') = ws (this w) ∧
  connectPromise (this w') = Some p ∧
  connect w' = (inr p, w') ∧
  (∀ patch, connect (exec (configure patch) w') = (inr p, exec (configure patch) w')) ∧
  connectPromise (this (exec disconnect w')) = None.
Proof.
  intros Hnone Hvalid p w'. unfold w', exec. rewrite (connect_refused w Hnone Hvalid).
  subst p. cbn [snd]. wsimpl. rewrite lookup_allocated. split_and!; try done;
    first
      [ unfold connecting_log; by rewrite !opened_app, opened_emit, !app_nil_r
      | unfold connecting_log; by rewrite !armed_app, armed_emit, !app_nil_r
      | by apply connect_inflight
      | intros patch; by apply connect_inflight
      | by rewrite disconnect_spec ].
Qed.

(** X8, instance: a client without a host, in a browser that refuses the
    address ["ws://:18789/ws"]. *)
Lemma failed_connect_is_sticky_witness :
  let w := init hostless_browser ∅ in
  connectPromise (this w) = None ∧
  url_valid (browser w) (ws_url (config (this w))) = false ∧
  connect (exec (configure gateway_config) (exec connect w))
  = (inr 0%nat, exec (configure gateway_config) (exec connect w)).
Proof.
  intros w.
  destruct (failed_connect_is_sticky w eq_refl eq_refl) as (_ & _ & _ & _ & _ & _ & _ & H & _).
  split_and!; [done..|]. apply H.
Defined.
(** ** The device identifier *)




(** ** Request identifiers are unique *)

Lemma string_app_inv_head (a b b' : string) : a +:+ b = a +:+ b' → b = b'.
Proof. induction a as [|c a IH]; cbn; [done|]. intros [= ?]. auto. Qed.

Lemma request_id_inj n t n' t' :
  request_id n t = request_id n' t' → n = n' ∧ t = t'.
Proof.
  intros Heq. pose proof (request_id_counter _ _ _ _ Heq) as ->. split; [done|].
  unfold request_id in Heq. apply string_app_inv_head in Heq.
  apply string_app_inv_head in Heq. apply string_app_inv_head in Heq.
  by apply (inj pretty).
Qed.

Ltac counter_leaf :=
  repeat match goal with
         | |- context [set_this (match ?x with _ => _ end) _] => destruct x
         end;
  wsimpl; lia.

Lemma task_counter_mono n ev :
  preserves (λ w, (n ≤ requestId (this w))%nat) (task ev).
Proof. destruct ev; unfold_all_ops; pres; counter_leaf. Qed.

Lemma microtaskCheckpoint_counter_mono n :
  preserves (λ w, (n ≤ requestId (this w))%nat) microtaskCheckpoint.
Proof. unfold_all_ops; pres; counter_leaf. Qed.

Lemma run_counter_mono evs w : (requestId (this w) ≤ requestId (this (run evs w)))%nat.
Proof.
  apply (run_preserves (λ w', (requestId (this w) ≤ requestId (this w'))%nat)); [|done].
  intros now ev w' Hw'. apply step_preserves; [done|..|done].
  - apply task_counter_mono.
  - apply microtaskCheckpoint_counter_mono.
Qed.

(** X10.  A request identifier determines the counter value and the time it
    was made from, and the counter never decreases: the identifiers
    [nextId] returns are pairwise different, also when they are made in the
    same millisecond. *)
Theorem request_ids_are_unique :
  (∀ n t n' t', request_id n t = request_id n' t' → n = n' ∧ t = t') ∧
  (∀ w evs, (nextId w).1 ≠ (nextId (run evs (exec nextId w))).1).
Proof.
  split; [apply request_id_inj|]. intros w evs.
  pose proof (run_counter_mono evs (exec nextId w)) as Hmono.
  unfold exec in *. rewrite !nextId_spec in *. cbn [fst snd] in *.
  revert Hmono. wsimpl. intros Hmono Heq. apply (inj inr) in Heq.
  apply request_id_inj in Heq as [Hn _]. lia.
Qed.

(** X11.  In every reachable state the identifier [nextId] is about to
    return is not a key of the pending-request map: [send] and the connect
    request never overwrite the entry of a request that is still pending. *)
Theorem fresh_id_is_not_pending w :
  reachable w →
  ∀ id w', nextId w = (inr id, w') → pendingRequests (this w') !! id = None.
Proof.
  intros (C & R & [_ _ _ _ _ Hkeys _ _ _ _] & _)%reachable_cinv id w'.
  rewrite nextId_spec. intros Heq. apply pair_equal_spec in Heq as [Hid <-].
  apply (inj inr) in Hid as <-. wsimpl.
  destruct (pendingRequests (this w) !! _) as [cb|] eqn:Hid; [|done].
  apply Hkeys in Hid. by apply issued_fresh in Hid.
Qed.

(** X11, instance: the session of [request_pending], with one request
    pending. *)
Lemma fresh_id_is_not_pending_witness :
  let w := run request_pending (init plain_browser ∅) in
  reachable w ∧
  pendingRequests (this w) !! "req_2_2000" = Some (PromiseCallbacks 1) ∧
  pendingRequests (this (exec nextId w)) !! "req_3_2000" = None.
Proof.
  intros w. assert (reachable w) as Hw by (by eexists _, _, _).
  split_and!; [done|by vm_compute|].
  apply (fresh_id_is_not_pending w Hw "req_3_2000" (exec nextId w)).
  by vm_compute.
Defined.
(** ** The reported connection state *)

Ltac in_list :=
  repeat first [apply list_elem_of_here | apply list_elem_of_further].

(** X12.  [isConnected()] holds exactly when [getConnectionState()] is
    ['connected']: the socket the client holds is open and the handshake is
    complete.  With an open socket and the handshake outstanding the state is
    ['authenticating'], and the state is always one of six names. *)
Theorem isConnected_iff_state_connected w :
  (isConnected w = true ↔ getConnectionState w = "connected") ∧
  (getConnectionState w = "authenticating" ↔
     connected (this w) = false ∧
     ∃ k, ws (this w) = Some k ∧ readyState <$> sockets w !! k = Some OPEN) ∧
  getConnectionState w ∈
    ["disconnected"; "connecting"; "connected"; "authenticating"; "closing"; "unknown"].
Proof.
  unfold isConnected, getConnectionState. rewrite andb_true_iff, bool_decide_eq_true.
  destruct (ws (this w)) as [k|]; cbn [mbind option_bind].
  - destruct (readyState <$> sockets w !! k) as [[]|] eqn:Hk, (connected (this w));
      (split; [split; [by intros [? ?]|by intros ?]|split; [|in_list]]);
      (split; [intros ?; first [done|split; [done|by exists k]]
              |intros (? & k' & [= <-] & ?); congruence]).
  - split; [split; [by intros [? ?]|by intros ?]|split; [|in_list]].
    split; [done|]. by intros (_ & k' & ? & _).
Qed.
(** ** Inbound frames *)

Lemma emit_twice event event' data w :
  (emit event data;; emit event' data) w =
  (inr (), set_log (log w ++
                    emit_log (browser w) (eventHandlers (this w)) event data ++
                    emit_log (browser w) (eventHandlers (this w)) event' data) w).
Proof.
  unfold mbind, M_bind. rewrite emit_spec, emit_spec. wsimpl.
  by rewrite <- app_assoc.
Qed.

(** X13.  A server event other than the challenge is relayed and changes
    nothing else: its handlers and the wildcard handlers are invoked with the
    payload, and for ['cron.job.started'], ['cron.job.completed'] and
    ['session.message'] the handlers of ['job_started'], ['job_completed']
    and ['session_message'] follow, and the wildcard handlers are invoked a
    second time, now with the second name. *)
Theorem server_events_are_relayed event payload connect w :
  event ≠ "connect.challenge" →
  ∃ l,
    handleMessage (FEvent event payload) connect w = (inr (), set_log (log w ++ l) w) ∧
    invocations l =
      emitted event (DPayload payload) w ++
      match event_alias event with
      | Some name => emitted name (DPayload payload) w
      | None => []
      end.
Proof.
  intros Hev%String.eqb_neq. unfold handleMessage, event_alias. rewrite Hev.
  destruct (String.eqb event "cron.job.started");
    [|destruct (String.eqb event "cron.job.completed");
      [|destruct (String.eqb event "session.message")]];
    try (rewrite emit_twice; eexists; split; [reflexivity|];
         by rewrite invocations_app).
  unfold mbind, M_bind. rewrite emit_spec. cbn. eexists. split; [reflexivity|].
  by rewrite app_nil_r.
Qed.

(** X13, instance: a wildcard handler sees a started job twice. *)
Lemma server_events_are_relayed_witness :
  "cron.job.started" ≠ "connect.challenge" ∧
  let w := exec (on "*" 7%nat) (init plain_browser ∅) in
  invocations (log (exec (handleMessage (FEvent "cron.job.started" None) None) w))
  = [(7%nat, Wild "cron.job.started" (DPayload None));
     (7%nat, Wild "job_started" (DPayload None))].
Proof.
  split; [done|]. intros w.
  destruct (server_events_are_relayed "cron.job.started" None None w) as (l & Hrun & Hl);
    [done|].
  unfold exec. rewrite Hrun. cbn [snd]. wsimpl. rewrite invocations_app, Hl. done.
Defined.

(** X14.  Frames that are dropped: a frame of an unknown type changes
    nothing (it is only written to the console with [console.log]); a pong
    only records the time; and a response that is no hello-ok, carries no
    error (or is marked ok) and names no pending request changes nothing
    either, so the late answer to a request that has timed out is ignored. *)
Theorem unmatched_frames_are_dropped w :
  (∀ type connect, handleMessage (FOther type) connect w = (inr (), w)) ∧
  (∀ connect, handleMessage FPong connect w
              = (inr (), set_this (set_lastPong (Some (clock w)) (this w)) w)) ∧
  (∀ id ok payload error connect,
     payload ≫= p_type ≠ Some "hello-ok" →
     ok = true ∨ error = None →
     tracked id w = None →
     handleMessage (FRes id ok payload error) connect w = (inr (), w)).
Proof.
  split_and!; [done..|]. intros id ok payload error connect Hhello Hok Hid.
  unfold handleMessage, handleResponse, mbind, M_bind, pendingGet, getThis, gets.
  unfold tracked in Hid. rewrite Hid. rewrite bool_decide_eq_false_2 by done.
  cbn [is_some]. rewrite andb_false_r.
  by destruct Hok as [-> | ->]; cbn; rewrite ?andb_false_r.
Qed.

(** X14, instance: an answer nobody waits for arrives in the session of
    [request_pending]. *)
Lemma unmatched_frames_are_dropped_witness :
  let w := run request_pending (init plain_browser ∅) in
  tracked (Some "req_9_9") w = None ∧
  handleMessage (FRes (Some "req_9_9") true None None) (Some 0%nat) w = (inr (), w).
Proof.
  intros w. assert (tracked (Some "req_9_9") w = None) as Hid by (by vm_compute).
  split; [done|]. destruct (unmatched_frames_are_dropped w) as (_ & _ & Hres).
  apply Hres; [done|by left|done].
Defined.
(** ** The connect request *)





(** ** Exceptions are contained *)

Lemma returns_ret {A} (a : A) : returns (mret a).
Proof. intros w. by eexists _, _. Qed.

Lemma returns_gets {A} (f : World → A) : returns (gets f).
Proof. intros w. by eexists _, _. Qed.

Lemma returns_modify f : returns (modify f).
Proof. intros w. by eexists _, _. Qed.

Lemma returns_bind {A B} (m : M A) (k : A → M B) :
  returns m → (∀ a, returns (k a)) → returns (m ≫= k).
Proof.
  intros Hm Hk w. destruct (Hm w) as (a & w' & Hrun). unfold mbind, M_bind.
  rewrite Hrun. apply Hk.
Qed.

(** A [try] block whose handler does not throw contains whatever its body
    throws. *)
Lemma returns_try_catch {A} (m : M A) h :
  (∀ e, returns (h e)) → returns (try_catch m h).
Proof.
  intros Hh w. unfold try_catch. destruct (m w) as [[e|a] w']; [apply Hh|by eexists _, _].
Qed.

Lemma returns_forEach {A} (l : list A) f :
  (∀ x, returns (f x)) → returns (forEach l f).
Proof.
  intros Hf. induction l as [|x l IH]; [apply returns_ret|].
  cbn [forEach]. apply returns_bind; auto.
Qed.

Lemma returns_emit event data : returns (emit event data).
Proof. intros w. rewrite emit_spec. by eexists _, _. Qed.

(** The heartbeat writes to the socket only after it has seen it open. *)
Lemma returns_pingTick : returns pingTick.
Proof.
  intros w.
  destruct w as [b [k cfg conn n reqs hs rt pi lp ca mx cn dev cp] socks proms tms nt st mt
                   now l].
  unfold pingTick. mexec. destruct k as [k|]; mexec; [|by eexists _, _].
  destruct (socks !! k) as [[[] ?]|] eqn:Hk; mexec; try (by eexists _, _).
  destruct (truthy_number lp && (now - default 0 lp >? 60000)); mexec; rewrite ?Hk; mexec;
    by eexists _, _.
Qed.

Create HintDb nothrow.

#[local] Hint Resolve returns_ret returns_gets returns_modify returns_emit
  returns_pingTick : nothrow.

(** Splits a [returns] goal along the structure of the task; a [try] block
    is entered through its handler only. *)
Ltac nothrow_step :=
  lazymatch goal with
  | |- returns (_ ≫= _) => apply returns_bind; [|intros ?]
  | |- returns (try_catch _ _) => apply returns_try_catch; intros ?
  | |- returns (forEach _ _) => apply returns_forEach; intros ?
  | |- returns (getThis _) => apply returns_gets
  | |- returns Date_now => apply returns_gets
  | |- returns (setThis _) => apply returns_modify
  | |- returns (tell _) => apply returns_modify
  | |- returns (console_error _) => apply returns_modify
  | |- returns (when ?b _) => destruct b; cbn [when]
  | |- returns (match ?x with _ => _ end) => destruct x
  | |- returns (let _ := _ in _) => cbv zeta
  end.

Ltac nothrow := repeat first [ solve [eauto with nothrow] | nothrow_step ].

Ltac unfold_caught_ops :=
  unfold task, socketEvent, runTimer, microtaskCheckpoint, reconnectFailed,
    reconnectTimeout, scheduleReconnect, disconnect, onerror, onclose, onmessage,
    onopen, connectionTimeout, startPing, stopPing, requestTimeout, send, connect,
    newPromise, allocPromise, configure, off, on, wsClose, wsReadyState,
    setReadyState, clearTimer, setInterval, setTimeout, armTimer, catch_reconnect,
    reject, resolve.

(** X16.  No task of the client ends with an exception: whatever the state,
    every call of the public interface that is a task ([configure],
    [connect], [disconnect], [send], [scheduleReconnect], [on], [off],
    [emit]), every socket event and every timer returns normally, and so do
    the rejection handlers that run after it.  What the handlers of an
    event, the [WebSocket] constructor or [ws.send] throw is caught on the
    way. *)
Theorem tasks_never_throw :
  (∀ ev w, ∃ w', task ev w = (inr (), w')) ∧
  (∀ w, ∃ w', microtaskCheckpoint w = (inr (), w')).
Proof.
  assert (∀ ev, returns (task ev)) as Htask.
  { intros ev. destruct ev; unfold_caught_ops; nothrow. }
  assert (returns microtaskCheckpoint) as Hmicro by (unfold_caught_ops; nothrow).
  split.
  - intros ev w. destruct (Htask ev w) as ([] & w' & ?). by exists w'.
  - intros w. destruct (Hmicro w) as ([] & w' & ?). by exists w'.
Qed.
(** ** Timers *)

Lemma stopPing_spec w : stopPing w = (inr (), stopped w).
Proof.
  destruct w as [b [k cfg conn n reqs hs rt [t|] lp ca mx cn dev cp] socks proms tms nt st
                   mt now l]; unfold stopPing, stopped; mexec; reflexivity.
Qed.

Lemma startPing_world w : startPing w = (inr (), heartbeat_started w).
Proof.
  unfold startPing. unfold mbind at 1, M_bind at 1. rewrite stopPing_spec.
  unfold heartbeat_started.
  assert (nextTimer (stopped w) = nextTimer w ∧ clock (stopped w) = clock w) as [Hn Hc].
  { unfold stopped. by destruct (pingInterval (this w)). }
  rewrite <- Hn, <- Hc. by destruct (stopped w) as [? [] ? ? ? ? ? ? ? ?].
Qed.

Section TimerFrame.

Context (w : World) (Hw : timers_inv w).

Lemma tinv_log l : timers_inv (set_log l w).
Proof. by destruct Hw. Qed.

Lemma tinv_clock now : timers_inv (set_clock now w).
Proof. by destruct Hw. Qed.

Lemma tinv_microtasks n : timers_inv (set_microtasks n w).
Proof. by destruct Hw. Qed.

Lemma tinv_localStorage st : timers_inv (set_localStorage st w).
Proof. by destruct Hw. Qed.

Lemma tinv_promises proms : timers_inv (set_promises proms w).
Proof. by destruct Hw. Qed.

Lemma tinv_this c :
  pingInterval c = pingInterval (this w) →
  reconnectTimer c = reconnectTimer (this w) →
  (∀ id p, pendingRequests c !! id = Some (PromiseCallbacks p) →
           pendingRequests (this w) !! id = Some (PromiseCallbacks p)) →
  timers_inv (set_this c w).
Proof.
  intros Hpi Hrt Hreqs. destruct Hw as [Hb Hp Hr Hc Hq].
  split; wsimpl; rewrite ?Hpi, ?Hrt; auto.
Qed.

Lemma tinv_sockets socks :
  (∀ k t p, closure_of k t p (set_sockets socks w) → ∃ k', closure_of k' t p w) →
  timers_inv (set_sockets socks w).
Proof.
  intros Hs. destruct Hw as [Hb Hp Hr Hc Hq]. split; wsimpl; auto.
  intros k t p (k' & Hk')%Hs. by eapply Hc.
Qed.

(** Arming a connection timer or a request timer. *)
Lemma tinv_arm c :
  c ≠ PingTick → c ≠ ReconnectTimeout →
  timers_inv (set_nextTimer (S (nextTimer w))
                (set_timers (<[nextTimer w := c]> (timers w)) w)).
Proof.
  intros Hping Hrec. destruct Hw as [Hb Hp Hr Hc Hq]. split; wsimpl.
  - intros t c' [[<- _]|[_ ?%Hb]]%lookup_insert_Some; lia.
  - intros t. rewrite <- Hp. rewrite lookup_insert_Some. split.
    + intros [[_ ?]|[_ ?]]; done.
    + intros Ht. right. split; [|done]. apply Hb in Ht. lia.
  - intros t. rewrite <- Hr. rewrite lookup_insert_Some. split.
    + intros [[_ ?]|[_ ?]]; done.
    + intros Ht. right. split; [|done]. apply Hb in Ht. lia.
  - intros k t p [Hlt Ht]%Hc. split; [lia|].
    by rewrite lookup_insert_ne by lia.
  - intros id p (t & Ht)%Hq. exists t. rewrite lookup_insert_ne; [done|].
    apply Hb in Ht. lia.
Qed.

(** Clearing a timer that is gone or is a connection timer. *)
Lemma tinv_clear t :
  (timers w !! t = None ∨ ∃ p, timers w !! t = Some (ConnectionTimeout p)) →
  timers_inv (set_timers (delete t (timers w)) w).
Proof.
  intros Ht. destruct Hw as [Hb Hp Hr Hc Hq].
  assert (∀ t' c, timers w !! t' = Some c → (∀ p, c ≠ ConnectionTimeout p) → t' ≠ t)
    as Hne.
  { intros t' c Ht' Hc' ->. destruct Ht as [Ht|[p Ht]]; [congruence|].
    rewrite Ht in Ht'. injection Ht' as <-. by eapply Hc'. }
  split; wsimpl.
  - intros t' c [_ ?]%lookup_delete_Some. eauto.
  - intros t'. rewrite <- Hp, lookup_delete_Some. split; [by intros [_ ?]|].
    intros Ht'. split; [|done]. symmetry. by eapply Hne.
  - intros t'. rewrite <- Hr, lookup_delete_Some. split; [by intros [_ ?]|].
    intros Ht'. split; [|done]. symmetry. by eapply Hne.
  - intros k t' p [Hlt Ht']%Hc. split; [done|].
    destruct (decide (t' = t)) as [->|?]; [left; apply lookup_delete_eq|].
    by rewrite lookup_delete_ne.
  - intros id p (t' & Ht')%Hq. exists t'. rewrite lookup_delete_ne; [done|].
    symmetry. by eapply Hne.
Qed.

(** Clearing the heartbeat interval, and the reconnect timer. *)
Lemma tinv_clear_ping t :
  pingInterval (this w) = Some t →
  timers_inv (set_this (set_pingInterval None (this w))
                (set_timers (delete t (timers w)) w)).
Proof.
  intros Ht. destruct Hw as [Hb Hp Hr Hc Hq]. pose proof (proj2 (Hp t) Ht) as Hping.
  split; wsimpl.
  - intros t' c [_ ?]%lookup_delete_Some. eauto.
  - intros t'. rewrite lookup_delete_Some. split; [|done].
    intros [Hne Ht']. apply Hp in Ht'. congruence.
  - intros t'. rewrite <- Hr, lookup_delete_Some. split; [by intros [_ ?]|].
    intros Ht'. split; [|done]. intros ->. congruence.
  - intros k t' p [Hlt Ht']%Hc. split; [done|].
    destruct (decide (t' = t)) as [->|?]; [left; apply lookup_delete_eq|].
    by rewrite lookup_delete_ne.
  - intros id p (t' & Ht')%Hq. exists t'. rewrite lookup_delete_ne; [done|].
    intros ->. congruence.
Qed.

Lemma tinv_clear_reconnect t :
  reconnectTimer (this w) = Some t →
  timers_inv (set_this (set_reconnectTimer None (this w))
                (set_timers (delete t (timers w)) w)).
Proof.
  intros Ht. destruct Hw as [Hb Hp Hr Hc Hq]. pose proof (proj2 (Hr t) Ht) as Hrec.
  split; wsimpl.
  - intros t' c [_ ?]%lookup_delete_Some. eauto.
  - intros t'. rewrite <- Hp, lookup_delete_Some. split; [by intros [_ ?]|].
    intros Ht'. split; [|done]. intros ->. congruence.
  - intros t'. rewrite lookup_delete_Some. split; [|done].
    intros [Hne Ht']. apply Hr in Ht'. congruence.
  - intros k t' p [Hlt Ht']%Hc. split; [done|].
    destruct (decide (t' = t)) as [->|?]; [left; apply lookup_delete_eq|].
    by rewrite lookup_delete_ne.
  - intros id p (t' & Ht')%Hq. exists t'. rewrite lookup_delete_ne; [done|].
    intros ->. congruence.
Qed.

(** Arming the heartbeat interval, and the reconnect timer. *)
Lemma tinv_arm_ping :
  pingInterval (this w) = None →
  timers_inv (set_this (set_pingInterval (Some (nextTimer w)) (this w))
                (set_nextTimer (S (nextTimer w))
                   (set_timers (<[nextTimer w := PingTick]> (timers w)) w))).
Proof.
  intros Hnone. destruct Hw as [Hb Hp Hr Hc Hq]. split; wsimpl.
  - intros t c' [[<- _]|[_ ?%Hb]]%lookup_insert_Some; lia.
  - intros t. rewrite lookup_insert_Some. split.
    + intros [[-> _]|[_ Ht%Hp]]; [done|congruence].
    + intros [= <-]. by left.
  - intros t. rewrite <- Hr. rewrite lookup_insert_Some. split.
    + intros [[_ ?]|[_ ?]]; done.
    + intros Ht. right. split; [|done]. apply Hb in Ht. lia.
  - intros k t p [Hlt Ht]%Hc. split; [lia|].
    by rewrite lookup_insert_ne by lia.
  - intros id p (t & Ht)%Hq. exists t. rewrite lookup_insert_ne; [done|].
    apply Hb in Ht. lia.
Qed.

Lemma tinv_arm_reconnect :
  reconnectTimer (this w) = None →
  timers_inv (set_this (set_reconnectTimer (Some (nextTimer w)) (this w))
                (set_nextTimer (S (nextTimer w))
                   (set_timers (<[nextTimer w := ReconnectTimeout]> (timers w)) w))).
Proof.
  intros Hnone. destruct Hw as [Hb Hp Hr Hc Hq]. split; wsimpl.
  - intros t c' [[<- _]|[_ ?%Hb]]%lookup_insert_Some; lia.
  - intros t. rewrite <- Hp. rewrite lookup_insert_Some. split.
    + intros [[_ ?]|[_ ?]]; done.
    + intros Ht. right. split; [|done]. apply Hb in Ht. lia.
  - intros t. rewrite lookup_insert_Some. split.
    + intros [[-> _]|[_ Ht%Hr]]; [done|congruence].
    + intros [= <-]. by left.
  - intros k t p [Hlt Ht]%Hc. split; [lia|].
    by rewrite lookup_insert_ne by lia.
  - intros id p (t & Ht)%Hq. exists t. rewrite lookup_insert_ne; [done|].
    apply Hb in Ht. lia.
Qed.

(** Removing the timer of a request that is not tracked. *)
Lemma tinv_clear_request t id p :
  timers w !! t = Some (RequestTimeout id p) →
  pendingRequests (this w) !! id ≠ Some (PromiseCallbacks p) →
  timers_inv (set_timers (delete t (timers w)) w).
Proof.
  intros Ht Hid. destruct Hw as [Hb Hp Hr Hc Hq]. split; wsimpl.
  - intros t' c [_ ?]%lookup_delete_Some. eauto.
  - intros t'. rewrite <- Hp, lookup_delete_Some. split; [by intros [_ ?]|].
    intros Ht'. split; [|done]. intros ->. congruence.
  - intros t'. rewrite <- Hr, lookup_delete_Some. split; [by intros [_ ?]|].
    intros Ht'. split; [|done]. intros ->. congruence.
  - intros k t' p' [Hlt Ht']%Hc. split; [done|].
    destruct (decide (t' = t)) as [->|?]; [left; apply lookup_delete_eq|].
    by rewrite lookup_delete_ne.
  - intros id' p' Hid'. destruct (Hq id' p' Hid') as (t' & Ht'). exists t'.
    rewrite lookup_delete_ne; [done|]. intros ->. congruence.
Qed.

(** Tracking a request whose timer is armed. *)
Lemma tinv_register t id p :
  timers w !! t = Some (RequestTimeout id p) →
  timers_inv (set_this (set_pendingRequests
                          (<[id := PromiseCallbacks p]> (pendingRequests (this w)))
                          (this w)) w).
Proof.
  intros Ht. destruct Hw as [Hb Hp Hr Hc Hq]. split; wsimpl; auto.
  intros id' p' [[<- [= <-]]|[_ ?]]%lookup_insert_Some; eauto.
Qed.

(** A socket whose closures hold an armed connection timer. *)
Lemma tinv_new_socket r t p :
  timers w !! t = Some (ConnectionTimeout p) →
  timers_inv (set_sockets
                (sockets w ++ [{| readyState := r; s_closures := Some (t, p) |}]) w).
Proof.
  intros Ht. destruct Hw as [Hb Hp Hr Hc Hq]. split; wsimpl; auto.
  intros k t' p' (s & [Hk|[_ Hk]]%lookup_app_Some & Hs).
  - apply (Hc k). by exists s.
  - destruct (k - length (sockets w))%nat; [|done]. injection Hk as <-.
    injection Hs as <- <-. split; [by eapply Hb|by right].
Qed.

(** [clearTimeout] of what the client holds as heartbeat interval or as
    reconnect timer, if anything. *)
Lemma tinv_cancel_ping :
  timers_inv (set_this (set_pingInterval None (this w))
                (set_timers (cancel (pingInterval (this w)) (timers w)) w)).
Proof.
  destruct (pingInterval (this w)) as [t|] eqn:Ht; cbn [cancel].
  - by apply tinv_clear_ping.
  - pose proof (tinv_this (set_pingInterval None (this w))) as H.
    cbn in H. rewrite Ht in H. specialize (H eq_refl eq_refl (λ _ _ H, H)).
    by destruct w.
Qed.

Lemma tinv_cancel_reconnect :
  timers_inv (set_this (set_reconnectTimer None (this w))
                (set_timers (cancel (reconnectTimer (this w)) (timers w)) w)).
Proof.
  destruct (reconnectTimer (this w)) as [t|] eqn:Ht; cbn [cancel].
  - by apply tinv_clear_reconnect.
  - pose proof (tinv_this (set_reconnectTimer None (this w))) as H.
    cbn in H. rewrite Ht in H. specialize (H eq_refl eq_refl (λ _ _ H, H)).
    by destruct w.
Qed.

(** Changing the ready state of a socket. *)
Lemma tinv_alter_state (f : Socket → Socket) k :
  (∀ s, s_closures (f s) = s_closures s) →
  timers_inv (set_sockets (alter f k (sockets w)) w).
Proof.
  intros Hf. apply tinv_sockets. intros k' t p (s & Hk & Hs). wsimpl_all.
  apply lookup_alter_socket in Hk as (s0 & Hk & [->| ->]); exists k', s0;
    by rewrite ?Hf in Hs.
Qed.

Lemma tinv_closing k : timers_inv (set_sockets (closing k (sockets w)) w).
Proof.
  unfold closing. destruct (readyState <$> sockets w !! k) as [[]|];
    first [by apply tinv_alter_state | by destruct w].
Qed.

End TimerFrame.

Lemma tinv_stopped w : timers_inv w → timers_inv (stopped w).
Proof.
  intros Hw. unfold stopped. destruct (pingInterval (this w)) as [t|] eqn:Ht; [|done].
  exact (tinv_clear_ping _ (tinv_log w Hw (log w ++ [EClearTimer t])) t Ht).
Qed.

Lemma tinv_heartbeat_started w : timers_inv w → timers_inv (heartbeat_started w).
Proof.
  intros Hw%tinv_stopped. unfold heartbeat_started.
  assert (nextTimer (stopped w) = nextTimer w ∧ pingInterval (this (stopped w)) = None)
    as [Hn Hnone].
  { unfold stopped. by destruct (pingInterval (this w)) eqn:Hpi. }
  rewrite <- Hn. generalize dependent (stopped w). intros w1 Hw1 _ Hnone.
  pose proof (tinv_arm_ping w1 Hw1 Hnone) as H2.
  pose proof (tinv_this _ H2
                (set_pingInterval (Some (nextTimer w1))
                   (set_lastPong (Some (clock w)) (this w1)))
                eq_refl eq_refl (λ _ _ H, H)) as H3.
  exact (tinv_log _ H3 (log w1 ++ [ESetInterval (nextTimer w1) 25000])).
Qed.
(** ** Timers: the tasks *)

Lemma tinv_stopPing : preserves timers_inv stopPing.
Proof. intros w Hw. rewrite stopPing_spec. by apply tinv_stopped. Qed.

Lemma tinv_startPing : preserves timers_inv startPing.
Proof. intros w Hw. rewrite startPing_world. by apply tinv_heartbeat_started. Qed.

Lemma tinv_scheduleReconnect : preserves timers_inv scheduleReconnect.
Proof.
  intros w Hw. destruct (reconnectTimer (this w)) as [t|] eqn:Ht.
  { by rewrite (scheduleReconnect_armed w t). }
  destruct (decide (maxReconnectAttempts (this w) ≤ connectionAttempts (this w))%nat).
  - rewrite scheduleReconnect_exhausted by done. by apply tinv_log.
  - rewrite scheduleReconnect_arms by (done || lia).
    pose proof (tinv_arm_reconnect w Hw Ht) as H1.
    exact (tinv_log _ H1 (log w ++ [ESetTimeout (nextTimer w)
                                      (reconnectDelay (connectionAttempts (this w)))])).
Qed.

Lemma tinv_disconnected w : timers_inv w → timers_inv (disconnected w).
Proof.
  intros Hw.
  pose proof (tinv_cancel_ping w Hw) as H1.
  pose proof (tinv_cancel_reconnect _ H1) as H2.
  assert (timers_inv
            (set_sockets
               match ws (this w) with
               | Some k => closing k (sockets w)
               | None => sockets w
               end
               (set_this (set_reconnectTimer None (set_pingInterval None (this w)))
                  (set_timers
                     (cancel (reconnectTimer (this w))
                        (cancel (pingInterval (this w)) (timers w))) w)))) as H3.
  { destruct (ws (this w)) as [k|]; [exact (tinv_closing _ H2 k)|].
    exact (tinv_sockets _ H2 (sockets w) (λ k t p H, ex_intro _ k H)). }
  pose proof (tinv_this _ H3
    (set_pendingRequests ∅ (set_connectPromise None (set_connected false (set_ws None
       (set_reconnectTimer None (set_connectionAttempts 0%nat
          (set_pingInterval None (this w))))))))
    eq_refl eq_refl) as H4.
  assert (∀ id p, (∅ : gmap string Callbacks) !! id = Some (PromiseCallbacks p) →
            pendingRequests (this w) !! id = Some (PromiseCallbacks p)) as Hempty.
  { intros id p. by rewrite lookup_empty. }
  exact (tinv_log _ (H4 Hempty)
           (log w ++ cleared (pingInterval (this w)) ++ cleared (reconnectTimer (this w)) ++
            match ws (this w) with
            | Some k => [EWsClose k (Some 1000) (Some "User disconnect")]
            | None => []
            end)).
Qed.

Lemma tinv_disconnect : preserves timers_inv disconnect.
Proof. intros w Hw. rewrite disconnect_spec. by apply tinv_disconnected. Qed.

Lemma tinv_connect : preserves timers_inv connect.
Proof.
  intros w Hw. destruct (connectPromise (this w)) as [p|] eqn:Hp.
  { by rewrite (connect_inflight w p). }
  destruct (url_valid (browser w) (ws_url (config (this w)))) eqn:Hurl.
  - rewrite connect_dials by done.
    pose (p := length (promises w)).
    pose proof (tinv_promises w Hw (promises w ++ [{| state := Pending; reactions := 0 |}]))
      as H1.
    pose proof (tinv_arm _ H1 (ConnectionTimeout p)) as H2.
    specialize (H2 ltac:(done) ltac:(done)).
    pose proof (tinv_new_socket _ H2 CONNECTING (nextTimer w) p) as H3.
    specialize (H3 (lookup_insert_eq _ _ _)).
    pose proof (tinv_this _ H3
      (set_connectPromise (Some p) (set_ws (Some (length (sockets w)))
         (set_connectionAttempts (S (connectionAttempts (this w))) (this w))))
      eq_refl eq_refl (λ _ _ H, H)) as H4.
    exact (tinv_log _ H4
             (log w ++ connecting_log w ++
              [EWsNew (length (sockets w)) (ws_url (config (this w)));
               ESetTimeout (nextTimer w) 10000])).
  - rewrite connect_refused by done.
    pose proof (tinv_promises w Hw
      (promises w ++ [{| state := Rejected (Error "SyntaxError"); reactions := 0 |}]))
      as H1.
    pose proof (tinv_this _ H1
      (set_connectPromise (Some (length (promises w)))
         (set_connectionAttempts (S (connectionAttempts (this w))) (this w)))
      eq_refl eq_refl (λ _ _ H, H)) as H2.
    exact (tinv_log _ H2
             (log w ++ connecting_log w ++
              [EReject (length (promises w)) (Error "SyntaxError")])).
Qed.

Lemma tinv_send method params : preserves timers_inv (send method params).
Proof.
  intros w Hw. rewrite send_spec. destruct (send_allowed w) as [k|].
  - pose (p := length (promises w)).
    pose (id := request_id (S (requestId (this w))) (clock w)).
    pose proof (tinv_promises w Hw (promises w ++ [{| state := Pending; reactions := 0 |}]))
      as H1.
    pose proof (tinv_arm _ H1 (RequestTimeout id p)) as H2.
    specialize (H2 ltac:(done) ltac:(done)).
    pose proof (tinv_register _ H2 (nextTimer w) id p (lookup_insert_eq _ _ _)) as H3.
    pose proof (tinv_this _ H3
      (set_pendingRequests (<[id := PromiseCallbacks p]> (pendingRequests (this w)))
         (set_requestId (S (requestId (this w))) (this w)))
      eq_refl eq_refl (λ _ _ H, H)) as H4.
    exact (tinv_log _ H4
             (log w ++ [EWsSend k (OutReq id method params);
                        ESetTimeout (nextTimer w) 30000])).
  - unfold rejected, allocated. by apply tinv_microtasks, tinv_promises, tinv_log,
      tinv_promises.
Qed.

Lemma modify_bind {B} f (k : M B) w : (modify f;; k) w = k (f w).
Proof. done. Qed.

Lemma setThis_bind {B} g (k : M B) w : (setThis g;; k) w = k (set_this (g (this w)) w).
Proof. done. Qed.

Ltac tinv_side :=
  wsimpl; intros ? ?;
  first
    [ by intros ?
    | rewrite lookup_delete_Some; by intros [_ ?]
    | rewrite lookup_insert_Some; by intros [[_ [=]]|[_ ?]]
    | by rewrite lookup_empty ].

Ltac tinv_leaf :=
  repeat match goal with
         | |- timers_inv (set_this (match ?x with _ => _ end) _) => destruct x
         end;
  repeat first
    [ assumption
    | apply tinv_log
    | apply tinv_clock
    | apply tinv_microtasks
    | apply tinv_localStorage
    | apply tinv_promises
    | apply tinv_alter_state; [|done]
    | apply tinv_this; [|reflexivity|reflexivity|tinv_side] ].

Ltac unfold_timerless_ops :=
  unfold task, microtaskCheckpoint, reconnectFailed, onmessage, connectionTimeout,
    handleMessage, handleResponse, pingTick, sendConnectRequest, pendingDelete,
    pendingGet, callReject, callResolve, nextId, getDeviceId, getWsUrl, configure, off,
    on, getItem, setItem, wsSend, wsClose, wsReadyState, setReadyState, catch_reconnect,
    reject, resolve.

#[local] Hint Resolve tinv_stopPing tinv_startPing tinv_scheduleReconnect tinv_disconnect
  tinv_connect tinv_send : pres.

(** The connection timer that the closures of a socket hold is cleared. *)
Lemma tinv_clear_closure k t p :
  hoare (λ w, timers_inv w ∧ closure_of k t p w) (clearTimer t)
    (λ _, timers_inv) timers_inv.
Proof.
  intros w [Hw Hc]. unfold clearTimer, tell. rewrite modify_bind. cbn [modify].
  pose proof (tinv_log w Hw (log w ++ [EClearTimer t])) as H1.
  apply (tinv_clear _ H1 t). destruct Hw as [_ _ _ Hclosure _].
  destruct (Hclosure k t p Hc) as [_ [?|?]]; [by left|right; by exists p].
Qed.

Lemma closure_setReadyState k t p k' r :
  preserves (λ w, timers_inv w ∧ closure_of k t p w) (setReadyState k' r).
Proof.
  intros w [Hw (s & Hk & Hs)]. unfold setReadyState. cbn [modify]. split.
  - by apply tinv_alter_state.
  - unfold closure_of. wsimpl. rewrite list_lookup_alter. case_decide; [subst|by exists s].
    rewrite Hk. cbn. by eexists.
Qed.

Lemma tinv_onopen k t p :
  hoare (λ w, timers_inv w ∧ closure_of k t p w) (onopen t) (λ _, timers_inv) timers_inv.
Proof.
  unfold onopen. eapply hoare_bind; [apply tinv_clear_closure|]. intros [].
  fold_preserves. pres; tinv_leaf.
Qed.

Lemma tinv_onerror k t p :
  hoare (λ w, timers_inv w ∧ closure_of k t p w) (onerror t) (λ _, timers_inv) timers_inv.
Proof.
  unfold onerror. eapply hoare_bind; [apply tinv_clear_closure|]. intros [].
  fold_preserves. pres; tinv_leaf.
Qed.

Lemma tinv_onclose k t p code reason :
  hoare (λ w, timers_inv w ∧ closure_of k t p w) (onclose t p code reason)
    (λ _, timers_inv) timers_inv.
Proof.
  unfold onclose. eapply hoare_bind; [apply tinv_clear_closure|]. intros [].
  fold_preserves. unfold_timerless_ops. pres; tinv_leaf.
Qed.

Lemma tinv_onmessage p data : preserves timers_inv (onmessage p data).
Proof. unfold_timerless_ops. pres; tinv_leaf. Qed.

Lemma tinv_socket_step k t p r (m : M unit) :
  hoare (λ w, timers_inv w ∧ closure_of k t p w) m (λ _, timers_inv) timers_inv →
  hoare (λ w, timers_inv w ∧ closure_of k t p w) (setReadyState k r;; m)
    (λ _, timers_inv) timers_inv.
Proof.
  intros Hm.
  eapply hoare_bind with (Q' := λ _ w, timers_inv w ∧ closure_of k t p w);
    [|by intros []].
  eapply hoare_conseq;
    [apply (closure_setReadyState k t p)|by intros|by intros ? ? ?|by intros ? [? ?]].
Qed.

Lemma tinv_socketEvent k ev : preserves timers_inv (socketEvent k ev).
Proof.
  intros w Hw. unfold socketEvent. unfold mbind at 1, M_bind at 1, gets.
  destruct (sockets w !! k) as [[r [[t p]|]]|] eqn:Hk; try exact Hw.
  assert (timers_inv w ∧ closure_of k t p w) as Hpre.
  { split; [done|]. by eexists. }
  destruct ev, r; try exact Hw.
  - apply (tinv_socket_step k t p OPEN _ (tinv_onopen k t p) w Hpre).
  - by apply tinv_onmessage.
  - by apply (tinv_onerror k t p).
  - by apply (tinv_onerror k t p).
  - by apply (tinv_onerror k t p).
  - by apply (tinv_onerror k t p).
  - apply (tinv_socket_step k t p CLOSED _ (tinv_onclose k t p code reason) w Hpre).
  - apply (tinv_socket_step k t p CLOSED _ (tinv_onclose k t p code reason) w Hpre).
  - apply (tinv_socket_step k t p CLOSED _ (tinv_onclose k t p code reason) w Hpre).
Qed.

Lemma tinv_runTimer t : preserves timers_inv (runTimer t).
Proof.
  intros w Hw. unfold runTimer. unfold mbind at 1, M_bind at 1, gets.
  destruct (timers w !! t) as [[p|id p| |]|] eqn:Ht; [..|exact Hw].
  - rewrite modify_bind.
    assert (preserves timers_inv (connectionTimeout p)) as Hrest.
    { unfold_timerless_ops. pres; tinv_leaf. }
    apply Hrest, tinv_clear; [done|]. right. by exists p.
  - rewrite modify_bind, requestTimeout_spec. wsimpl.
    destruct (pendingRequests (this w) !! id) as [cb|] eqn:Hid; cbn [is_some].
    + unfold rejected. apply tinv_microtasks, tinv_promises, tinv_log.
      pose proof (tinv_this w Hw
        (set_pendingRequests (delete id (pendingRequests (this w))) (this w))
        eq_refl eq_refl) as H1.
      assert (timers_inv (forget (Some id) w)) as H2.
      { apply H1. intros id' p'. wsimpl. rewrite lookup_delete_Some. by intros [_ ?]. }
      apply (tinv_clear_request _ H2 t id p Ht). cbn [forget]. wsimpl.
      by rewrite lookup_delete_eq.
    + apply (tinv_clear_request _ Hw t id p Ht). by rewrite Hid.
  - assert (preserves timers_inv pingTick) as Hrest.
    { unfold_timerless_ops. pres; tinv_leaf. }
    by apply Hrest.
  - rewrite modify_bind. unfold reconnectTimeout. rewrite setThis_bind.
    assert (preserves timers_inv (p ← connect; catch_reconnect p)) as Hrest.
    { unfold_timerless_ops. pres; tinv_leaf. }
    apply Hrest. apply (tinv_clear_reconnect w Hw t). by apply Hw.
Qed.

Lemma tinv_task ev : preserves timers_inv (task ev).
Proof.
  pose proof tinv_socketEvent. pose proof tinv_runTimer.
  destruct ev; cbn [task]; try done; unfold_timerless_ops; pres; tinv_leaf.
Qed.

Lemma tinv_microtaskCheckpoint : preserves timers_inv microtaskCheckpoint.
Proof. unfold_timerless_ops. pres; tinv_leaf. Qed.

Lemma reachable_timers_inv w : reachable w → timers_inv w.
Proof.
  revert w. apply (reachable_ind timers_inv).
  - intros b stored. split; unfold init, closure_of; wsimpl; try done.
    + by intros k t p (s & ? & _).
  - intros now ev w Hw. apply step_preserves; [intros; by apply tinv_clock|..|done].
    + apply tinv_task.
    + apply tinv_microtaskCheckpoint.
Qed.
(** ** Timers: what the client can rely on *)




(** X18.  In every reachable state the timers that run the heartbeat are
    exactly the one [pingInterval] names, and the timers that will reconnect
    exactly the one [reconnectTimer] names: at most one heartbeat interval
    and at most one reconnect timer are armed, and a field that is set names
    a timer that is armed.  Timer identifiers are never reused. *)
Theorem heartbeat_and_reconnect_timers_are_unique w :
  reachable w →
  (∀ t, timers w !! t = Some PingTick ↔ pingInterval (this w) = Some t) ∧
  (∀ t, timers w !! t = Some ReconnectTimeout ↔ reconnectTimer (this w) = Some t) ∧
  (∀ t t', timers w !! t = Some PingTick → timers w !! t' = Some PingTick → t = t') ∧
  (∀ t t', timers w !! t = Some ReconnectTimeout →
           timers w !! t' = Some ReconnectTimeout → t = t') ∧
  (∀ t c, timers w !! t = Some c → (t < nextTimer w)%nat).
Proof.
  intros [Hb Hp Hr _ _]%reachable_timers_inv. split_and!; [done..| | |done].
  - intros t t' Ht%Hp Ht'%Hp. congruence.
  - intros t t' Ht%Hr Ht'%Hr. congruence.
Qed.

(** X18, instance: the authenticated session of [handshake], whose
    heartbeat is timer 2. *)
Lemma heartbeat_and_reconnect_timers_are_unique_witness :
  let w := run handshake (init plain_browser ∅) in
  reachable w ∧ pingInterval (this w) = Some 2%nat ∧
  ∀ t, timers w !! t = Some PingTick → t = 2%nat.
Proof.
  intros w. assert (reachable w) as Hw by (by eexists _, _, _).
  assert (pingInterval (this w) = Some 2%nat) as Hpi by (by vm_compute).
  split_and!; [done..|]. intros t Ht.
  destruct (heartbeat_and_reconnect_timers_are_unique w Hw) as (Hp & _).
  apply Hp in Ht. congruence.
Defined.
(** ** When requests are accepted *)



(** ** The reconnection loop *)

(** One queued rejection handler of the reconnect timer. *)
Lemma microtaskCheckpoint_one w :
  microtasks w = 1%nat →
  microtaskCheckpoint w =
  scheduleReconnect
    (set_log (log w ++ [EConsoleError "[Gateway] Reconnect failed:"]) (set_microtasks 0%nat w)).
Proof.
  intros Hw. unfold microtaskCheckpoint, mbind, M_bind, gets, modify. rewrite Hw.
  cbn [replicate forEach]. unfold reconnectFailed, console_error, tell, mbind, M_bind, modify.
  wsimpl. by destruct (scheduleReconnect _) as [[?|[]] ?].
Qed.

(** The close event of a socket whose promise carries the rejection handler
    of the reconnect timer. *)
Lemma close_rejects_attempt w k r tc p code reason :
  sockets w !! k = Some {| readyState := r; s_closures := Some (tc, p) |} →
  r ≠ CLOSED →
  promises w !! p = Some {| state := Pending; reactions := 1 |} →
  ∃ W l e,
    task (SocketClose k code reason) w = (inr (), W) ∧
    microtasks W = S (microtasks w) ∧
    this W = set_pingInterval None (set_challengeNonce None (set_connectPromise None
               (set_connected false (this w)))) ∧
    nextTimer W = nextTimer w ∧
    browser W = browser w ∧
    log W = log w ++ l ∧
    promises W !! p = Some {| state := Rejected e; reactions := 1 |}.
Proof.
  intros Hk Hr Hp.
  destruct w as [b [k' cfg conn n reqs hs rt pi lp ca mx cn dev cp] socks proms tms nt st mt
                   clk l].
  cbn in Hk, Hp.
  assert (length proms > p)%nat as Hlen by (by eapply lookup_lt_Some).
  destruct r; try done; destruct pi as [t|];
    mrun; rewrite Hk; mrun;
    unfold rejected, settled, queued; wsimpl; rewrite Hp; cbn [state reactions settle];
    eexists _, _, _; (split; [reflexivity|]); wsimpl;
    rewrite list_lookup_insert_eq by lia; rewrite <- ?app_assoc;
    (split_and!; [by rewrite Nat.add_1_r|reflexivity..]).
Qed.

Lemma microtaskCheckpoint_none w :
  microtasks w = 0%nat → microtaskCheckpoint w = (inr (), w).
Proof.
  intros Hw. unfold microtaskCheckpoint, mbind, M_bind, gets, modify. rewrite Hw.
  cbn [replicate forEach]. by destruct w; cbn in *; subst.
Qed.

(** The attempt the reconnect timer makes when it fires. *)
Lemma reconnect_timer_attempts w t :
  timers w !! t = Some ReconnectTimeout →
  connectPromise (this w) = None →
  url_valid (browser w) (ws_url (config (this w))) = true →
  ∃ W,
    task (TimerFires t) w = (inr (), W) ∧
    sockets W !! length (sockets w) =
      Some {| readyState := CONNECTING;
              s_closures := Some (nextTimer w, length (promises w)) |} ∧
    promises W !! length (promises w) = Some {| state := Pending; reactions := 1 |} ∧
    this W = set_connectPromise (Some (length (promises w)))
               (set_ws (Some (length (sockets w)))
                  (set_connectionAttempts (S (connectionAttempts (this w)))
                     (set_reconnectTimer None (this w)))) ∧
    microtasks W = microtasks w ∧
    nextTimer W = S (nextTimer w) ∧
    browser W = browser w ∧
    log W = log w ++ connecting_log w ++
            [EWsNew (length (sockets w)) (ws_url (config (this w)));
             ESetTimeout (nextTimer w) 10000].
Proof.
  intros Ht Hp Hurl. cbn [task]. unfold runTimer.
  unfold mbind at 1, M_bind at 1, gets. rewrite Ht.
  rewrite modify_bind. unfold reconnectTimeout. rewrite setThis_bind.
  unfold mbind, M_bind. rewrite connect_dials by done. wsimpl.
  unfold catch_reconnect, mbind, M_bind, gets, modify. wsimpl.
  rewrite lookup_allocated. cbn [state reactions].
  eexists. split; [reflexivity|]. wsimpl.
  rewrite insert_app_r_alt, Nat.sub_diag by lia. cbn [insert list_insert].
  by rewrite !lookup_allocated.
Qed.

(** X20.  The reconnection loop.  When the reconnect timer fires with no
    attempt in flight, the client makes one attempt: it clears
    [reconnectTimer], counts the attempt and opens a socket.  When that
    socket closes, the attempt's promise is rejected and the rejection
    handler schedules the next attempt: as long as the attempt counter is
    below the maximum a new reconnect timer is armed, with the delay of the
    incremented counter (twice the previous delay, up to 30 s); once the
    maximum is reached no timer is armed. *)
Theorem failed_reconnect_schedules_next w t now now' code reason :
  timers w !! t = Some ReconnectTimeout →
  connectPromise (this w) = None →
  url_valid (browser w) (ws_url (config (this w))) = true →
  microtasks w = 0%nat →
  let k := length (sockets w) in
  let a := S (connectionAttempts (this w)) in
  let w1 := step now (TimerFires t) w in
  let w2 := step now' (SocketClose k code reason) w1 in
  opened (log w1) = opened (log w) ++ [k] ∧
  connectionAttempts (this w1) = a ∧
  reconnectTimer (this w1) = None ∧
  ((a < maxReconnectAttempts (this w))%nat →
   reconnectTimer (this w2) = Some (nextTimer w1) ∧
   timers w2 !! nextTimer w1 = Some ReconnectTimeout ∧
   ∃ l, log w2 = log w1 ++ l ++
                 [EConsoleError "[Gateway] Reconnect failed:";
                  ESetTimeout (nextTimer w1) (reconnectDelay a)]) ∧
  ((maxReconnectAttempts (this w) ≤ a)%nat →
   reconnectTimer (this w2) = None ∧ nextTimer w2 = nextTimer w1).
Proof.
  intros Ht Hp Hurl Hmicro k a w1 w2.
  destruct (reconnect_timer_attempts (set_clock now w) t Ht Hp Hurl)
    as (W1 & Hrun1 & Hsock & Hprom & Hthis1 & Hmicro1 & Hnext1 & Hb1 & Hlog1).
  revert Hsock Hprom Hthis1 Hmicro1 Hnext1 Hb1 Hlog1. wsimpl.
  intros Hsock Hprom Hthis1 Hmicro1 Hnext1 Hb1 Hlog1.
  assert (w1 = W1) as Hw1.
  { unfold w1, step, exec. rewrite Hrun1. cbn [snd].
    rewrite microtaskCheckpoint_none by congruence. done. }
  destruct (close_rejects_attempt (set_clock now' W1) k CONNECTING (nextTimer w)
              (length (promises w)) code reason Hsock ltac:(done) Hprom)
    as (W2 & l & e & Hrun2 & Hmicro2 & Hthis2 & Hnext2 & Hb2 & Hlog2 & _).
  revert Hmicro2 Hthis2 Hnext2 Hb2 Hlog2. wsimpl. rewrite Hthis1, Hmicro1, Hmicro.
  intros Hmicro2 Hthis2 Hnext2 Hb2 Hlog2.
  assert (w2 = exec scheduleReconnect
                 (set_log (log W2 ++ [EConsoleError "[Gateway] Reconnect failed:"])
                    (set_microtasks 0%nat W2))) as Hw2.
  { unfold w2, step, exec at 1 2. rewrite Hw1, Hrun2. cbn [snd].
    by rewrite microtaskCheckpoint_one. }
  rewrite Hw2, Hw1. clear Hw1 Hw2 w1 w2. split_and!.
  - rewrite Hlog1. unfold connecting_log.
    by rewrite !opened_app, opened_emit.
  - by rewrite Hthis1.
  - by rewrite Hthis1.
  - intros Hlt. unfold exec. rewrite scheduleReconnect_arms; wsimpl;
      rewrite ?Hthis2; wsimpl; [|done|lia].
    cbn [snd]. wsimpl. rewrite Hnext2, lookup_insert_eq, Hlog2. split_and!; [done..|].
    exists l. by rewrite <- !app_assoc.
  - intros Hle. unfold exec. rewrite scheduleReconnect_exhausted; wsimpl;
      rewrite ?Hthis2; wsimpl; [|done..].
    cbn [snd]. wsimpl. by rewrite Hthis2.
Qed.

(** X20, instance: the first reconnect timer of [reconnect_scheduled] fires
    at 2 s, and the socket it opens closes at 2.5 s: the next timer is armed
    for 2000 ms. *)
Lemma failed_reconnect_schedules_next_witness :
  let w := reconnect_scheduled in
  let w2 := step 2500 (SocketClose 0%nat 1006 "") (step 2000 (TimerFires 1%nat) w) in
  timers w !! 1%nat = Some ReconnectTimeout ∧
  connectPromise (this w) = None ∧
  url_valid (browser w) (ws_url (config (this w))) = true ∧
  microtasks w = 0%nat ∧
  reconnectTimer (this w2) = Some 3%nat ∧
  ∃ l, log w2 = log (step 2000 (TimerFires 1%nat) w) ++ l ++
                [EConsoleError "[Gateway] Reconnect failed:"; ESetTimeout 3%nat 2000].
Proof.
  intros w w2.
  assert (timers w !! 1%nat = Some ReconnectTimeout) as Ht by (by vm_compute).
  assert (connectPromise (this w) = None) as Hp by (by vm_compute).
  assert (url_valid (browser w) (ws_url (config (this w))) = true) as Hurl by done.
  assert (microtasks w = 0%nat) as Hmicro by (by vm_compute).
  assert (S (connectionAttempts (this w)) < maxReconnectAttempts (this w))%nat as Hlt
    by (vm_compute; lia).
  destruct (failed_reconnect_schedules_next w 1%nat 2000 2500 1006 "" Ht Hp Hurl Hmicro)
    as (_ & _ & _ & Harm & _).
  destruct (Harm Hlt) as (Hrt & _ & l & Hlog).
  assert (length (sockets w) = 0%nat) as Hk by (by vm_compute).
  rewrite Hk in Hrt, Hlog. split_and!; [done..| |].
  - unfold w2. rewrite Hrt. by vm_compute.
  - exists l. unfold w2. rewrite Hlog.
    assert (nextTimer (step 2000 (TimerFires 1%nat) w) = 3%nat) as -> by (by vm_compute).
    by assert (reconnectDelay (S (connectionAttempts (this w))) = 2000) as ->
      by (by vm_compute).
Defined.
(** ** The connection timer *)

(** X21.  When a connection timer fires, it acts on the socket the client
    holds at that moment, whichever attempt armed it: unless that socket is
    open, it is closed, the record of the attempt in flight is dropped and
    the promise of the timer's own attempt is rejected with "Connection
    timeout"; the other promises are not touched.  With an open socket, or
    none, the timer does nothing.  [disconnect] does not clear the timer of
    the attempt it abandons. *)
Theorem connection_timer_closes_current_socket w t p :
  timers w !! t = Some (ConnectionTimeout p) →
  let W := exec (task (TimerFires t)) w in
  (∀ k r, ws (this w) = Some k → readyState <$> sockets w !! k = Some r → r ≠ OPEN →
     sockets W = closing k (sockets w) ∧
     connectPromise (this W) = None ∧
     log W = log w ++ [EConsoleError "[Gateway] Connection timeout";
                       EWsClose k None None; EReject p (Error "Connection timeout")] ∧
     ∀ q, q ≠ p → promises W !! q = promises w !! q) ∧
  (∀ k, ws (this w) = Some k → readyState <$> sockets w !! k = Some OPEN →
     W = set_timers (delete t (timers w)) w) ∧
  (ws (this w) = None → W = set_timers (delete t (timers w)) w) ∧
  (reachable w → timers (exec disconnect w) !! t = Some (ConnectionTimeout p)).
Proof.
  intros Ht W. subst W.
  split_and!.
  - intros k r Hk Hs Hr.
    destruct w as [b [k' cfg conn n reqs hs rt pi lp ca mx cn dev cp] socks proms tms nt st
                     mt clk l].
    cbn in Ht, Hk, Hs. subst k'. unfold exec, closing. mexec. rewrite Ht. mexec.
    destruct (socks !! k) as [[r' cl]|] eqn:Hsock; [|done]. cbn in Hs. injection Hs as ->.
    destruct r; try done; mexec;
      rewrite ?bool_decide_eq_false_2 by done; mrun; rewrite ?Hsock; mrun;
      unfold rejected; wsimpl; rewrite <- ?app_assoc;
      (split_and!; [reflexivity..|]); intros q Hq; by rewrite settled_lookup_ne.
  - intros k Hk Hs.
    destruct w as [b [k' cfg conn n reqs hs rt pi lp ca mx cn dev cp] socks proms tms nt st
                     mt clk l].
    cbn in Ht, Hk, Hs. subst k'. unfold exec. mexec. rewrite Ht. mexec.
    destruct (socks !! k) as [[r' cl]|] eqn:Hsock; [|done]. cbn in Hs. injection Hs as ->.
    mexec. by rewrite bool_decide_eq_true_2.
  - intros Hk.
    destruct w as [b [k' cfg conn n reqs hs rt pi lp ca mx cn dev cp] socks proms tms nt st
                     mt clk l].
    cbn in Ht, Hk. subst k'. unfold exec. mexec. by rewrite Ht.
  - intros [_ Hp Hr _ _]%reachable_timers_inv.
    assert (∀ t', pingInterval (this w) = Some t' → t' ≠ t) as Hping.
    { intros t' Ht'%Hp ->. congruence. }
    assert (∀ t', reconnectTimer (this w) = Some t' → t' ≠ t) as Hrec.
    { intros t' Ht'%Hr ->. congruence. }
    unfold exec. rewrite disconnect_spec. cbn [snd]. unfold disconnected, cancel. wsimpl.
    destruct (reconnectTimer (this w)) as [t1|], (pingInterval (this w)) as [t2|];
      rewrite ?lookup_delete_ne; auto.
Qed.

(** X21, instance: in [second_attempt] the timer of the first attempt
    (timer 1, promise 0) is still armed, and the client holds the socket of
    the second attempt (socket 1, promise 1). *)
Lemma connection_timer_closes_current_socket_witness :
  let w := second_attempt in
  let W := exec (task (TimerFires 1%nat)) w in
  timers w !! 1%nat = Some (ConnectionTimeout 0) ∧
  ws (this w) = Some 1%nat ∧ connectPromise (this w) = Some 1%nat ∧
  readyState <$> sockets w !! 1%nat = Some CONNECTING ∧
  readyState <$> sockets W !! 1%nat = Some CLOSING ∧
  connectPromise (this W) = None ∧
  state <$> promises W !! 1%nat = Some Pending.
Proof.
  intros w W.
  assert (timers w !! 1%nat = Some (ConnectionTimeout 0)) as Ht by (by vm_compute).
  assert (ws (this w) = Some 1%nat) as Hk by (by vm_compute).
  assert (readyState <$> sockets w !! 1%nat = Some CONNECTING) as Hs by (by vm_compute).
  destruct (connection_timer_closes_current_socket w 1%nat 0%nat Ht) as (Hfire & _).
  destruct (Hfire 1%nat CONNECTING Hk Hs ltac:(done)) as (Hsocks & Hcp & _ & Hproms).
  fold W in Hsocks, Hcp, Hproms.
  split_and!; [done|done|by vm_compute|done| |done|].
  - rewrite Hsocks. by vm_compute.
  - rewrite Hproms by done. by vm_compute.
Defined.
(** ** The challenge *)


